(** * The Social Graph: analytics queries and profile-report parser

    A shallow embedding of
    - [src/NL_Query_Processor.py]: [parse_profile_metrics], together with the
      fragment of Python's [re] engine its eleven patterns need, and
    - [src/GraphManager.py]: [find_similar_accounts], [recommend_posts],
      [calculate_pagerank] and [_custom_pagerank_implementation], together
      with the Cypher clauses their queries are written in.

    The second half of the definitions adds the operations of
    [Neo4jGraphManager] that write to the store or read it back:
    [add_account], [follow_account], [unfollow_account], [add_post],
    [like_post], [unlike_post], [get_graph_statistics],
    [get_connected_accounts] and [get_common_connections].

    Conventions.  Python [float]s and Cypher floating-point numbers are
    modelled by exact rationals [Q]; text is modelled by [string] over 8-bit
    characters, and the character classes [\d], [\w], [\s] have their ASCII
    meaning.  Raising an exception is modelled by the [Raise] outcome of the
    [result] type. *)

From Stdlib Require Import QArith Lqa Ascii String.
From stdpp Require Import gmap strings list sorting.

Local Open Scope string_scope.
Local Open Scope Z_scope.
Local Arguments String.append : simpl nomatch.

(** ** Outcomes of fallible Python code *)

Inductive exn :=
| ValueError            (* int() / float() on text that is not a number *)
| IndexError            (* m.group(i) for a group the match does not have *)
| StoreUnavailable      (* the driver could not reach the store *)
| QueryError            (* the store rejected or aborted the query *)
| ArithmeticError.      (* division by zero inside a query *)

Inductive result (A : Type) :=
| Ok (a : A)
| Raise (e : exn).
Arguments Ok {A} a.
Arguments Raise {A} e.

Definition rbind {A B} (r : result A) (f : A → result B) : result B :=
  match r with
  | Ok a => f a
  | Raise e => Raise e
  end.

Declare Scope result_scope.
Delimit Scope result_scope with result.
Notation "'let*' x ':=' c 'in' k" := (rbind c (fun x => k))
  (at level 10, x name, c at level 100, k at level 200) : result_scope.
Notation "'let*' ' p ':=' c 'in' k" := (rbind c (fun x => match x with p => k end))
  (at level 10, p pattern, c at level 100, k at level 200) : result_scope.
Local Open Scope result_scope.

(** ** Python's [re]: a backtracking matcher *)

Module Re.

(** A character class is its membership test. *)
Definition cclass := ascii → bool.

Inductive regex :=
| Eps                                 (* the empty pattern *)
| Chr (p : cclass)                    (* one character of a class *)
| Seq (r1 r2 : regex)                 (* r1 r2 *)
| Alt (r1 r2 : regex)                 (* r1|r2, left first *)
| Star (greedy : bool) (r : regex)    (* r* and r*? *)
| Group (i : nat) (r : regex)         (* the i-th capturing group (r) *)
| Ahead (r : regex)                   (* (?=r) *)
| Eos.                                (* $ without re.MULTILINE *)

Definition Plus (greedy : bool) (r : regex) : regex := Seq r (Star greedy r).

(** Captured groups, most recent first. *)
Definition caps := list (nat * string).

Definition orelse {A} (x y : option A) : option A :=
  match x with
  | Some a => Some a
  | None => y
  end.

(** [consumed s s'] is the text between the position where [s] starts and
    the position where its suffix [s'] starts. *)
Definition consumed (s s' : string) : string :=
  substring 0 (String.length s - String.length s') s.

(** The bounded repetition behind [r*] and [r*?]: [m] matches one more [r],
    [n] bounds the number of repetitions, and a repetition that consumes
    nothing is not taken.  A greedy star tries one more repetition before
    it tries the continuation, a lazy star the other way round. *)
Definition cont := string → caps → option (string * caps).

Fixpoint star_loop (m : string → caps → cont → option (string * caps))
    (greedy : bool) (k : cont) (n : nat) (s : string) (cs : caps)
    : option (string * caps) :=
  match n with
  | O => k s cs
  | S n' =>
      let again :=
        m s cs (fun s' cs' =>
          if (String.length s' <? String.length s)%nat
          then star_loop m greedy k n' s' cs' else None) in
      if greedy then orelse again (k s cs) else orelse (k s cs) again
  end.

(** [rmatch r s cs k] matches [r] at the start of [s] and hands the rest of
    the text and the captures to the continuation [k]; a [None] from the
    continuation makes the matcher backtrack into [r]. *)
Fixpoint rmatch (r : regex) (s : string) (cs : caps) (k : cont) {struct r}
    : option (string * caps) :=
  match r with
  | Eps => k s cs
  | Chr p =>
      match s with
      | String c s' => if p c then k s' cs else None
      | EmptyString => None
      end
  | Seq r1 r2 => rmatch r1 s cs (fun s' cs' => rmatch r2 s' cs' k)
  | Alt r1 r2 => orelse (rmatch r1 s cs k) (rmatch r2 s cs k)
  | Star greedy r1 => star_loop (rmatch r1) greedy k (String.length s) s cs
  | Group i r1 =>
      rmatch r1 s cs (fun s' cs' => k s' ((i, consumed s s') :: cs'))
  | Ahead r1 =>
      match rmatch r1 s cs (fun s' cs' => Some (s', cs')) with
      | Some (_, cs') => k s cs'
      | None => None
      end
  | Eos =>
      match s with
      | EmptyString => k s cs
      | String c EmptyString => if Ascii.eqb c "010" then k s cs else None
      | _ => None
      end
  end.

(** A match object: the text after the match and the captured groups. *)
Record Match := { m_rest : string; m_caps : caps }.

(** [pattern.match]: anchored at the start of [s]. *)
Definition re_match (r : regex) (s : string) : option Match :=
  match rmatch r s [] (fun s' cs' => Some (s', cs')) with
  | Some (s', cs') => Some {| m_rest := s'; m_caps := cs' |}
  | None => None
  end.

(** [re.search]: the leftmost position where the pattern matches. *)
Fixpoint re_search (r : regex) (s : string) : option Match :=
  match re_match r s with
  | Some m => Some m
  | None =>
      match s with
      | String _ s' => re_search r s'
      | EmptyString => None
      end
  end.

(** [m.group(i)] *)
Fixpoint lookup_group (i : nat) (cs : caps) : option string :=
  match cs with
  | [] => None
  | (j, g) :: cs' => if (i =? j)%nat then Some g else lookup_group i cs'
  end.

Definition group (m : Match) (i : nat) : result string :=
  match lookup_group i (m_caps m) with
  | Some g => Ok g
  | None => Raise IndexError
  end.

(** [re.findall] for a pattern with one group: the group of every match,
    left to right, matches not overlapping.  [skip] counts the characters
    of the previous match that are still to be stepped over. *)
Fixpoint findall_from (r : regex) (skip : nat) (s : string) : list string :=
  match skip with
  | S skip' =>
      match s with
      | String _ s' => findall_from r skip' s'
      | EmptyString => []
      end
  | O =>
      match re_match r s with
      | Some m =>
          let g := default "" (lookup_group 1 (m_caps m)) in
          let n := (String.length s - String.length (m_rest m))%nat in
          match s with
          | String _ s' => g :: findall_from r (Nat.pred n) s'
          | EmptyString => [g]
          end
      | None =>
          match s with
          | String _ s' => findall_from r 0 s'
          | EmptyString => []
          end
      end
  end.

Definition findall (r : regex) (s : string) : list string := findall_from r 0 s.

(** *** What a match is

    [matches r s cs s' cs'] says that [r] can match at the start of [s],
    leaving [s'] and turning the captures [cs] into [cs']. *)
Inductive matches : regex → string → caps → string → caps → Prop :=
| M_Eps s cs : matches Eps s cs s cs
| M_Chr (p : cclass) c s cs : p c = true → matches (Chr p) (String c s) cs s cs
| M_Seq r1 r2 s cs s1 cs1 s2 cs2 :
    matches r1 s cs s1 cs1 → matches r2 s1 cs1 s2 cs2 →
    matches (Seq r1 r2) s cs s2 cs2
| M_AltL r1 r2 s cs s' cs' : matches r1 s cs s' cs' → matches (Alt r1 r2) s cs s' cs'
| M_AltR r1 r2 s cs s' cs' : matches r2 s cs s' cs' → matches (Alt r1 r2) s cs s' cs'
| M_Star0 g r s cs : matches (Star g r) s cs s cs
| M_StarS g r s cs s1 cs1 s2 cs2 :
    matches r s cs s1 cs1 → matches (Star g r) s1 cs1 s2 cs2 →
    matches (Star g r) s cs s2 cs2
| M_Group i r s cs s' cs' :
    matches r s cs s' cs' → matches (Group i r) s cs s' ((i, consumed s s') :: cs')
| M_Ahead r s cs s' cs' : matches r s cs s' cs' → matches (Ahead r) s cs s cs'
| M_Eos s cs : s = "" ∨ s = String "010" "" → matches Eos s cs s cs.

(** Patterns without capturing groups, and text within a class. *)
Fixpoint nogroups (r : regex) : bool :=
  match r with
  | Eps | Chr _ | Eos => true
  | Seq r1 r2 | Alt r1 r2 => nogroups r1 && nogroups r2
  | Star _ r1 | Ahead r1 => nogroups r1
  | Group _ _ => false
  end.

Fixpoint all_chars (p : cclass) (s : string) : bool :=
  match s with
  | EmptyString => true
  | String c s' => p c && all_chars p s'
  end.

End Re.

(** ** [Neo4jLLMQueryProcessor.parse_profile_metrics] *)

Module Profile.
Import Re.

Declare Scope regex_scope.
Delimit Scope regex_scope with regex.
Notation "r1 ;; r2" := (Seq r1 r2) (at level 100, r2 at level 200, right associativity) : regex_scope.
Local Open Scope regex_scope.

(** *** Character classes *)

Definition code (c : ascii) : N := N_of_ascii c.

Definition between (lo hi : N) (c : ascii) : bool :=
  ((lo <=? code c) && (code c <=? hi))%N.

Definition is_digit : cclass := between 48 57.                 (* \d *)
Definition is_upper : cclass := between 65 90.
Definition is_lower : cclass := between 97 122.
Definition is_alpha : cclass := fun c => is_upper c || is_lower c.   (* [A-Za-z] *)
Definition is_word : cclass :=                                 (* \w *)
  fun c => is_alpha c || is_digit c || Ascii.eqb c "_".
(** \s on [str]: tab to carriage return, the separators 28 to 31, space *)
Definition is_space : cclass :=
  fun c => between 9 13 c || between 28 32 c.
Definition dotall : cclass := fun _ => true.                   (* . with re.DOTALL *)
Definition dot : cclass := fun c => negb (Ascii.eqb c "010").  (* . *)

Definition lower (c : ascii) : ascii :=
  if is_upper c then ascii_of_N (code c + 32) else c.

(** One literal character; [ic] is re.IGNORECASE. *)
Definition is_char (ic : bool) (a : ascii) : cclass :=
  fun c => if ic then Ascii.eqb (lower c) (lower a) else Ascii.eqb c a.

Definition one_of (ic : bool) (l : list ascii) : cclass :=
  fun c => existsb (fun a => is_char ic a c) l.

(** A literal run of characters. *)
Fixpoint lit (ic : bool) (s : string) : regex :=
  match s with
  | EmptyString => Eps
  | String a s' => Chr (is_char ic a) ;; lit ic s'
  end.

Definition digits : regex := Plus true (Chr is_digit).                   (* \d+ *)
Definition decimal : regex := digits ;; lit false "." ;; digits.          (* \d+\.\d+ *)
Definition spaces : regex := Star true (Chr is_space).                   (* \s* *)

(** *** The patterns, in source order *)

(** r"Cypher version:.+, planner: \w+, runtime: \w+\. (\d+) total db hits in (\d+\.\d+) ms\."
    with re.DOTALL *)
Definition time_pat : regex :=
  lit false "Cypher version:" ;; Plus true (Chr dotall) ;;
  lit false ", planner: " ;; Plus true (Chr is_word) ;;
  lit false ", runtime: " ;; Plus true (Chr is_word) ;; lit false ". " ;;
  Group 1 digits ;; lit false " total db hits in " ;;
  Group 2 decimal ;; lit false " ms.".

(** r"planning: (\d+\.\d+) ms" *)
Definition planning_pat : regex :=
  lit false "planning: " ;; Group 1 decimal ;; lit false " ms".

(** r"memory\s*\[\s*([\d\.]+\s*[KMG]B)\s*\]" with re.IGNORECASE *)
Definition memory_pat : regex :=
  lit true "memory" ;; spaces ;; lit true "[" ;; spaces ;;
  Group 1 (Plus true (Chr (fun c => is_digit c || Ascii.eqb c ".")) ;; spaces ;;
           Chr (one_of true ["K"; "M"; "G"]%char) ;; lit true "B") ;;
  spaces ;; lit true "]".

(** r"\+\-*([^+]+?)(?=\+|$)" with re.DOTALL *)
Definition block_pat : regex :=
  lit false "+" ;; Star true (Chr (is_char false "-")) ;;
  Group 1 (Plus false (Chr (fun c => negb (Ascii.eqb c "+")))) ;;
  Ahead (Alt (lit false "+") Eos).

(** r"([A-Za-z]+)" *)
Definition name_pat : regex := Group 1 (Plus true (Chr is_alpha)).

(** r"<key>\s*\[\s*(\d+)\s*\]" with re.IGNORECASE *)
Definition bracket_pat (key : string) : regex :=
  lit true key ;; spaces ;; lit true "[" ;; spaces ;;
  Group 1 digits ;; spaces ;; lit true "]".

Definition db_hits_pat : regex := bracket_pat "db hits".
Definition rows_pat : regex := bracket_pat "rows".

(** r"elapsed\s*\[\s*(\d+)\s*ms\s*\]" with re.IGNORECASE *)
Definition elapsed_pat : regex :=
  lit true "elapsed" ;; spaces ;; lit true "[" ;; spaces ;;
  Group 1 digits ;; spaces ;; lit true "ms" ;; spaces ;; lit true "]".

(** r"(Index|NodeIndexSeek).+\((.+?)\)" with re.IGNORECASE *)
Definition index_pat : regex :=
  Group 1 (Alt (lit true "Index") (lit true "NodeIndexSeek")) ;;
  Plus true (Chr dot) ;; lit true "(" ;;
  Group 2 (Plus false (Chr dot)) ;; lit true ")".

(** r"cache hits: (\d+)" and r"cache misses: (\d+)" with re.IGNORECASE *)
Definition cache_hits_pat : regex := lit true "cache hits: " ;; Group 1 digits.
Definition cache_misses_pat : regex := lit true "cache misses: " ;; Group 1 digits.

(** *** int() and float() *)

Definition digit_val (c : ascii) : Z := Z.of_N (code c) - 48.

Fixpoint digits_val (acc : Z) (s : string) : result Z :=
  match s with
  | EmptyString => Ok acc
  | String c s' =>
      if is_digit c then digits_val (10 * acc + digit_val c) s' else Raise ValueError
  end.

(** The value of a non-empty run of decimal digits; other text is
    rejected, which is stricter than Python (no sign, blanks or
    underscores). *)
Definition py_digits (s : string) : result Z :=
  match s with
  | EmptyString => Raise ValueError
  | _ => digits_val 0 s
  end.

(** sys.int_info.default_max_str_digits: CPython (3.11, and the security
    releases of 3.7 to 3.10) refuses to convert text of more digits, leading
    zeros included. *)
Definition int_max_str_digits : nat := 4300.

(** [int(s)] *)
Definition py_int (s : string) : result Z :=
  if (int_max_str_digits <? String.length s)%nat then Raise ValueError
  else py_digits s.

Fixpoint split_dot (s : string) : option (string * string) :=
  match s with
  | EmptyString => None
  | String c s' =>
      if Ascii.eqb c "." then Some (EmptyString, s')
      else match split_dot s' with
           | Some (a, b) => Some (String c a, b)
           | None => None
           end
  end.

(** [float(s)] for text of the shape digits.digits; everything else is
    rejected, which is stricter than Python.  [float] has no limit on the
    number of digits. *)
Definition py_float (s : string) : result Q :=
  match split_dot s with
  | Some (a, b) =>
      let* ip := py_digits a in
      let* fp := py_digits b in
      let scale := 10 ^ Z.of_nat (String.length b) in
      Ok (Qred (Qmake (ip * scale + fp) (Z.to_pos scale)))
  | None => Raise ValueError
  end.

(** *** The metrics dictionary *)

Record Operator := {
  op_name : string;
  op_db_hits : Z;
  op_rows : Z;
  op_elapsed_ms : Z
}.

Record Metrics := {
  db_hits : Z;
  rows : Z;
  elapsed_time_ms : Z;
  memory_usage : string;
  operators : list Operator;
  total_db_hits : Z;
  query_time_ms : Q;
  planning_time_ms : Q;
  indexes_used : list string;
  cache_hits : Z;
  cache_misses : Z
}.

Definition initial_metrics : Metrics :=
  {| db_hits := 0; rows := 0; elapsed_time_ms := 0; memory_usage := "";
     operators := []; total_db_hits := 0; query_time_ms := 0;
     planning_time_ms := 0; indexes_used := []; cache_hits := 0;
     cache_misses := 0 |}.

(** [metrics[key] = v], one setter per key *)
Definition set_db_hits (v : Z) (m : Metrics) : Metrics :=
  {| db_hits := v; rows := rows m; elapsed_time_ms := elapsed_time_ms m;
     memory_usage := memory_usage m; operators := operators m;
     total_db_hits := total_db_hits m; query_time_ms := query_time_ms m;
     planning_time_ms := planning_time_ms m; indexes_used := indexes_used m;
     cache_hits := cache_hits m; cache_misses := cache_misses m |}.
Definition set_rows (v : Z) (m : Metrics) : Metrics :=
  {| db_hits := db_hits m; rows := v; elapsed_time_ms := elapsed_time_ms m;
     memory_usage := memory_usage m; operators := operators m;
     total_db_hits := total_db_hits m; query_time_ms := query_time_ms m;
     planning_time_ms := planning_time_ms m; indexes_used := indexes_used m;
     cache_hits := cache_hits m; cache_misses := cache_misses m |}.
Definition set_elapsed_time_ms (v : Z) (m : Metrics) : Metrics :=
  {| db_hits := db_hits m; rows := rows m; elapsed_time_ms := v;
     memory_usage := memory_usage m; operators := operators m;
     total_db_hits := total_db_hits m; query_time_ms := query_time_ms m;
     planning_time_ms := planning_time_ms m; indexes_used := indexes_used m;
     cache_hits := cache_hits m; cache_misses := cache_misses m |}.
Definition set_memory_usage (v : string) (m : Metrics) : Metrics :=
  {| db_hits := db_hits m; rows := rows m; elapsed_time_ms := elapsed_time_ms m;
     memory_usage := v; operators := operators m;
     total_db_hits := total_db_hits m; query_time_ms := query_time_ms m;
     planning_time_ms := planning_time_ms m; indexes_used := indexes_used m;
     cache_hits := cache_hits m; cache_misses := cache_misses m |}.
Definition set_operators (v : list Operator) (m : Metrics) : Metrics :=
  {| db_hits := db_hits m; rows := rows m; elapsed_time_ms := elapsed_time_ms m;
     memory_usage := memory_usage m; operators := v;
     total_db_hits := total_db_hits m; query_time_ms := query_time_ms m;
     planning_time_ms := planning_time_ms m; indexes_used := indexes_used m;
     cache_hits := cache_hits m; cache_misses := cache_misses m |}.
Definition set_total_db_hits (v : Z) (m : Metrics) : Metrics :=
  {| db_hits := db_hits m; rows := rows m; elapsed_time_ms := elapsed_time_ms m;
     memory_usage := memory_usage m; operators := operators m;
     total_db_hits := v; query_time_ms := query_time_ms m;
     planning_time_ms := planning_time_ms m; indexes_used := indexes_used m;
     cache_hits := cache_hits m; cache_misses := cache_misses m |}.
Definition set_query_time_ms (v : Q) (m : Metrics) : Metrics :=
  {| db_hits := db_hits m; rows := rows m; elapsed_time_ms := elapsed_time_ms m;
     memory_usage := memory_usage m; operators := operators m;
     total_db_hits := total_db_hits m; query_time_ms := v;
     planning_time_ms := planning_time_ms m; indexes_used := indexes_used m;
     cache_hits := cache_hits m; cache_misses := cache_misses m |}.
Definition set_planning_time_ms (v : Q) (m : Metrics) : Metrics :=
  {| db_hits := db_hits m; rows := rows m; elapsed_time_ms := elapsed_time_ms m;
     memory_usage := memory_usage m; operators := operators m;
     total_db_hits := total_db_hits m; query_time_ms := query_time_ms m;
     planning_time_ms := v; indexes_used := indexes_used m;
     cache_hits := cache_hits m; cache_misses := cache_misses m |}.
Definition set_indexes_used (v : list string) (m : Metrics) : Metrics :=
  {| db_hits := db_hits m; rows := rows m; elapsed_time_ms := elapsed_time_ms m;
     memory_usage := memory_usage m; operators := operators m;
     total_db_hits := total_db_hits m; query_time_ms := query_time_ms m;
     planning_time_ms := planning_time_ms m; indexes_used := v;
     cache_hits := cache_hits m; cache_misses := cache_misses m |}.
Definition set_cache_hits (v : Z) (m : Metrics) : Metrics :=
  {| db_hits := db_hits m; rows := rows m; elapsed_time_ms := elapsed_time_ms m;
     memory_usage := memory_usage m; operators := operators m;
     total_db_hits := total_db_hits m; query_time_ms := query_time_ms m;
     planning_time_ms := planning_time_ms m; indexes_used := indexes_used m;
     cache_hits := v; cache_misses := cache_misses m |}.
Definition set_cache_misses (v : Z) (m : Metrics) : Metrics :=
  {| db_hits := db_hits m; rows := rows m; elapsed_time_ms := elapsed_time_ms m;
     memory_usage := memory_usage m; operators := operators m;
     total_db_hits := total_db_hits m; query_time_ms := query_time_ms m;
     planning_time_ms := planning_time_ms m; indexes_used := indexes_used m;
     cache_hits := cache_hits m; cache_misses := v |}.

(** [int(m.group(i))] and [float(m.group(i))] *)
Definition int_group (m : Match) (i : nat) : result Z :=
  let* g := group m i in py_int g.
Definition float_group (m : Match) (i : nat) : result Q :=
  let* g := group m i in py_float g.

(** *** The body of the loop over the operator blocks

    The loop state is the [metrics] dictionary and the local list
    [operators]. *)
Definition parse_block (st : Metrics * list Operator) (block : string)
    : result (Metrics * list Operator) :=
  let '(metrics, ops) := st in
  let* operator_name :=
    match re_search name_pat block with
    | Some name_match => group name_match 1
    | None => Ok ""
    end in
  let* '(hits, metrics) :=
    match re_search db_hits_pat block with
    | Some db_hits_match =>
        let* v := int_group db_hits_match 1 in
        Ok (v, set_db_hits (db_hits metrics + v) metrics)
    | None => Ok (0, metrics)
    end in
  let* '(nrows, metrics) :=
    match re_search rows_pat block with
    | Some rows_match =>
        let* v := int_group rows_match 1 in
        Ok (v, set_rows v metrics)
    | None => Ok (0, metrics)
    end in
  let* '(elapsed, metrics) :=
    match re_search elapsed_pat block with
    | Some elapsed_match =>
        let* v := int_group elapsed_match 1 in
        Ok (v, set_elapsed_time_ms (Z.max (elapsed_time_ms metrics) v) metrics)
    | None => Ok (0, metrics)
    end in
  let* metrics :=
    match re_search index_pat block with
    | Some index_match =>
        let* name := group index_match 2 in
        if bool_decide (name ∈ indexes_used metrics) then Ok metrics
        else Ok (set_indexes_used (indexes_used metrics ++ [name])%list metrics)
    | None => Ok metrics
    end in
  Ok (metrics,
      (ops ++ [{| op_name := operator_name; op_db_hits := hits;
                  op_rows := nrows; op_elapsed_ms := elapsed |}])%list).

Fixpoint parse_blocks (st : Metrics * list Operator) (blocks : list string)
    : result (Metrics * list Operator) :=
  match blocks with
  | [] => Ok st
  | block :: blocks' =>
      let* st' := parse_block st block in
      parse_blocks st' blocks'
  end.

Definition parse_profile_metrics (profile_string : string) : result Metrics :=
  let metrics := initial_metrics in
  (* overall execution time *)
  let* metrics :=
    match re_search time_pat profile_string with
    | Some time_match =>
        let* hits := int_group time_match 1 in
        let* t := float_group time_match 2 in
        Ok (set_query_time_ms t (set_total_db_hits hits metrics))
    | None => Ok metrics
    end in
  (* planning time *)
  let* metrics :=
    match re_search planning_pat profile_string with
    | Some planning_match =>
        let* t := float_group planning_match 1 in
        Ok (set_planning_time_ms t metrics)
    | None => Ok metrics
    end in
  (* memory usage *)
  let* metrics :=
    match re_search memory_pat profile_string with
    | Some memory_match =>
        let* g := group memory_match 1 in
        Ok (set_memory_usage g metrics)
    | None => Ok metrics
    end in
  (* operator statistics *)
  let operator_blocks := findall block_pat profile_string in
  let* '(metrics, ops) := parse_blocks (metrics, []) operator_blocks in
  let metrics := set_operators ops metrics in
  (* cache information *)
  let* metrics :=
    match re_search cache_hits_pat profile_string with
    | Some cache_hits_match =>
        let* v := int_group cache_hits_match 1 in
        Ok (set_cache_hits v metrics)
    | None => Ok metrics
    end in
  let* metrics :=
    match re_search cache_misses_pat profile_string with
    | Some cache_misses_match =>
        let* v := int_group cache_misses_match 1 in
        Ok (set_cache_misses v metrics)
    | None => Ok metrics
    end in
  Ok metrics.

(** The report fragment of the specification, section 6. *)
Definition nl : string := String "010" EmptyString.

Definition example_report : string :=
  "Summary: 842 total data-access operations in 3.210 ms. planning: 0.450 ms. memory [1.2 MB]" ++ nl ++
  "+-Operator1 (db hits[210], rows[50], elapsed[1 ms], index[account_name_unique])" ++ nl ++
  "+-Operator2 (db hits[632], rows[50], elapsed[2 ms])" ++ nl ++
  "cache hits: 5 cache misses: 1".



(** *** Vocabulary for the properties of the parser *)





(** The fields that the loop over the operator blocks leaves alone. *)
Definition same_summary (m m' : Metrics) : Prop :=
  total_db_hits m' = total_db_hits m ∧ query_time_ms m' = query_time_ms m ∧
  planning_time_ms m' = planning_time_ms m ∧ memory_usage m' = memory_usage m ∧
  operators m' = operators m ∧ cache_hits m' = cache_hits m ∧
  cache_misses m' = cache_misses m.


End Profile.

(** ** The Cypher clauses used by the analytics queries

    Rows are tuples of bound variables; a variable bound to a node holds the
    node's key (the account name or the post id, both unique in the store),
    and [None] stands for Cypher's null. *)

Module Cypher.

(** OPTIONAL MATCH: a row without a match survives with null bindings. *)
Definition optional {A} (l : list A) : list (option A) :=
  match l with
  | [] => [None]
  | _ => Some <$> l
  end.

(** collect(x), count(x): nulls are skipped. *)
Definition collect {A} (l : list (option A)) : list A := omap id l.
Definition count {A} (l : list (option A)) : nat := length (collect l).

(** count(DISTINCT x) *)
Definition count_distinct `{EqDecision A} (l : list A) : nat :=
  length (remove_dups l).

(** WITH key, aggregate(...): one row per distinct key, carrying the
    values of the rows of its group; no input rows, no output rows.  Cypher
    leaves the order of the groups open; here a key stands where its last
    row stood. *)
Definition group_by `{EqDecision K} {V} (rows : list (K * V)) : list (K * list V) :=
  (λ k, (k, snd <$> filter (λ r, r.1 = k) rows)) <$> remove_dups (fst <$> rows).

(** UNWIND list AS x: one row per element, so no row for an empty list. *)
Definition unwind {A B} (rows : list (A * list B)) : list (A * B) :=
  rows ≫= (λ r, (λ b, (r.1, b)) <$> r.2).

(** sum(x) over floats; nulls are skipped and the empty sum is 0. *)
Definition sum (l : list (option Q)) : Q := foldr Qplus 0%Q (collect l).

(** ORDER BY: a stable insertion sort; [before x y] says that [x] may
    stand before [y]. *)
Section OrderBy.
Context {A : Type} (before : A → A → bool).

Fixpoint insert_row (x : A) (l : list A) : list A :=
  match l with
  | [] => [x]
  | y :: l' => if before x y then x :: y :: l' else y :: insert_row x l'
  end.

Definition order_by (l : list A) : list A := foldr insert_row [] l.
End OrderBy.

(** Rows that come source by source, each source [x] with the key
    [key x] and the values [vals x]. *)
Definition runs {X K V} (key : X → K) (vals : X → list V) (xs : list X)
    : list (K * V) :=
  xs ≫= λ x, (λ v, (key x, v)) <$> vals x.

(** LIMIT n *)
Definition limit {A} (n : nat) (l : list A) : list A := take n l.

(** Descending order on floats, and on nullable floats (null first). *)
Definition Qgeb (x y : Q) : bool := Qle_bool y x.
Definition Qgtb (x y : Q) : bool := negb (Qle_bool x y).
Definition desc_nullable (x y : option Q) : bool :=
  match x, y with
  | None, _ => true
  | Some _, None => false
  | Some a, Some b => Qgeb a b
  end.

End Cypher.

(** ** The property graph held by the store *)

Module Store.

(** An account is keyed by its name; of its properties only the numeric
    ones matter to the queries below. *)
Record Account := { name : string; props : gmap string Q }.
Record Post := { post_id : string; post_content : string }.

Record Graph := {
  accounts : list Account;
  posts : list Post;
  follows : list (string * string);    (* Follows: follower, followee *)
  likes : list (string * string);      (* Likes: account, post id *)
  authored : list (string * string)    (* Posts: account, post id *)
}.

Definition with_accounts (l : list Account) (g : Graph) : Graph :=
  {| accounts := l; posts := posts g; follows := follows g;
     likes := likes g; authored := authored g |}.

(** The uniqueness constraints of [_ensure_constraints], MERGE on Follows,
    and edges that end in existing accounts. *)
Record wf_graph (g : Graph) : Prop := {
  wf_names : NoDup (name <$> accounts g);
  wf_follows : NoDup (follows g);
  wf_follows_src : ∀ e, e ∈ follows g → e.1 ∈ name <$> accounts g;
  wf_follows_dst : ∀ e, e ∈ follows g → e.2 ∈ name <$> accounts g
}.

(** MATCH (a:Account) and MATCH (a:Account {name: $n}) *)
Definition match_accounts (g : Graph) : list string := name <$> accounts g.
Definition match_account (g : Graph) (n : string) : list string :=
  filter (λ a, a = n) (match_accounts g).

(** (a)-[:Follows]->(b) and (a)<-[:Follows]-(b) *)
Definition out_follows (g : Graph) (a : string) : list string :=
  snd <$> filter (λ e, e.1 = a) (follows g).
Definition in_follows (g : Graph) (a : string) : list string :=
  fst <$> filter (λ e, e.2 = a) (follows g).

(** (a)-[:Likes]->(p) and (a)-[:Posts]->(p) *)
Definition out_likes (g : Graph) (a : string) : list string :=
  snd <$> filter (λ e, e.1 = a) (likes g).
Definition out_posts (g : Graph) (a : string) : list string :=
  snd <$> filter (λ e, e.1 = a) (authored g).

(** a.key *)
Definition node_prop (g : Graph) (a key : string) : option Q :=
  match filter (λ acc, name acc = a) (accounts g) with
  | acc :: _ => props acc !! key
  | [] => None
  end.

(** p.post_content *)
Definition content_of (g : Graph) (p : string) : option string :=
  match filter (λ q, post_id q = p) (posts g) with
  | q :: _ => Some (post_content q)
  | [] => None
  end.

(** SET a.key = v (a null value removes the property) and REMOVE a.key *)
Definition write_prop (key : string) (v : option Q) (acc : Account) : Account :=
  {| name := name acc;
     props := match v with
              | Some q => <[key := q]> (props acc)
              | None => delete key (props acc)
              end |}.

Definition set_prop (a key : string) (v : option Q) (g : Graph) : Graph :=
  with_accounts
    ((λ acc, if bool_decide (name acc = a) then write_prop key v acc else acc)
       <$> accounts g) g.

End Store.

(** ** [Neo4jGraphManager]: similarity, recommendation and ranking *)

Module Analytics.
Import Cypher Store.

#[global] Instance Q_eq_dec : EqDecision Q.
Proof. solve_decision. Defined.

Fixpoint mapM {A B} (f : A → result B) (l : list A) : result (list B) :=
  match l with
  | [] => Ok []
  | x :: l' =>
      let* y := f x in
      let* ys := mapM f l' in
      Ok (y :: ys)
  end.

Definition of_nat (n : nat) : Q := inject_Z (Z.of_nat n).

(** toFloat(n) / d; a zero divisor is reported as an error. *)
Definition float_div (n d : nat) : result Q :=
  if (d =? 0)%nat then Raise ArithmeticError else Ok (of_nat n / of_nat d)%Q.

(** *** find_similar_accounts *)

Record SimilarRow := {
  similar_account : string;
  common_follows : nat;
  similarity_score : Q
}.

(** ORDER BY similarity_score DESC, common_follows DESC *)
Definition similar_before (r1 r2 : SimilarRow) : bool :=
  Qgtb (similarity_score r1) (similarity_score r2)
  || (Qeq_bool (similarity_score r1) (similarity_score r2)
      && (common_follows r2 <=? common_follows r1)%nat).

Definition find_similar_accounts (g : Graph) (account_name : string) (lim : nat)
    : result (list SimilarRow) :=
  (* MATCH (a:Account {name: $account_name})-[:Follows]->(followed:Account) *)
  let rows :=
    a ← match_account g account_name;
    (λ followed, (a, followed)) <$> out_follows g a in
  (* WITH a, collect(followed) as user_follows *)
  let rows := group_by rows in
  (* MATCH (other:Account)-[:Follows]->(their_followed:Account)
     WHERE other <> a *)
  let rows :=
    r ← rows;
    other ← match_accounts g;
    their_followed ← out_follows g other;
    if bool_decide (other ≠ r.1) then [((other, r.2), their_followed)] else [] in
  (* WITH other, user_follows, collect(their_followed) as other_follows,
          size(user_follows) as user_follow_count *)
  let rows :=
    (λ r, (r.1.1, r.1.2, r.2, length r.1.2)) <$> group_by rows in
  (* WITH other,
          size([x IN other_follows WHERE x IN user_follows]) as common_follows,
          user_follow_count *)
  let rows :=
    (λ '(other, user_follows, other_follows, user_follow_count),
       (other, length (filter (λ x, x ∈ user_follows) other_follows),
        user_follow_count)) <$> rows in
  (* WITH other.name AS similar_account, common_follows,
          toFloat(common_follows) / user_follow_count AS similarity_score *)
  let* rows :=
    mapM (λ '(other, common, user_follow_count),
            let* score := float_div common user_follow_count in
            Ok {| similar_account := other; common_follows := common;
                  similarity_score := score |}) rows in
  (* WHERE similarity_score > 0 *)
  let rows := filter (λ r, Qgtb (similarity_score r) 0) rows in
  (* RETURN ... ORDER BY similarity_score DESC, common_follows DESC LIMIT $limit *)
  Ok (limit lim (order_by similar_before rows)).

(** *** recommend_posts *)

Record PostRow := {
  rec_post_id : string;
  rec_content : option string;
  recommendation_score : Q
}.

Definition recommend_before (r1 r2 : PostRow) : bool :=
  Qgeb (recommendation_score r1) (recommendation_score r2).

Definition recommend_posts (g : Graph) (account_name : string) (lim : nat)
    : list PostRow :=
  (* MATCH (a:Account {name: $account_name})-[:Follows]->(followed:Account)-[:Likes]->(p:Post)
     WHERE NOT (a)-[:Likes]->(p) *)
  let rows :=
    a ← match_account g account_name;
    followed ← out_follows g a;
    p ← out_likes g followed;
    if bool_decide (p ∉ out_likes g a) then [(p, followed)] else [] in
  (* WITH p, count(DISTINCT followed) AS followed_likes *)
  let rows := (λ r, (r.1, count_distinct r.2)) <$> group_by rows in
  (* OPTIONAL MATCH (a:Account {name: $account_name})-[:Follows]->(poster:Account)-[:Posts]->(p2:Post)
     WHERE p = p2 *)
  let rows :=
    r ← rows;
    (λ p2, (r, p2)) <$>
      optional (a ← match_account g account_name;
                poster ← out_follows g a;
                p2 ← out_posts g poster;
                if bool_decide (r.1 = p2) then [p2] else []) in
  (* WITH p, followed_likes, count(p2) > 0 AS from_followed *)
  let rows :=
    (λ r, (r.1.1, r.1.2, bool_decide (0 < count r.2)%nat)) <$> group_by rows in
  (* WITH p, followed_likes, from_followed,
          CASE WHEN from_followed THEN 1.5 ELSE 1 END * followed_likes
            AS recommendation_score *)
  let rows :=
    (λ '(p, followed_likes, from_followed),
       (p, ((if from_followed : bool then 3 # 2 else 1) * of_nat followed_likes)%Q))
      <$> rows in
  (* RETURN p.post_id AS post_id, p.post_content AS content, recommendation_score
     ORDER BY recommendation_score DESC LIMIT $limit *)
  limit lim
    (order_by recommend_before
       ((λ '(p, score), {| rec_post_id := p; rec_content := content_of g p;
                           recommendation_score := score |}) <$> rows)).

(** *** The store seen through [execute_query]

    A round trip either fails in the driver, as scheduled by [pending]
    (an exhausted schedule means no more failures), or runs the query as
    one transaction on the graph. *)

Inductive level := INFO | WARNING.

Record World := {
  graph : Graph;
  pending : list (option exn);
  log : list (level * string)
}.

Definition M (A : Type) : Type := World → result A * World.

Definition ret {A} (a : A) : M A := λ w, (Ok a, w).

Definition bind {A B} (m : M A) (f : A → M B) : M B := λ w,
  match m w with
  | (Ok a, w') => f a w'
  | (Raise e, w') => (Raise e, w')
  end.

(** try: m except Exception as e: handler(e) *)
Definition try_except {A} (m : M A) (handler : exn → M A) : M A := λ w,
  match m w with
  | (Ok a, w') => (Ok a, w')
  | (Raise e, w') => handler e w'
  end.

Definition logger (lv : level) (msg : string) : M unit := λ w,
  (Ok tt, {| graph := graph w; pending := pending w;
             log := (log w ++ [(lv, msg)])%list |}).

Definition execute_query {R} (query : Graph → result (Graph * list R))
    : M (list R) := λ w,
  let w' g := {| graph := g; pending := tail (pending w); log := log w |} in
  match pending w with
  | Some e :: _ => (Raise e, w' (graph w))
  | _ =>
      match query (graph w) with
      | Ok (g, rows) => (Ok rows, w' g)
      | Raise e => (Raise e, w' (graph w))
      end
  end.

Declare Scope world_scope.
Delimit Scope world_scope with world.
Notation "x <- m ; k" := (bind m (fun x => k))
  (at level 100, m at next level, k at level 200, right associativity) : world_scope.
Notation "m ;; k" := (bind m (fun _ => k))
  (at level 100, k at level 200, right associativity) : world_scope.

(** for i in range(n): body *)
Fixpoint for_range (n : nat) (body : M unit) : M unit :=
  match n with
  | O => ret tt
  | S n' => (body ;; for_range n' body)%world
  end.

(** *** The queries of [_custom_pagerank_implementation] *)

Record RankRow := { account : string; pagerank : option Q }.

Definition rank_before (r1 r2 : RankRow) : bool :=
  desc_nullable (pagerank r1) (pagerank r2).

(** MATCH (a:Account) SET a.pagerank = 1.0, a.prevPagerank = 0.0
    WITH count(a) AS nodes RETURN nodes *)
Definition init_query (g : Graph) : result (Graph * list nat) :=
  let rows := match_accounts g in
  let g' :=
    foldl (λ g a, set_prop a "prevPagerank" (Some 0%Q)
                    (set_prop a "pagerank" (Some 1%Q) g)) g rows in
  Ok (g', [length rows]).

(** MATCH (a:Account) SET a.prevPagerank = a.pagerank *)
Definition update_prev_query (g : Graph) : result (Graph * list unit) :=
  let rows := match_accounts g in
  Ok (foldl (λ g a, set_prop a "prevPagerank" (node_prop g a "pagerank") g) g rows,
      []).

Definition iteration_query (damping : Q) (g : Graph) : result (Graph * list unit) :=
  let base_score := (1 - damping)%Q in
  (* MATCH (a:Account)
     OPTIONAL MATCH (a)<-[:Follows]-(follower:Account) *)
  let rows :=
    a ← match_accounts g;
    (λ follower, ((a, base_score), follower)) <$> optional (in_follows g a) in
  (* WITH a, COLLECT(follower) AS followers, {1 - damping} AS base_score *)
  let rows := (λ r, (r.1, collect r.2)) <$> group_by rows in
  (* UNWIND followers AS f *)
  let rows := unwind rows in
  (* OPTIONAL MATCH (f)-[:Follows]->(outlinks) *)
  let rows :=
    r ← rows;
    (λ outlinks, ((r.1.1, r.2, r.1.2), outlinks)) <$> optional (out_follows g r.2) in
  (* WITH a, f, base_score, COUNT(outlinks) AS outlinks_count *)
  let rows := (λ r, (r.1, count r.2)) <$> group_by rows in
  (* WITH a, base_score,
          SUM(CASE WHEN outlinks_count > 0 THEN f.prevPagerank / outlinks_count
                   ELSE 0 END) AS incoming_score *)
  let rows :=
    (λ '((a, f, base), outlinks_count),
       ((a, base),
        if (0 <? outlinks_count)%nat
        then (λ v, v / of_nat outlinks_count)%Q <$> node_prop g f "prevPagerank"
        else Some 0%Q)) <$> rows in
  let rows := (λ r, (r.1, sum r.2)) <$> group_by rows in
  (* SET a.pagerank = base_score + {damping} * incoming_score *)
  Ok (foldl (λ g '((a, base), incoming_score),
               set_prop a "pagerank" (Some (base + damping * incoming_score)%Q) g)
            g rows,
      []).

(** MATCH (a:Account) RETURN a.name AS account, a.pagerank AS pagerank
    ORDER BY pagerank DESC *)
Definition result_query (g : Graph) : result (Graph * list RankRow) :=
  let rows :=
    (λ a, {| account := a; pagerank := node_prop g a "pagerank" |})
      <$> match_accounts g in
  Ok (g, order_by rank_before rows).

(** MATCH (a:Account) REMOVE a.pagerank, a.prevPagerank *)
Definition cleanup_query (g : Graph) : result (Graph * list unit) :=
  let rows := match_accounts g in
  Ok (foldl (λ g a, set_prop a "prevPagerank" None (set_prop a "pagerank" None g))
            g rows,
      []).

Local Open Scope world_scope.

Definition _custom_pagerank_implementation (iterations : nat) (damping : Q)
    : M (list RankRow) :=
  result <- execute_query init_query;
  let total_nodes := match result with nodes :: _ => nodes | [] => 0%nat end in
  if (total_nodes =? 0)%nat then ret []
  else
    for_range iterations
      (execute_query update_prev_query ;;
       execute_query (iteration_query damping) ;;
       ret tt) ;;
    results <- execute_query result_query;
    execute_query cleanup_query ;;
    ret results.

Section NativeRanking.
(** The Graph Data Science procedures behind the first query of
    [calculate_pagerank] belong to the store; [gds iterations damping]
    is whatever they do, including failing when absent. *)
Variable gds : nat → Q → Graph → result (Graph * list RankRow).

Definition str (e : exn) : string :=
  match e with
  | ValueError => "ValueError"
  | IndexError => "IndexError"
  | StoreUnavailable => "StoreUnavailable"
  | QueryError => "QueryError"
  | ArithmeticError => "ArithmeticError"
  end.

Definition calculate_pagerank (iterations : nat) (damping : Q)
    : M (list RankRow) :=
  try_except
    (execute_query (gds iterations damping))
    (λ e,
       logger WARNING ("PageRank calculation using GDS library failed: " ++ str e) ;;
       logger INFO "Using custom PageRank implementation" ;;
       _custom_pagerank_implementation iterations damping).
End NativeRanking.

End Analytics.

(** ** Vocabulary of the specification *)

Module Spec.
Import Cypher Store Analytics.


(** The set F of accounts that [a] follows. *)
Definition follow_set (g : Graph) (a : string) : gset string :=
  list_to_set (out_follows g a).

(** descending by score, then by common follows *)
Definition similar_desc (r1 r2 : SimilarRow) : Prop :=
  (similarity_score r2 < similarity_score r1)%Q ∨
  ((similarity_score r1 == similarity_score r2)%Q ∧
   (common_follows r2 ≤ common_follows r1)%nat).

(** What another account follows, as the second MATCH of
    [find_similar_accounts] sees it. *)
Definition other_follows (g : Graph) (a other : string) : list string :=
  if bool_decide (other ≠ a) then out_follows g other else [].

Definition similar_row (g : Graph) (a other : string) : SimilarRow :=
  let common :=
    length (filter (λ x, x ∈ out_follows g a) (other_follows g a other)) in
  {| similar_account := other; common_follows := common;
     similarity_score := (of_nat common / of_nat (length (out_follows g a)))%Q |}.

(** The rows of [find_similar_accounts] before ORDER BY and LIMIT. *)
Definition similar_candidates (g : Graph) (a : string) : list SimilarRow :=
  filter (λ r, Qgtb (similarity_score r) 0)
    (similar_row g a <$>
       filter (λ o, other_follows g a o ≠ []) (match_accounts g)).

(** The first MATCH ... WHERE of [recommend_posts]. *)
Definition liked_rows (g : Graph) (account_name : string) : list (string * string) :=
  a ← match_account g account_name;
  followed ← out_follows g a;
  p ← out_likes g followed;
  if bool_decide (p ∉ out_likes g a) then [(p, followed)] else [].

(** The OPTIONAL MATCH ... WHERE of [recommend_posts] for the post [p]. *)
Definition authored_rows (g : Graph) (account_name p : string) : list string :=
  a ← match_account g account_name;
  poster ← out_follows g a;
  p2 ← out_posts g poster;
  if bool_decide (p = p2) then [p2] else [].

Definition recommend_desc (r1 r2 : PostRow) : Prop :=
  (recommendation_score r2 <= recommendation_score r1)%Q.

(** A row of [recommend_posts] for the post [r.1] with [r.2] likers. *)
Definition recommend_row (g : Graph) (a : string) (r : string * nat) : PostRow :=
  {| rec_post_id := r.1; rec_content := content_of g r.1;
     recommendation_score :=
       ((if bool_decide (0 < length (authored_rows g a r.1))%nat
         then 3 # 2 else 1) * of_nat r.2)%Q |}.

(** The update that SET and REMOVE make to one account record. *)
Definition write_at (a key : string) (v : option Q) (acc : Account) : Account :=
  if bool_decide (name acc = a) then write_prop key v acc else acc.

Definition has_rank (q : Q) (acc : Account) : Prop := props acc !! "pagerank" = Some q.
Definition no_rank_state (acc : Account) : Prop :=
  props acc !! "pagerank" = None ∧ props acc !! "prevPagerank" = None.

Definition no_faults (w : World) : Prop := pending w = [].

(** What the rounds keep true on a graph without Follows edges. *)
Definition settled (names : list string) (w : World) : Prop :=
  no_faults w ∧ Forall (has_rank 1) (accounts (graph w)) ∧
  match_accounts (graph w) = names ∧ follows (graph w) = [].

End Spec.

(** ** Example stores *)

Module Examples.
Import Store Analytics.
Definition acct (n : string) : Account := {| name := n; props := ∅ |}.

(** [a] follows [x] and [y]; [o1] shares one of them, [o2] both. *)
Definition similar_graph : Graph :=
  {| accounts := acct <$> ["a"; "x"; "y"; "o1"; "o2"; "o3"];
     posts := [];
     follows := [("a", "x"); ("a", "y"); ("o1", "x"); ("o2", "x");
                 ("o2", "y"); ("o3", "a")];
     likes := []; authored := [] |}.

(** One account, nobody follows anybody. *)
Definition lonely_graph : Graph :=
  {| accounts := [acct "A"]; posts := []; follows := []; likes := [];
     authored := [] |}.

(** The scenario of the specification: B follows A, C follows A and B. *)
Definition abc_graph : Graph :=
  {| accounts := acct <$> ["A"; "B"; "C"]; posts := [];
     follows := [("B", "A"); ("C", "A"); ("C", "B")]; likes := [];
     authored := [] |}.

(** A store that answers every round trip. *)
Definition calm (g : Graph) : World := {| graph := g; pending := []; log := [] |}.

(** A store without the Graph Data Science procedures. *)
Definition no_gds (iterations : nat) (damping : Q) (g : Graph)
    : result (Graph * list RankRow) := Raise QueryError.

(** A store on which the final read of the ranking fails. *)
Definition read_fails : World :=
  {| graph := lonely_graph;
     pending := [None; None; None; Some StoreUnavailable];
     log := [] |}.

End Examples.

(** ** [Neo4jGraphManager]: accounts, follows, posts and likes

    Relationships carry no properties here: the [since] and [timestamp]
    values that MERGE and CREATE set are not part of the model. *)

Module Manager.
Import Cypher Store Analytics.

Definition with_follows (l : list (string * string)) (g : Graph) : Graph :=
  {| accounts := accounts g; posts := posts g; follows := l;
     likes := likes g; authored := authored g |}.

Definition with_likes (l : list (string * string)) (g : Graph) : Graph :=
  {| accounts := accounts g; posts := posts g; follows := follows g;
     likes := l; authored := authored g |}.

(** CREATE (p:Post {...}) CREATE (a)-[:Posts]->(p) *)
Definition with_post (a : string) (p : Post) (g : Graph) : Graph :=
  {| accounts := accounts g; posts := (posts g ++ [p])%list;
     follows := follows g; likes := likes g;
     authored := (authored g ++ [(a, post_id p)])%list |}.

(** MERGE (a)-[r]->(b): the relationship is created unless there is one. *)
Definition merge_edge (e : string * string) (l : list (string * string))
    : list (string * string) :=
  if bool_decide (e ∈ l) then l else (l ++ [e])%list.

(** MATCH (p:Post {post_id: $post_id}) *)
Definition match_posts (g : Graph) : list string := post_id <$> posts g.
Definition match_post (g : Graph) (id : string) : list string :=
  filter (λ p, p = id) (match_posts g).

(** [result[0] if result else {}]: [None] stands for the empty dict. *)
Definition first_row {R} (result : list R) : option R := head result.

Local Open Scope world_scope.

(** *** add_account, called without [properties]

    CREATE (a:Account $properties) RETURN a, under the constraint
    account_name_unique of [_ensure_constraints]. *)
Definition add_account_query (name : string) (g : Graph)
    : result (Graph * list string) :=
  if bool_decide (name ∈ match_accounts g) then Raise QueryError
  else Ok (with_accounts (accounts g ++ [{| Store.name := name; props := ∅ |}])%list g,
           [name]).

Definition add_account (name : string) : M (option string) :=
  result <- execute_query (add_account_query name);
  ret (first_row result).

(** *** follow_account *)
Definition follow_query (follower_name followee_name : string) (g : Graph)
    : result (Graph * list (string * string)) :=
  (* MATCH (follower:Account {name: $follower_name})
     MATCH (followee:Account {name: $followee_name})
     WHERE follower <> followee *)
  let rows :=
    follower ← match_account g follower_name;
    followee ← match_account g followee_name;
    if bool_decide (follower ≠ followee) then [(follower, followee)] else [] in
  (* MERGE (follower)-[r:Follows]->(followee)
     ON CREATE SET r.since = datetime() *)
  let g' := foldl (λ g r, with_follows (merge_edge r (follows g)) g) g rows in
  (* RETURN follower, followee, r *)
  Ok (g', rows).

Definition follow_account (follower_name followee_name : string)
    : M (option (string * string)) :=
  result <- execute_query (follow_query follower_name followee_name);
  ret (first_row result).

(** *** unfollow_account *)
Definition unfollow_query (follower_name followee_name : string) (g : Graph)
    : result (Graph * list bool) :=
  (* MATCH (follower:Account {name: $follower_name})-[r:Follows]->
           (followee:Account {name: $followee_name}) *)
  let rows :=
    follower ← match_account g follower_name;
    followee ← match_account g followee_name;
    filter (λ r, r = (follower, followee)) (follows g) in
  (* DELETE r *)
  let g' := with_follows (filter (λ r, r ∉ rows) (follows g)) g in
  (* RETURN count(r) > 0 AS relationship_deleted *)
  Ok (g', [bool_decide (0 < length rows)%nat]).

(** [result[0] if result else {"relationship_deleted": False}], reduced to
    the flag. *)
Definition unfollow_account (follower_name followee_name : string) : M bool :=
  result <- execute_query (unfollow_query follower_name followee_name);
  ret (default false (head result)).

(** *** add_post

    The module never imports [uuid], so the default [post_id] cannot be
    made: [uuid.uuid4()] raises NameError before the store is reached. *)
Inductive raised :=
| NameError (name : string)
| StoreError (e : exn).

Fixpoint create_posts (rows : list string) (p : Post) (g : Graph) : result Graph :=
  match rows with
  | [] => Ok g
  | a :: rows' =>
      (* the constraint post_id_unique *)
      if bool_decide (post_id p ∈ match_posts g) then Raise QueryError
      else create_posts rows' p (with_post a p g)
  end.

Definition add_post_query (account_name post_id post_content : string) (g : Graph)
    : result (Graph * list (string * string)) :=
  (* MATCH (a:Account {name: $account_name}) *)
  let rows := match_account g account_name in
  (* CREATE (p:Post {post_id: $post_id, post_content: $post_content,
                     timestamp: datetime()})
     CREATE (a)-[r:Posts]->(p) *)
  let* g' :=
    create_posts rows {| Store.post_id := post_id; Store.post_content := post_content |} g in
  (* RETURN a, p, r *)
  Ok (g', (λ a, (a, post_id)) <$> rows).

Definition add_post (account_name post_content : string) (post_id : option string)
    : World → (raised + option (string * string)) * World := λ w,
  match post_id with
  | None => (inl (NameError "uuid"), w)
  | Some id =>
      match execute_query (add_post_query account_name id post_content) w with
      | (Ok result, w') => (inr (first_row result), w')
      | (Raise e, w') => (inl (StoreError e), w')
      end
  end.

(** *** like_post and unlike_post *)
Definition like_query (account_name post_id : string) (g : Graph)
    : result (Graph * list (string * string)) :=
  (* MATCH (a:Account {name: $account_name})
     MATCH (p:Post {post_id: $post_id}) *)
  let rows :=
    a ← match_account g account_name;
    p ← match_post g post_id;
    [(a, p)] in
  (* MERGE (a)-[r:Likes]->(p) ON CREATE SET r.timestamp = datetime() *)
  let g' := foldl (λ g r, with_likes (merge_edge r (likes g)) g) g rows in
  (* RETURN a, p, r *)
  Ok (g', rows).

Definition like_post (account_name post_id : string)
    : M (option (string * string)) :=
  result <- execute_query (like_query account_name post_id);
  ret (first_row result).

Definition unlike_query (account_name post_id : string) (g : Graph)
    : result (Graph * list bool) :=
  (* MATCH (a:Account {name: $account_name})-[r:Likes]->(p:Post {post_id: $post_id}) *)
  let rows :=
    a ← match_account g account_name;
    p ← match_post g post_id;
    filter (λ r, r = (a, p)) (likes g) in
  (* DELETE r *)
  let g' := with_likes (filter (λ r, r ∉ rows) (likes g)) g in
  (* RETURN count(r) > 0 AS relationship_deleted *)
  Ok (g', [bool_decide (0 < length rows)%nat]).

Definition unlike_post (account_name post_id : string) : M bool :=
  result <- execute_query (unlike_query account_name post_id);
  ret (default false (head result)).

(** *** get_graph_statistics *)
Record Statistics := { node_count : nat; relationship_count : nat }.

Definition statistics_query (g : Graph) : result (Graph * list Statistics) :=
  (* MATCH (n:Account) WITH count(n) as nodes *)
  let rows := [length (match_accounts g)] in
  (* MATCH ()-[r:Follows]->() *)
  let rows := nodes ← rows; (λ r, (nodes, r)) <$> follows g in
  (* RETURN nodes as node_count, count(r) as relationship_count *)
  Ok (g, (λ r, {| node_count := r.1; relationship_count := length r.2 |})
           <$> group_by rows).

Definition get_graph_statistics : M (list Statistics) :=
  execute_query statistics_query.

(** *** get_connected_accounts *)
Definition connected_query (account_name : string) (g : Graph)
    : result (Graph * list string) :=
  (* MATCH (n:Account {name: $account_name})-[:Follows]->(m:Account)
     RETURN m.name AS connected_account *)
  Ok (g, n ← match_account g account_name; out_follows g n).

Definition get_connected_accounts (account_name : string) : M (list string) :=
  execute_query (connected_query account_name).

(** *** get_common_connections

    The two relationships of one MATCH pattern are never the same
    relationship; a relationship is known by its place in [follows]. *)
Definition numbered_follows (g : Graph) : list (nat * (string * string)) :=
  imap (λ i r, (i, r)) (follows g).

(** (a)-[:Follows]->(m)<-[:Follows]-(b), for the nodes [a] and [b] *)
Definition common_rows (g : Graph) (a b : string) : list string :=
  r1 ← filter (λ r, r.2.1 = a) (numbered_follows g);
  r2 ← filter (λ r, r.2.1 = b ∧ r.2.2 = r1.2.2 ∧ r.1 ≠ r1.1) (numbered_follows g);
  [r1.2.2].

Definition common_query (account1 account2 : string) (g : Graph)
    : result (Graph * list string) :=
  (* MATCH (a:Account {name: $account1})-[:Follows]->(m:Account)
           <-[:Follows]-(b:Account {name: $account2})
     RETURN m.name AS common_connection *)
  Ok (g,
      a ← match_account g account1;
      b ← match_account g account2;
      common_rows g a b).

Definition get_common_connections (account1 account2 : string) : M (list string) :=
  execute_query (common_query account1 account2).

(** Both accounts exist and differ: what [follow_account] asks for. *)
Definition can_follow (g : Graph) (a b : string) : Prop :=
  a ∈ match_accounts g ∧ b ∈ match_accounts g ∧ a ≠ b.

(** *** The constraints of the store *)

(** Besides [wf_graph]: post ids are unique, a like joins an existing
    account and an existing post at most once, and every post has exactly
    one Posts relationship, from an existing account. *)
Record wf_store (g : Graph) : Prop := {
  wf_social : wf_graph g;
  wf_posts : NoDup (match_posts g);
  wf_likes : NoDup (likes g);
  wf_likes_ends : ∀ e, e ∈ likes g → e.1 ∈ match_accounts g ∧ e.2 ∈ match_posts g;
  wf_authors : ∀ e, e ∈ authored g → e.1 ∈ match_accounts g;
  wf_authored : (authored g).*2 = match_posts g
}.

End Manager.

(** A store with posts: [a] follows [b] and [c], who wrote [p1] and [p2]. *)
Module Scenes.
Import Store Examples.

Definition post_graph : Graph :=
  {| accounts := acct <$> ["a"; "b"; "c"];
     posts := [{| post_id := "p1"; post_content := "hello" |};
               {| post_id := "p2"; post_content := "world" |}];
     follows := [("a", "b"); ("a", "c")];
     likes := [("b", "p1"); ("b", "p2"); ("c", "p2")];
     authored := [("b", "p1"); ("c", "p2")] |}.

(** The same store when the second round trip from now fails. *)
Definition second_fails : Analytics.World :=
  {| Analytics.graph := post_graph;
     Analytics.pending := [None; Some StoreUnavailable];
     Analytics.log := [] |}.

(** A store that answers six round trips, on the scenario of the
    specification. *)
Definition six_answers : Analytics.World :=
  {| Analytics.graph := abc_graph;
     Analytics.pending := [None; None; None; None; None; None];
     Analytics.log := [] |}.

End Scenes.

(** ** Vocabulary for the protocol of the ranking *)

Module Laws.
Import Cypher Store Analytics Spec.

(** [m] keeps [P] true of the graph, whatever its outcome. *)
Definition keeps {A} (P : Graph → Prop) (m : M A) : Prop :=
  ∀ w, P (graph w) → P (graph (m w).2).

(** [g'] is [g] except for the properties [keys] of its accounts. *)
Definition touches_only (keys : list string) (g g' : Graph) : Prop :=
  posts g' = posts g ∧ follows g' = follows g ∧ likes g' = likes g ∧
  authored g' = authored g ∧
  Forall2 (λ acc acc', name acc' = name acc ∧
                       ∀ k, k ∉ keys → props acc' !! k = props acc !! k)
    (accounts g) (accounts g').

Definition rank_keys : list string := ["pagerank"; "prevPagerank"].

(** The account without the two properties of the ranking. *)
Definition erase_rank (acc : Account) : Account :=
  {| name := name acc;
     props := delete "prevPagerank" (delete "pagerank" (props acc)) |}.

(** Both scores are there, and the first is not below the second. *)
Definition rank_desc (r1 r2 : RankRow) : Prop :=
  ∃ q1 q2, pagerank r1 = Some q1 ∧ pagerank r2 = Some q2 ∧ (q2 <= q1)%Q.

(** A run of [m] that returns has made [n] round trips, all answered, and
    has logged nothing. *)
Definition costs {A} (n : nat) (m : M A) : Prop :=
  ∀ w a w', m w = (Ok a, w') →
    pending w' = drop n (pending w) ∧
    Forall (λ f, f = None) (take n (pending w)) ∧
    log w' = log w.

(** What a run that stops half-way leaves on an account: both
    properties of the ranking. *)
Definition rank_state_left (acc : Account) : Prop :=
  is_Some (props acc !! "pagerank") ∧ is_Some (props acc !! "prevPagerank").

(** The state between the queries of a run on the graph [g0]: every
    account is scored, and an account that nobody follows has the score
    of the first query. *)
Definition scored (g0 : Graph) (acc : Account) : Prop :=
  is_Some (props acc !! "pagerank") ∧
  (in_follows g0 (name acc) = [] → has_rank 1 acc).

Definition ranking (g0 : Graph) (g : Graph) : Prop :=
  match_accounts g = match_accounts g0 ∧ follows g = follows g0 ∧
  Forall (scored g0) (accounts g).

(** The scores of an account are within bounds: pagerank is there and at
    least [lo], prevPagerank is not negative. *)
Definition in_range (lo : Q) (acc : Account) : Prop :=
  (∃ p, props acc !! "pagerank" = Some p ∧ (lo <= p)%Q) ∧
  (∀ q, props acc !! "prevPagerank" = Some q → (0 <= q)%Q).

(** The rows of [iteration_query] after UNWIND: an account, the base
    score and one of its followers. *)
Definition follower_rows (base_score : Q) (g : Graph)
    : list ((string * Q) * string) :=
  unwind ((λ r, (r.1, collect r.2)) <$>
            group_by (a ← match_accounts g;
                      (λ follower, ((a, base_score), follower))
                        <$> optional (in_follows g a))).

(** The rows of [iteration_query] before SET: an account, the base score
    and the incoming score. *)
Definition incoming_rows (damping : Q) (g : Graph) : list ((string * Q) * Q) :=
  let rows :=
    r ← follower_rows (1 - damping) g;
    (λ outlinks, ((r.1.1, r.2, r.1.2), outlinks)) <$> optional (out_follows g r.2) in
  let rows := (λ r, (r.1, count r.2)) <$> group_by rows in
  let rows :=
    (λ '((a, f, base), outlinks_count),
       ((a, base),
        if (0 <? outlinks_count)%nat
        then (λ v, v / of_nat outlinks_count)%Q <$> node_prop g f "prevPagerank"
        else Some 0%Q)) <$> rows in
  (λ r, (r.1, sum r.2)) <$> group_by rows.

(** SET a.pagerank = base_score + {damping} * incoming_score *)
Definition set_rank (damping : Q) (g : Graph) (r : (string * Q) * Q) : Graph :=
  let '((a, base), incoming_score) := r in
  set_prop a "pagerank" (Some (base + damping * incoming_score)%Q) g.

(** One round of the loop. *)
Definition round (damping : Q) : M unit :=
  (execute_query update_prev_query ;;
   execute_query (iteration_query damping) ;;
   ret tt)%world.

End Laws.

(** ** Vocabulary for the loop of the parser *)

Module ProfileLaws.
Import Re Profile.

(** The rows count that one operator block carries, if any. *)
Definition block_rows (block : string) : option Z :=
  match re_search rows_pat block with
  | Some rows_match =>
      match int_group rows_match 1 with
      | Ok v => Some v
      | Raise _ => None
      end
  | None => None
  end.

(** [c] is not the plus sign that starts an operator block. *)
Definition not_plus : cclass := λ c, negb (Ascii.eqb c "+").

(** What the loop keeps true of the dictionary and the operator list. *)
Record totals (st : Metrics * list Operator) : Prop := {
  totals_db_hits : db_hits st.1 = foldr Z.add 0 (op_db_hits <$> st.2);
  totals_elapsed : elapsed_time_ms st.1 = foldr Z.max 0 (op_elapsed_ms <$> st.2);
  totals_indexes : NoDup (indexes_used st.1);
  totals_indexes_length : (length (indexes_used st.1) ≤ length st.2)%nat;
  totals_rows : 0 ≤ rows st.1;
  totals_operators :
    Forall (λ op, all_chars is_alpha (op_name op) = true ∧ 0 ≤ op_db_hits op ∧
                  0 ≤ op_rows op ∧ 0 ≤ op_elapsed_ms op) st.2
}.

End ProfileLaws.

(** * Properties *)

(** ** Soundness of the matcher *)

Module ReFacts.
Import Re.

Lemma orelse_Some {A} (x y : option A) a :
  orelse x y = Some a → x = Some a ∨ y = Some a.
Proof. destruct x; simpl; auto. Qed.

Lemma rmatch_sound r : ∀ s cs k a,
  rmatch r s cs k = Some a →
  ∃ s' cs', matches r s cs s' cs' ∧ k s' cs' = Some a.
Proof.
  induction r as [|p|r1 IH1 r2 IH2|r1 IH1 r2 IH2|g r IH|i r IH|r IH|];
    intros s cs k a H; simpl in H.
  - eauto using matches.
  - destruct s as [|c s]; [done|]. destruct (p c) eqn:Hp; [|done].
    eauto using matches.
  - apply IH1 in H as (s1 & cs1 & H1 & H). apply IH2 in H as (s2 & cs2 & H2 & H).
    eauto using matches.
  - apply orelse_Some in H as [H|H]; [apply IH1 in H|apply IH2 in H];
      destruct H as (s' & cs' & ? & ?); eauto using matches.
  - revert H. generalize (String.length s). intros n. revert s cs.
    induction n as [|n IHn]; intros s cs H; simpl in H.
    + eauto using matches.
    + assert (Hk : k s cs = Some a →
        ∃ s' cs', matches (Star g r) s cs s' cs' ∧ k s' cs' = Some a)
        by eauto using matches.
      assert (Hm : ∀ x, x = Some a →
        x = rmatch r s cs (λ s' cs',
              if (String.length s' <? String.length s)%nat
              then star_loop (rmatch r) g k n s' cs' else None) →
        ∃ s' cs', matches (Star g r) s cs s' cs' ∧ k s' cs' = Some a).
      { intros x -> Hr. symmetry in Hr. apply IH in Hr as (s1 & cs1 & H1 & Hr).
        destruct (String.length s1 <? String.length s)%nat; [|done].
        apply IHn in Hr as (s2 & cs2 & H2 & Hr). eauto using matches. }
      destruct g; apply orelse_Some in H as [H|H]; eauto.
  - apply IH in H as (s' & cs' & H1 & H). eauto using matches.
  - destruct (rmatch r s cs _) as [[s1 cs1]|] eqn:Hr; [|done].
    apply IH in Hr as (s' & cs' & H1 & Hr). simplify_eq. eauto using matches.
  - destruct s as [|c [|c' s]]; [| |done].
    + eexists _, _; split; [apply M_Eos; by left|done].
    + destruct (Ascii.eqb_spec c "010"); [|done]. subst.
      eexists _, _; split; [apply M_Eos; by right|done].
Qed.

Lemma re_match_sound r s m :
  re_match r s = Some m → matches r s [] (m_rest m) (m_caps m).
Proof.
  unfold re_match. intros H.
  destruct (rmatch r s [] _) as [[s' cs']|] eqn:Hr; [|done].
  apply rmatch_sound in Hr as (s1 & cs1 & Hm & ?). by simplify_eq.
Qed.

Lemma re_search_sound r s m :
  re_search r s = Some m → ∃ s0, matches r s0 [] (m_rest m) (m_caps m).
Proof.
  induction s as [|c s IH]; simpl; intros H.
  - destruct (re_match r "") as [m'|] eqn:Hm; [|done].
    simplify_eq. eauto using re_match_sound.
  - destruct (re_match r (String c s)) as [m'|] eqn:Hm; [|by auto].
    simplify_eq. eauto using re_match_sound.
Qed.

Lemma matches_nogroups r s cs s' cs' :
  matches r s cs s' cs' → nogroups r = true → cs' = cs.
Proof.
  induction 1; simpl; intros Hn; try done;
    try (apply andb_true_iff in Hn as [? ?]); auto.
  - rewrite IHmatches2, IHmatches1; done.
  - rewrite IHmatches2, IHmatches1; done.
Qed.

Lemma sapp_assoc (s1 s2 s3 : string) : (s1 ++ s2) ++ s3 = s1 ++ s2 ++ s3.
Proof. induction s1; simpl; congruence. Qed.


Lemma slength_app (s1 s2 : string) :
  String.length (s1 ++ s2) = (String.length s1 + String.length s2)%nat.
Proof. induction s1; simpl; congruence. Qed.

Lemma consumed_app (pre s' : string) : consumed (pre ++ s') s' = pre.
Proof.
  unfold consumed. rewrite slength_app.
  replace (String.length pre + String.length s' - String.length s')%nat
    with (String.length pre) by lia.
  induction pre as [|c pre IH]; simpl.
  - by destruct s'.
  - by rewrite IH.
Qed.

Lemma matches_seq_inv r1 r2 s cs s2 cs2 :
  matches (Seq r1 r2) s cs s2 cs2 →
  ∃ s1 cs1, matches r1 s cs s1 cs1 ∧ matches r2 s1 cs1 s2 cs2.
Proof. inversion 1; eauto. Qed.

Lemma matches_group_inv i r s cs s' cs' :
  matches (Group i r) s cs s' cs' →
  ∃ cs0, matches r s cs s' cs0 ∧ cs' = (i, consumed s s') :: cs0.
Proof. inversion 1; eauto. Qed.

Lemma matches_chr_inv (p : cclass) s cs s' cs' :
  matches (Chr p) s cs s' cs' → ∃ c, s = String c s' ∧ p c = true ∧ cs' = cs.
Proof. inversion 1; eauto. Qed.

(** What a starred or plussed character class consumes. *)
Lemma matches_star_chr g p s cs s' cs' :
  matches (Star g (Chr p)) s cs s' cs' →
  cs' = cs ∧ ∃ pre, s = pre ++ s' ∧ all_chars p pre = true.
Proof.
  intros H. remember (Star g (Chr p)) as r eqn:Hr.
  induction H; try discriminate; simplify_eq.
  - split; [done|]. by exists "".
  - apply matches_chr_inv in H as (c & -> & Hc & ->).
    destruct IHmatches2 as [-> (pre & -> & Hall)]; [done|].
    split; [done|]. exists (String c pre). simpl. by rewrite Hc, Hall.
Qed.

Lemma matches_plus_chr g p s cs s' cs' :
  matches (Plus g (Chr p)) s cs s' cs' →
  cs' = cs ∧ ∃ pre, s = pre ++ s' ∧ pre ≠ "" ∧ all_chars p pre = true.
Proof.
  unfold Plus. intros H.
  apply matches_seq_inv in H as (s1 & cs1 & H1 & H2).
  apply matches_chr_inv in H1 as (c & -> & Hc & ->).
  apply matches_star_chr in H2 as [-> (pre & -> & Hall)].
  split; [done|]. exists (String c pre). simpl. by rewrite Hc, Hall.
Qed.

(** Matching depends on the continuation only through its results. *)
Lemma star_loop_ext m g (k1 k2 : cont) :
  (∀ s cs (j1 j2 : cont), (∀ s' cs', j1 s' cs' = j2 s' cs') → m s cs j1 = m s cs j2) →
  (∀ s' cs', k1 s' cs' = k2 s' cs') →
  ∀ n s cs, star_loop m g k1 n s cs = star_loop m g k2 n s cs.
Proof.
  intros Hm Hk. induction n as [|n IH]; intros s cs; simpl; [done|].
  rewrite Hk. erewrite Hm; [done|].
  intros s' cs'. simpl. by rewrite IH.
Qed.

Lemma rmatch_ext r : ∀ s cs (k1 k2 : cont),
  (∀ s' cs', k1 s' cs' = k2 s' cs') → rmatch r s cs k1 = rmatch r s cs k2.
Proof.
  induction r as [|p|r1 IH1 r2 IH2|r1 IH1 r2 IH2|g r IH|i r IH|r IH|];
    intros s cs k1 k2 Hk; simpl.
  - done.
  - destruct s; [done|]. by rewrite Hk.
  - apply IH1. intros s' cs'. by apply IH2.
  - by rewrite (IH1 _ _ _ _ Hk), (IH2 _ _ _ _ Hk).
  - by apply star_loop_ext.
  - apply IH. intros s' cs'. apply Hk.
  - destruct (rmatch r s cs _) as [[? ?]|]; [apply Hk|done].
  - destruct s as [|c [|? ?]]; [apply Hk| |done]. by rewrite Hk.
Qed.

(** A continuation that always fails makes the match fail. *)
Lemma rmatch_fail r : ∀ s cs (k : cont),
  (∀ s' cs', k s' cs' = None) → rmatch r s cs k = None.
Proof.
  induction r as [|p|r1 IH1 r2 IH2|r1 IH1 r2 IH2|g r IH|i r IH|r IH|];
    intros s cs k Hk; simpl.
  - done.
  - destruct s; [done|]. rewrite Hk. by destruct (p _).
  - apply IH1. intros s' cs'. by apply IH2.
  - by rewrite IH1, IH2.
  - generalize (String.length s). intros n. revert s cs.
    induction n as [|n IHn]; intros s cs; simpl; [done|].
    rewrite Hk, IH; [by destruct g|].
    intros s' cs'. simpl. destruct (_ <? _)%nat; [apply IHn|done].
  - apply IH. intros s' cs'. apply Hk.
  - destruct (rmatch r s cs _) as [[? ?]|]; [apply Hk|done].
  - destruct s as [|c [|? ?]]; [apply Hk| |done].
    rewrite Hk. by destruct (Ascii.eqb _ _).
Qed.

(** The bound on the repetitions of a star is never the reason to stop:
    any bound from the length of the text on gives the same result. *)
Lemma star_loop_fuel r g (k : cont) n : ∀ s cs,
  (String.length s ≤ n)%nat →
  star_loop (rmatch r) g k n s cs =
  star_loop (rmatch r) g k (String.length s) s cs.
Proof.
  induction n as [n IH] using lt_wf_ind. intros s cs Hn.
  destruct n as [|n].
  { by replace (String.length s) with 0%nat by lia. }
  destruct (String.length s) as [|l] eqn:Hl; simpl.
  - rewrite rmatch_fail; [by destruct g, (k s cs)|].
    intros s' cs'. rewrite Hl. by destruct (String.length s').
  - erewrite rmatch_ext; [reflexivity|].
    intros s' cs'. simpl. rewrite Hl.
    destruct (String.length s' <? S l)%nat eqn:Hlt; [|done].
    apply Nat.ltb_lt in Hlt.
    rewrite (IH n), (IH l); [done|lia..].
Qed.

(** *** Where the captured text comes from *)





Lemma findall_from_sound r s : ∀ skip b,
  b ∈ findall_from r skip s →
  ∃ pre s0 m, s = pre ++ s0 ∧ re_match r s0 = Some m ∧
              b = default "" (lookup_group 1 (m_caps m)).
Proof.
  induction s as [|c s IH]; intros skip b; destruct skip as [|skip]; simpl.
  - destruct (re_match r "") as [m|] eqn:Hm; [|by intros ?%not_elem_of_nil].
    intros ->%list_elem_of_singleton. by exists "", "", m.
  - by intros ?%not_elem_of_nil.
  - assert (Hrest : ∀ k, b ∈ findall_from r k s →
      ∃ pre s0 m, String c s = pre ++ s0 ∧ re_match r s0 = Some m ∧
                  b = default "" (lookup_group 1 (m_caps m))).
    { intros k (pre & s0 & m & -> & ? & ?)%IH. by exists (String c pre), s0, m. }
    destruct (re_match r (String c s)) as [m|] eqn:Hm; [|apply Hrest].
    intros [->|Hb]%elem_of_cons; [by exists "", (String c s), m|by eapply Hrest].
  - intros (pre & s0 & m & -> & ? & ?)%IH. by exists (String c pre), s0, m.
Qed.


End ReFacts.

(** ** The profile parser *)

Module ProfileFacts.
Import Re ReFacts Profile.

(** The matcher on small texts. *)
Example greedy_then_lazy :
  findall block_pat "+--Scan (x)+Filter" = ["Scan (x)"; "Filter"].
Proof. reflexivity. Qed.

Example search_is_leftmost :
  (λ m, lookup_group 1 (m_caps m)) <$>
    re_search planning_pat "planning: x planning: 1.5 ms planning: 2.5 ms"
  = Some (Some "1.5").
Proof. reflexivity. Qed.

Example ignorecase_memory :
  (λ m, lookup_group 1 (m_caps m)) <$> re_search memory_pat "Memory [ 12.5 kb ]"
  = Some (Some "12.5 kb").
Proof. reflexivity. Qed.

Example index_in_parentheses :
  (λ m, lookup_group 2 (m_caps m)) <$>
    re_search index_pat "NodeIndexSeek on (a:Account) (idx)"
  = Some (Some "idx").
Proof. reflexivity. Qed.

Example dollar_before_final_newline :
  findall block_pat ("+A" ++ String "010" "") = ["A"].
Proof. reflexivity. Qed.

Lemma digits_val_ok s : ∀ acc,
  all_chars is_digit s = true → ∃ v, digits_val acc s = Ok v.
Proof.
  induction s as [|c s IH]; simpl; intros acc H; [by eauto|].
  apply andb_true_iff in H as [-> H]. eauto.
Qed.

Lemma py_digits_ok s :
  s ≠ "" → all_chars is_digit s = true → ∃ v, py_digits s = Ok v.
Proof. destruct s; [done|]. intros _. apply digits_val_ok. Qed.

Lemma matches_digits s cs s' cs' :
  matches digits s cs s' cs' → cs' = cs ∧ ∃ v, py_digits (consumed s s') = Ok v.
Proof.
  intros H. apply matches_plus_chr in H as [-> (pre & -> & Hne & Hall)].
  split; [done|]. rewrite consumed_app. by apply py_digits_ok.
Qed.

(** *** Runs of digits and the limit of [int] *)











Lemma split_dot_digits d1 d2 :
  all_chars is_digit d1 = true → split_dot (d1 ++ String "." d2) = Some (d1, d2).
Proof.
  induction d1 as [|c d1 IH]; simpl; [done|]. intros H.
  apply andb_true_iff in H as [Hc H]. rewrite (IH H).
  destruct (Ascii.eqb_spec c "."); [by subst|done].
Qed.

Lemma matches_decimal s cs s' cs' :
  matches decimal s cs s' cs' → cs' = cs ∧ ∃ q, py_float (consumed s s') = Ok q.
Proof.
  unfold decimal. intros H.
  apply matches_seq_inv in H as (s1 & cs1 & H1 & H).
  apply matches_seq_inv in H as (s2 & cs2 & H2 & H3).
  apply matches_plus_chr in H1 as [-> (d1 & -> & Hne1 & Hall1)].
  apply matches_plus_chr in H3 as [-> (d2 & -> & Hne2 & Hall2)].
  simpl in H2. apply matches_seq_inv in H2 as (s3 & cs3 & H2 & H4).
  apply matches_chr_inv in H2 as (c & -> & Hc & ->).
  inversion H4; subst. split; [done|].
  unfold is_char in Hc. apply Ascii.eqb_eq in Hc as ->.
  replace (d1 ++ String "." (d2 ++ s')) with ((d1 ++ String "." d2) ++ s')
    by (rewrite sapp_assoc; done).
  rewrite consumed_app. unfold py_float. rewrite split_dot_digits by done.
  destruct (py_digits_ok d1) as [v1 ->]; [done..|].
  destruct (py_digits_ok d2) as [v2 ->]; [done..|]. simpl. eauto.
Qed.

Lemma nogroups_lit ic s : nogroups (lit ic s) = true.
Proof. induction s; simpl; auto. Qed.

(** Take a successful match of a pattern apart, down to its groups. *)
Ltac open_pattern H :=
  repeat match goal with
  | H : matches (Seq _ _) _ _ _ _ |- _ =>
      apply matches_seq_inv in H as (? & ? & ? & ?)
  | H : matches (Group _ _) _ _ _ _ |- _ =>
      apply matches_group_inv in H as (? & ? & ?)
  | H : matches digits _ _ _ _ |- _ =>
      apply matches_digits in H as [? [? ?]]
  | H : matches decimal _ _ _ _ |- _ =>
      apply matches_decimal in H as [? [? ?]]
  | H : matches _ _ _ _ _ |- _ =>
      apply matches_nogroups in H;
      [|first [reflexivity | simpl; rewrite ?nogroups_lit; reflexivity]]
  end; subst.

Ltac found H :=
  apply re_search_sound in H as [? H];
  match type of H with
  | matches _ _ _ (m_rest ?m) (m_caps ?m) => destruct m as [? ?]; simpl in H
  end.

Lemma planning_pat_group s m :
  re_search planning_pat s = Some m → ∃ q, float_group m 1 = Ok q.
Proof.
  intros H. found H. unfold planning_pat in H. open_pattern H.
  unfold float_group, group. simpl. eauto.
Qed.

Lemma time_pat_digits s m :
  re_search time_pat s = Some m →
  (∃ g v, lookup_group 1 (m_caps m) = Some g ∧ py_digits g = Ok v) ∧
  ∃ q, float_group m 2 = Ok q.
Proof.
  intros H. found H. unfold time_pat in H. open_pattern H.
  unfold float_group, group. simpl.
  repeat match goal with H : py_float _ = Ok _ |- _ => rewrite H; clear H end.
  eauto 6.
Qed.


Lemma memory_pat_group s m :
  re_search memory_pat s = Some m → ∃ g, group m 1 = Ok g.
Proof.
  intros H. found H. unfold memory_pat in H. open_pattern H.
  unfold group. simpl. eauto.
Qed.


Lemma index_pat_group s m :
  re_search index_pat s = Some m → ∃ g, group m 2 = Ok g.
Proof.
  intros H. found H. unfold index_pat in H. open_pattern H.
  unfold group. simpl. eauto.
Qed.










Ltac search_step p lem :=
  let E := fresh "E" in
  destruct (re_search p _) as [?|] eqn:E;
  [destruct (lem _ _ E) as [? ->]|]; simpl.










(** Claim C3, as amended.  Parsing the report fragment of section 6 of the
    specification, with or without a final newline, yields
    total_db_hits = 0 and query_time_ms = 0 (the header pattern wants the
    line to start with "Cypher version:" and to count "total db hits"),
    planning_time_ms = 0.450 (9/20), memory_usage = "1.2 MB", db_hits = 842,
    rows = 50, elapsed_time_ms = 2, indexes_used = [] (an index name is
    taken from parentheses that follow "Index" or "NodeIndexSeek", and the
    fragment writes it in square brackets), cache_hits = 5 and
    cache_misses = 1. *)
Theorem parse_example_report :
  let parsed :=
    Ok {| db_hits := 842; rows := 50; elapsed_time_ms := 2;
          memory_usage := "1.2 MB";
          operators :=
            [{| op_name := "Operator"; op_db_hits := 210; op_rows := 50;
                op_elapsed_ms := 1 |};
             {| op_name := "Operator"; op_db_hits := 632; op_rows := 50;
                op_elapsed_ms := 2 |}];
          total_db_hits := 0; query_time_ms := 0;
          planning_time_ms := 9 # 20;
          indexes_used := []; cache_hits := 5; cache_misses := 1 |} in
  parse_profile_metrics example_report = parsed ∧
  parse_profile_metrics (example_report ++ nl) = parsed.
Proof. split; vm_compute; reflexivity. Qed.

(** Claim C3 as stated fails: no result of parsing the fragment has all ten
    values of the specification; total_db_hits is already 0, not 842. *)
Lemma parse_example_report_differs :
  ¬ ∃ m, parse_profile_metrics example_report = Ok m ∧
      total_db_hits m = 842 ∧ (query_time_ms m == 3.210)%Q ∧
      (planning_time_ms m == 0.450)%Q ∧ memory_usage m = "1.2 MB" ∧
      db_hits m = 842 ∧ rows m = 50 ∧ elapsed_time_ms m = 2 ∧
      indexes_used m = ["account_name_unique"] ∧
      cache_hits m = 5 ∧ cache_misses m = 1.
Proof.
  intros (m & Hm & Ht & _). vm_compute in Hm.
  injection Hm as <-. discriminate Ht.
Qed.

End ProfileFacts.

(** ** The Cypher clauses *)

Module CypherFacts.
Import Cypher.

Section OrderByFacts.
Context {A : Type} (before : A → A → bool).
Hypothesis before_total : ∀ x y, before x y = false → before y x = true.
Hypothesis before_trans :
  ∀ x y z, before x y = true → before y z = true → before x z = true.

Lemma insert_row_perm x l : insert_row before x l ≡ₚ x :: l.
Proof.
  induction l as [|y l IH]; simpl; [done|].
  destruct (before x y); [done|]. rewrite IH. apply Permutation_swap.
Qed.

Lemma order_by_perm l : order_by before l ≡ₚ l.
Proof.
  induction l as [|x l IH]; simpl; [done|].
  rewrite insert_row_perm. by f_equiv.
Qed.

Lemma elem_of_order_by x l : x ∈ order_by before l ↔ x ∈ l.
Proof. by rewrite order_by_perm. Qed.

Lemma insert_row_sorted x l :
  StronglySorted before l → StronglySorted before (insert_row before x l).
Proof.
  induction 1 as [|y l Hl IH Hy]; simpl.
  - repeat constructor.
  - destruct (before x y) eqn:Hxy.
    + constructor; [by constructor|]. constructor; [by rewrite Hxy|].
      eapply Forall_impl; [exact Hy|]. intros z Hyz.
      apply Is_true_true. eapply before_trans; [exact Hxy|by apply Is_true_true].
    + constructor; [done|].
      rewrite insert_row_perm. constructor; [|done].
      apply Is_true_true, before_total, Hxy.
Qed.

Lemma order_by_sorted l : StronglySorted before (order_by before l).
Proof.
  induction l as [|x l IH]; simpl; [constructor|]. by apply insert_row_sorted.
Qed.
End OrderByFacts.

Lemma StronglySorted_take {A} (R : relation A) n l :
  StronglySorted R l → StronglySorted R (take n l).
Proof.
  intros H. rewrite <- (take_drop n l) in H.
  by apply StronglySorted_app_1_l in H.
Qed.

Lemma elem_of_take_1 {A} (x : A) n l : x ∈ take n l → x ∈ l.
Proof. intros (i & Hi & _)%elem_of_take. by eapply list_elem_of_lookup_2. Qed.

Lemma StronglySorted_mono {A} (R1 R2 : relation A) l :
  (∀ x y, R1 x y → R2 x y) → StronglySorted R1 l → StronglySorted R2 l.
Proof.
  intros HR. induction 1 as [|x l Hl IH Hx]; constructor; [done|].
  eapply Forall_impl; [exact Hx|]. auto.
Qed.

Lemma bind_all_nil {A B} (f : A → list B) (l : list A) :
  (∀ x, x ∈ l → f x = []) → l ≫= f = [].
Proof.
  induction l as [|x l IH]; [done|]. intros H.
  rewrite bind_cons, (H x), IH; [done| |left]. intros y Hy. apply H. by right.
Qed.

Lemma filter_all {A} (P : A → Prop) `{∀ x, Decision (P x)} (l : list A) :
  (∀ x, x ∈ l → P x) → filter P l = l.
Proof.
  induction l as [|x l IH]; [done|]. intros HP.
  rewrite filter_cons_True by (apply HP; left).
  f_equal. apply IH. intros y Hy. apply HP. by right.
Qed.

Section GroupByFacts.
Context `{EqDecision K} {V : Type}.
Implicit Types (rows : list (K * V)) (k : K).

Lemma group_by_nil : group_by (@nil (K * V)) = [].
Proof. done. Qed.

Lemma elem_of_group_by rows k vs :
  (k, vs) ∈ group_by rows ↔
  k ∈ rows.*1 ∧ vs = (filter (λ r, r.1 = k) rows).*2.
Proof.
  unfold group_by. rewrite list_elem_of_fmap. split.
  - intros (k' & [= -> ->] & Hk). by rewrite elem_of_remove_dups in Hk.
  - intros [Hk ->]. exists k. by rewrite elem_of_remove_dups.
Qed.

Lemma fmap_fst_pair {X} (f : K → X) (l : list K) :
  ((λ k, (k, f k)) <$> l).*1 = l.
Proof. induction l; csimpl; congruence. Qed.

Lemma NoDup_group_by_keys rows : NoDup (group_by rows).*1.
Proof. unfold group_by. rewrite fmap_fst_pair. apply NoDup_remove_dups. Qed.

(** The rows of a group are never empty. *)
Lemma group_by_nonempty rows k vs : (k, vs) ∈ group_by rows → vs ≠ [].
Proof.
  intros [Hk ->]%elem_of_group_by.
  apply list_elem_of_fmap in Hk as ([k' v] & -> & Hr). simpl.
  intros Hnil. apply fmap_nil_inv in Hnil.
  assert (Hin : (k', v) ∈ filter (λ r : K * V, r.1 = k') rows)
    by by apply list_elem_of_filter.
  rewrite Hnil in Hin. by apply not_elem_of_nil in Hin.
Qed.

Lemma filter_key_fmap_eq k (l : list V) :
  filter (λ r : K * V, r.1 = k) ((λ v, (k, v)) <$> l) = (λ v, (k, v)) <$> l.
Proof.
  induction l as [|v l IH]; [done|].
  rewrite fmap_cons, filter_cons_True by done. by rewrite IH.
Qed.

Lemma filter_key_fmap_ne k k' (l : list V) :
  k ≠ k' → filter (λ r : K * V, r.1 = k) ((λ v, (k', v)) <$> l) = [].
Proof.
  intros Hne. induction l as [|v l IH]; [done|].
  rewrite fmap_cons, filter_cons_False; [done|]. simpl. congruence.
Qed.

Lemma remove_dups_run k (vs : list V) (l : list K) :
  k ∉ l →
  remove_dups (((λ v, (k, v)) <$> vs).*1 ++ l) =
  if decide (vs = []) then remove_dups l else k :: remove_dups l.
Proof.
  intros Hk. induction vs as [|v vs IH]; [done|]. csimpl.
  destruct (decide_rel _ _ _) as [Hin|Hnin].
  - rewrite IH. destruct vs; [|done]. by destruct Hk.
  - destruct vs as [|v' vs]; [done|]. destruct Hnin. csimpl. left.
Qed.

Section KeyedRuns.
Context {X : Type} (key : X → K) `{!Inj (=) (=) key} (vals : X → list V).

Lemma runs_keys xs k : k ∈ (runs key vals xs).*1 → ∃ x, x ∈ xs ∧ k = key x.
Proof.
  intros ([k' v] & -> & Hr)%list_elem_of_fmap.
  apply list_elem_of_bind in Hr as (x & Hv & Hx).
  apply list_elem_of_fmap in Hv as (? & [= -> ->] & _). eauto.
Qed.

Lemma filter_key_runs_notin xs x :
  x ∉ xs → filter (λ r : K * V, r.1 = key x) (runs key vals xs) = [].
Proof.
  induction xs as [|x' xs IH]; [done|].
  intros [Hne Hx]%not_elem_of_cons. unfold runs.
  rewrite bind_cons, filter_app, filter_key_fmap_ne; [by apply IH|].
  by intros ?%(inj key).
Qed.

Lemma filter_key_runs xs x :
  NoDup xs → x ∈ xs →
  (filter (λ r : K * V, r.1 = key x) (runs key vals xs)).*2 = vals x.
Proof.
  induction 1 as [|x' xs Hx' Hnd IH]; [by intros ?%not_elem_of_nil|].
  intros Hx. unfold runs. rewrite bind_cons, filter_app, fmap_app.
  destruct (decide (key x = key x')) as [->%(inj key)|Hne].
  - rewrite filter_key_fmap_eq. fold (runs key vals xs).
    rewrite filter_key_runs_notin by done.
    rewrite app_nil_r, <- list_fmap_compose. apply list_fmap_id.
  - rewrite filter_key_fmap_ne by done.
    apply elem_of_cons in Hx as [->|Hx]; [done|]. by apply IH.
Qed.

Lemma group_by_runs xs :
  NoDup xs →
  group_by (runs key vals xs) =
  (λ x, (key x, vals x)) <$> filter (λ x, vals x ≠ []) xs.
Proof.
  induction 1 as [|x xs Hx Hnd IH]; [done|].
  assert (Hrest :
    (λ k, (k, (filter (λ r : K * V, r.1 = k) (runs key vals (x :: xs))).*2))
      <$> remove_dups (runs key vals xs).*1 = group_by (runs key vals xs)).
  { unfold group_by. apply list_fmap_ext. intros i k Hi.
    apply list_elem_of_lookup_2, elem_of_remove_dups, runs_keys in Hi
      as (x' & Hx' & ->).
    unfold runs at 1. rewrite bind_cons, filter_app, filter_key_fmap_ne; [done|].
    intros <-%(inj key). done. }
  unfold group_by at 1. unfold runs at 2. rewrite bind_cons, fmap_app.
  fold (runs key vals xs). rewrite remove_dups_run.
  2:{ intros (x' & Hx' & <-%(inj key))%runs_keys. done. }
  destruct (decide (vals x = [])) as [Hv|Hv].
  - rewrite Hrest, IH, filter_cons_False; [done|]. by intros [].
  - rewrite fmap_cons, Hrest, IH, filter_cons_True by done.
    rewrite fmap_cons. f_equal. f_equal.
    apply filter_key_runs; [by constructor|left].
Qed.
End KeyedRuns.

Lemma group_by_single k (vs : list V) :
  vs ≠ [] → group_by ((λ v, (k, v)) <$> vs) = [(k, vs)].
Proof.
  intros Hvs.
  assert (Hinj : Inj (=) (=) (λ _ : unit, k)) by by intros [] [].
  pose proof (group_by_runs (λ _ : unit, k) (λ _, vs) [()]) as H.
  unfold runs in H. rewrite bind_singleton in H.
  rewrite H, filter_cons_True; [done..|].
  apply NoDup_singleton.
Qed.

End GroupByFacts.

End CypherFacts.

(** ** Similarity: the query stage by stage *)

Module StoreFacts.
Import Cypher CypherFacts Store Analytics Spec.

Lemma elem_of_out_follows g a b : b ∈ out_follows g a ↔ (a, b) ∈ follows g.
Proof.
  unfold out_follows. rewrite list_elem_of_fmap. split.
  - intros ([a' b'] & -> & [Ha ?]%list_elem_of_filter). simpl in *. by subst.
  - intros H. exists (a, b). by rewrite list_elem_of_filter.
Qed.

Lemma NoDup_out_follows g a : NoDup (follows g) → NoDup (out_follows g a).
Proof.
  intros Hnd. unfold out_follows. apply NoDup_fmap_2_strong.
  - intros [a1 b1] [a2 b2] [Ha1 _]%list_elem_of_filter [Ha2 _]%list_elem_of_filter.
    simpl in *. congruence.
  - by apply NoDup_filter.
Qed.

Lemma elem_of_match_account g a x : x ∈ match_account g a → x = a.
Proof. by intros [? _]%list_elem_of_filter. Qed.

Lemma filter_eq_notin (l : list string) a : a ∉ l → filter (λ x, x = a) l = [].
Proof.
  induction l as [|x l IH]; [done|]. intros [? ?]%not_elem_of_cons.
  rewrite filter_cons_False by done. auto.
Qed.

Lemma filter_eq_NoDup (l : list string) a :
  NoDup l → a ∈ l → filter (λ x, x = a) l = [a].
Proof.
  induction 1 as [|x l Hx Hnd IH]; [by intros ?%not_elem_of_nil|].
  intros [->|Ha]%elem_of_cons.
  - rewrite filter_cons_True by done. by rewrite filter_eq_notin.
  - rewrite filter_cons_False; [by apply IH|]. by intros ->.
Qed.

Lemma match_account_wf g a :
  wf_graph g → a ∈ match_accounts g → match_account g a = [a].
Proof. intros [Hn _ _ _] Ha. by apply filter_eq_NoDup. Qed.

Lemma mapM_fmap_ok {A B C} (f : B → result C) (h : A → B) (h' : A → C) l :
  (∀ x, x ∈ l → f (h x) = Ok (h' x)) → mapM f (h <$> l) = Ok (h' <$> l).
Proof.
  induction l as [|x l IH]; [done|]. intros H. csimpl.
  rewrite (H x) by left. simpl. rewrite IH; [done|].
  intros y Hy. apply H. by right.
Qed.

Lemma other_rows_runs g a (uf : list string) :
  (match_accounts g ≫= λ other,
     out_follows g other ≫= λ their_followed,
       if bool_decide (other ≠ a) then [((other, uf), their_followed)] else []) =
  runs (λ o, (o, uf)) (other_follows g a) (match_accounts g).
Proof.
  unfold runs. apply list_bind_ext; [|done]. intros other.
  unfold other_follows. case_bool_decide.
  - induction (out_follows g other) as [|x l IH]; [done|]. csimpl. by rewrite IH.
  - induction (out_follows g other) as [|x l IH]; [done|]. csimpl. by rewrite IH.
Qed.

(** [find_similar_accounts], computed stage by stage. *)
Lemma find_similar_accounts_closed g a lim :
  wf_graph g → out_follows g a ≠ [] →
  find_similar_accounts g a lim =
  Ok (limit lim (order_by similar_before (similar_candidates g a))).
Proof.
  intros Hwf Hne. unfold find_similar_accounts.
  assert (Ha : a ∈ match_accounts g).
  { destruct (out_follows g a) as [|b l] eqn:Hb; [done|].
    assert (Hin : b ∈ out_follows g a) by (rewrite Hb; left).
    apply elem_of_out_follows in Hin. by apply (wf_follows_src g Hwf) in Hin. }
  rewrite match_account_wf, bind_singleton by done.
  rewrite group_by_single, bind_singleton by done. simpl.
  rewrite other_rows_runs.
  assert (Hinj : Inj (=) (=) (λ o : string, (o, out_follows g a)))
    by (intros ?? [=]; done).
  rewrite group_by_runs; [|done|apply Hwf].
  rewrite <- !list_fmap_compose.
  rewrite (mapM_fmap_ok _ _ (similar_row g a)); [done|].
  intros o _. unfold similar_row, float_div. simpl.
  destruct (length (out_follows g a)) eqn:Hlen; [|done].
  by apply nil_length_inv in Hlen.
Qed.


Lemma find_similar_accounts_nil g a lim :
  out_follows g a = [] → find_similar_accounts g a lim = Ok [].
Proof.
  intros Hnil. unfold find_similar_accounts.
  rewrite (bind_all_nil _ (match_account g a)).
  - simpl. unfold limit. by rewrite take_nil.
  - intros x ->%elem_of_match_account. by rewrite Hnil.
Qed.

(** *** Arithmetic of the similarity ratio *)

Lemma of_nat_pos n : (0 < n)%nat → (0 < of_nat n)%Q.
Proof.
  intros H. unfold of_nat. change 0%Q with (inject_Z 0).
  rewrite <- Zlt_Qlt. lia.
Qed.

Lemma ratio_pos c n : (0 < c)%nat → (0 < n)%nat → (0 < of_nat c / of_nat n)%Q.
Proof.
  intros Hc Hn. apply Qlt_shift_div_l; [by apply of_nat_pos|].
  rewrite Qmult_0_l. by apply of_nat_pos.
Qed.

Lemma ratio_le_1 c n : (c ≤ n)%nat → (0 < n)%nat → (of_nat c / of_nat n <= 1)%Q.
Proof.
  intros Hc Hn. apply Qle_shift_div_r; [by apply of_nat_pos|].
  rewrite Qmult_1_l. unfold of_nat. rewrite <- Zle_Qle. lia.
Qed.

Lemma Qgtb_lt x y : Qgtb x y = true ↔ (y < x)%Q.
Proof.
  unfold Qgtb. rewrite negb_true_iff, <- not_true_iff_false, Qle_bool_iff.
  split; [apply Qnot_le_lt|apply Qlt_not_le].
Qed.

Lemma ratio_gtb c n : (0 < n)%nat → Qgtb (of_nat c / of_nat n) 0 = true → (0 < c)%nat.
Proof.
  intros Hn H%Qgtb_lt. destruct c; [|lia]. exfalso.
  unfold of_nat in H. simpl in H. unfold Qdiv in H. rewrite Qmult_0_l in H.
  by apply Qlt_irrefl in H.
Qed.

(** *** The order of ORDER BY similarity_score DESC, common_follows DESC *)

Lemma similar_before_desc r1 r2 : similar_before r1 r2 = true ↔ similar_desc r1 r2.
Proof.
  unfold similar_before, similar_desc.
  rewrite orb_true_iff, andb_true_iff, Qgtb_lt, Qeq_bool_iff, Nat.leb_le. done.
Qed.

Lemma similar_before_total r1 r2 :
  similar_before r1 r2 = false → similar_before r2 r1 = true.
Proof.
  rewrite <- not_true_iff_false, !similar_before_desc. unfold similar_desc.
  intros H.
  destruct (Q_dec (similarity_score r1) (similarity_score r2)) as [[?|?]|?];
    [by left|by destruct H; left|].
  right. split; [by symmetry|].
  destruct (decide (common_follows r1 ≤ common_follows r2)%nat); [done|].
  destruct H. right. split; [done|lia].
Qed.

Lemma similar_before_trans r1 r2 r3 :
  similar_before r1 r2 = true → similar_before r2 r3 = true →
  similar_before r1 r3 = true.
Proof.
  rewrite !similar_before_desc. unfold similar_desc.
  intros [?|[? ?]] [?|[? ?]].
  - left. lra.
  - left. lra.
  - left. lra.
  - right. split; [lra|lia].
Qed.

Lemma order_by_similar_sorted l :
  StronglySorted similar_desc (order_by similar_before l).
Proof.
  eapply StronglySorted_mono;
    [|apply order_by_sorted; [apply similar_before_total|apply similar_before_trans]].
  intros r1 r2 H%Is_true_true. by apply similar_before_desc.
Qed.

(** *** The candidates, in the terms of the specification *)

Lemma size_follow_set g a :
  NoDup (follows g) → size (follow_set g a) = length (out_follows g a).
Proof. intros H. apply size_list_to_set, NoDup_out_follows, H. Qed.

Lemma common_size (uf l : list string) :
  NoDup l →
  length (filter (λ x, x ∈ uf) l) =
  size ((list_to_set uf : gset string) ∩ list_to_set l).
Proof.
  intros Hnd. rewrite <- (size_list_to_set (C:=gset string)) by by apply NoDup_filter.
  f_equal. apply set_eq. intros x.
  rewrite elem_of_intersection, !elem_of_list_to_set, list_elem_of_filter. done.
Qed.

Lemma other_follows_ne g a o :
  other_follows g a o ≠ [] → o ≠ a ∧ other_follows g a o = out_follows g o.
Proof. unfold other_follows. case_bool_decide; done. Qed.

Lemma similar_candidates_spec g a :
  wf_graph g → out_follows g a ≠ [] →
  NoDup (similar_account <$> similar_candidates g a) ∧
  (∀ r, r ∈ similar_candidates g a →
     similar_account r ∈ match_accounts g ∧ similar_account r ≠ a ∧
     common_follows r =
       size (follow_set g a ∩ follow_set g (similar_account r)) ∧
     (0 < common_follows r)%nat ∧
     similarity_score r =
       (of_nat (common_follows r) / of_nat (size (follow_set g a)))%Q) ∧
  (∀ o, o ∈ match_accounts g → o ≠ a →
     (0 < size (follow_set g a ∩ follow_set g o))%nat →
     ∃ r, r ∈ similar_candidates g a ∧ similar_account r = o).
Proof.
  intros Hwf Hne.
  assert (Hlen : (0 < length (out_follows g a))%nat).
  { destruct (out_follows g a); [done|simpl; lia]. }
  assert (Hnd : ∀ o, NoDup (out_follows g o))
    by (intros o; apply NoDup_out_follows, Hwf).
  unfold similar_candidates. split; [|split].
  - apply NoDup_fmap_2_strong.
    + intros r1 r2 [_ (o1 & -> & _)%list_elem_of_fmap]%list_elem_of_filter
        [_ (o2 & -> & _)%list_elem_of_fmap]%list_elem_of_filter. simpl. by intros ->.
    + apply NoDup_filter, NoDup_fmap_2_strong.
      * intros o1 o2 _ _ H. by apply (f_equal similar_account) in H.
      * apply NoDup_filter, Hwf.
  - intros r [Hpos (o & -> & [Ho Hin]%list_elem_of_filter)%list_elem_of_fmap]
      %list_elem_of_filter.
    apply other_follows_ne in Ho as [Hoa Ho]. simpl in *. rewrite Ho in *.
    rewrite size_follow_set by apply Hwf.
    split; [done|]. split; [done|]. split; [by apply common_size|].
    split; [|done]. apply Is_true_true in Hpos. by eapply ratio_gtb.
  - intros o Hin Hoa Hc.
    exists (similar_row g a o). split; [|done].
    assert (Ho : other_follows g a o = out_follows g o)
      by (unfold other_follows; by rewrite bool_decide_eq_true_2).
    apply list_elem_of_filter. split.
    + apply Is_true_true, Qgtb_lt. simpl. rewrite Ho. apply ratio_pos; [|done].
      by rewrite common_size.
    + apply list_elem_of_fmap. exists o. split; [done|].
      apply list_elem_of_filter. split; [|done]. rewrite Ho.
      intros Hnil. unfold follow_set at 2 in Hc. rewrite Hnil in Hc.
      rewrite list_to_set_nil, intersection_empty_r_L, size_empty in Hc. lia.
Qed.

End StoreFacts.

(** ** Similarity: the results *)

Module SimilarityTheorems.
Import Cypher CypherFacts Store Analytics Spec StoreFacts Examples.

Lemma wf_graph_check g :
  NoDup (name <$> accounts g) → NoDup (follows g) →
  Forall (λ e, e.1 ∈ name <$> accounts g ∧ e.2 ∈ name <$> accounts g) (follows g) →
  wf_graph g.
Proof.
  intros Hn Hf Hall. rewrite Forall_forall in Hall.
  split; [done..| |]; intros e He; by apply Hall.
Qed.

Lemma wf_similar_graph : wf_graph similar_graph.
Proof. apply wf_graph_check; compute_done. Qed.

Lemma follow_set_empty g a : follow_set g a = ∅ ↔ out_follows g a = [].
Proof.
  unfold follow_set. split; [|by intros ->].
  intros H. destruct (out_follows g a) as [|b l]; [done|].
  assert (Hb : b ∈ (∅ : gset string)) by (rewrite <- H; set_solver).
  by apply not_elem_of_empty in Hb.
Qed.

(** Claim C7.  For an account that follows nobody, [find_similar_accounts]
    returns the empty sequence; it does not raise, and in particular the
    division, which this model makes raise on a zero divisor, is not
    reached. *)
Theorem find_similar_accounts_follows_nobody g a lim :
  follow_set g a = ∅ → find_similar_accounts g a lim = Ok [].
Proof. intros H%follow_set_empty. by apply find_similar_accounts_nil. Qed.

Lemma find_similar_accounts_follows_nobody_witness :
  follow_set similar_graph "x" = ∅ ∧
  find_similar_accounts similar_graph "x" 10 = Ok [].
Proof.
  assert (H : follow_set similar_graph "x" = ∅) by reflexivity.
  split; [exact H|]. apply (find_similar_accounts_follows_nobody _ _ _ H).
Defined.

(** Claim C6, as amended.  On a well-formed graph in which the source
    account follows at least one account, [find_similar_accounts] returns
    the first [lim] rows of a sequence [full] that is sorted descending by
    similarity_score and then by common_follows, has one row per account,
    and whose rows are exactly the other accounts [o] with |F ∩ Fo| > 0,
    each with common_follows = |F ∩ Fo| and similarity_score =
    |F ∩ Fo| / |F|. *)
Theorem find_similar_accounts_spec g a lim :
  wf_graph g → follow_set g a ≠ ∅ →
  ∃ full,
    find_similar_accounts g a lim = Ok (take lim full) ∧
    StronglySorted similar_desc full ∧
    NoDup (similar_account <$> full) ∧
    (∀ r, r ∈ full →
       similar_account r ∈ match_accounts g ∧ similar_account r ≠ a ∧
       common_follows r =
         size (follow_set g a ∩ follow_set g (similar_account r)) ∧
       (0 < common_follows r)%nat ∧
       (similarity_score r ==
          of_nat (common_follows r) / of_nat (size (follow_set g a)))%Q) ∧
    (∀ o, o ∈ match_accounts g → o ≠ a →
       (0 < size (follow_set g a ∩ follow_set g o))%nat →
       ∃ r, r ∈ full ∧ similar_account r = o).
Proof.
  intros Hwf Hne. rewrite follow_set_empty in Hne.
  destruct (similar_candidates_spec g a Hwf Hne) as (Hnd & Hrows & Hall).
  exists (order_by similar_before (similar_candidates g a)).
  split; [by apply find_similar_accounts_closed|].
  split; [apply order_by_similar_sorted|].
  split; [by rewrite order_by_perm|]. split.
  - intros r Hr%elem_of_order_by.
    destruct (Hrows r Hr) as (?&?&?&?&->). done.
  - intros o Ho Hoa Hc. destruct (Hall o Ho Hoa Hc) as (r & Hr & <-).
    exists r. by rewrite elem_of_order_by.
Qed.

Lemma find_similar_accounts_spec_witness :
  ∃ full,
    find_similar_accounts similar_graph "a" 1 = Ok (take 1 full) ∧
    StronglySorted similar_desc full ∧
    NoDup (similar_account <$> full) ∧
    (∀ r, r ∈ full →
       similar_account r ∈ match_accounts similar_graph ∧ similar_account r ≠ "a" ∧
       common_follows r =
         size (follow_set similar_graph "a" ∩
               follow_set similar_graph (similar_account r)) ∧
       (0 < common_follows r)%nat ∧
       (similarity_score r ==
          of_nat (common_follows r) /
          of_nat (size (follow_set similar_graph "a")))%Q) ∧
    (∀ o, o ∈ match_accounts similar_graph → o ≠ "a" →
       (0 < size (follow_set similar_graph "a" ∩ follow_set similar_graph o))%nat →
       ∃ r, r ∈ full ∧ similar_account r = o).
Proof.
  apply (find_similar_accounts_spec similar_graph "a" 1 wf_similar_graph).
  intros H%follow_set_empty. vm_compute in H. discriminate H.
Defined.

(** Claim C6 as stated fails: with LIMIT 1 the account [o1], which shares
    [x] with [a], is not among the rows returned. *)
Lemma find_similar_accounts_limit_drops :
  wf_graph similar_graph ∧ follow_set similar_graph "a" ≠ ∅ ∧
  ∃ rows,
    find_similar_accounts similar_graph "a" 1 = Ok rows ∧
    "o1" ∈ match_accounts similar_graph ∧ "o1" ≠ "a" ∧
    (0 < size (follow_set similar_graph "a" ∩ follow_set similar_graph "o1"))%nat ∧
    ∀ r, r ∈ rows → similar_account r ≠ "o1".
Proof.
  split; [apply wf_similar_graph|]. split.
  { intros H%follow_set_empty. vm_compute in H. discriminate H. }
  eexists. split; [vm_compute; reflexivity|].
  split; [compute_done|]. split; [done|]. split.
  - compute_done.
  - intros r ->%list_elem_of_singleton. done.
Qed.

(** Claim C10.  On a well-formed graph (in particular at most one Follows
    edge per ordered pair) every row that [find_similar_accounts] returns
    has 1 <= common_follows <= |F| and 0 < similarity_score <= 1. *)
Theorem similar_rows_bounds g a lim rows :
  wf_graph g → find_similar_accounts g a lim = Ok rows →
  ∀ r, r ∈ rows →
    (1 ≤ common_follows r ≤ size (follow_set g a))%nat ∧
    (0 < similarity_score r <= 1)%Q.
Proof.
  intros Hwf Hrows r Hr.
  destruct (decide (out_follows g a = [])) as [Hnil|Hne].
  { rewrite find_similar_accounts_nil in Hrows by done.
    injection Hrows as <-. by apply not_elem_of_nil in Hr. }
  rewrite find_similar_accounts_closed in Hrows by done. injection Hrows as <-.
  apply elem_of_take_1, elem_of_order_by in Hr.
  destruct (similar_candidates_spec g a Hwf Hne) as (_ & Hspec & _).
  destruct (Hspec r Hr) as (_ & _ & Hc & Hpos & Hs).
  assert (Hle : (common_follows r ≤ size (follow_set g a))%nat).
  { rewrite Hc. apply subseteq_size, intersection_subseteq_l. }
  split; [lia|]. rewrite Hs. split.
  - apply ratio_pos; lia.
  - apply ratio_le_1; lia.
Qed.

Lemma similar_rows_bounds_witness :
  wf_graph similar_graph ∧
  find_similar_accounts similar_graph "a" 1 =
    Ok [{| similar_account := "o2"; common_follows := 2;
           similarity_score := 2 # 2 |}] ∧
  (1 ≤ 2 ≤ size (follow_set similar_graph "a"))%nat ∧ (0 < 2 # 2 <= 1)%Q.
Proof.
  assert (Hrows : find_similar_accounts similar_graph "a" 1 =
    Ok [{| similar_account := "o2"; common_follows := 2;
           similarity_score := 2 # 2 |}]) by (vm_compute; reflexivity).
  split; [exact wf_similar_graph|]. split; [exact Hrows|].
  apply (similar_rows_bounds similar_graph "a" 1 _ wf_similar_graph Hrows
           {| similar_account := "o2"; common_follows := 2;
              similarity_score := 2 # 2 |}).
  left.
Defined.

End SimilarityTheorems.

(** ** Recommendation *)

Module RecommendFacts.
Import Cypher CypherFacts Store Analytics Spec StoreFacts.

Lemma elem_of_out (edges : list (string * string)) a b :
  b ∈ (filter (λ e, e.1 = a) edges).*2 ↔ (a, b) ∈ edges.
Proof.
  rewrite list_elem_of_fmap. split.
  - intros ([a' b'] & -> & [Ha ?]%list_elem_of_filter). simpl in *. by subst.
  - intros H. exists (a, b). by rewrite list_elem_of_filter.
Qed.

Lemma elem_of_match_account_iff g a x :
  x ∈ match_account g a ↔ x = a ∧ a ∈ match_accounts g.
Proof.
  unfold match_account. rewrite list_elem_of_filter. split.
  - by intros [-> ?].
  - by intros [-> ?].
Qed.

Lemma elem_of_liked_rows g a p f :
  (p, f) ∈ liked_rows g a ↔
  a ∈ match_accounts g ∧ (a, f) ∈ follows g ∧ (f, p) ∈ likes g ∧
  (a, p) ∉ likes g.
Proof.
  unfold liked_rows. rewrite list_elem_of_bind. split.
  - intros (a0 & H & [-> Ha]%elem_of_match_account_iff).
    apply list_elem_of_bind in H as (f0 & H & Hf%elem_of_out).
    apply list_elem_of_bind in H as (p0 & H & Hp%elem_of_out).
    case_bool_decide as Hl; [|by apply not_elem_of_nil in H].
    apply list_elem_of_singleton in H as [= -> ->].
    unfold out_likes in Hl. by rewrite elem_of_out in Hl.
  - intros (Ha & Hf & Hp & Hl). exists a.
    split; [|by apply elem_of_match_account_iff].
    apply list_elem_of_bind. exists f. split; [|by apply elem_of_out].
    apply list_elem_of_bind. exists p. split; [|by apply elem_of_out].
    rewrite bool_decide_eq_true_2; [by apply list_elem_of_singleton|].
    unfold out_likes. by rewrite elem_of_out.
Qed.

Lemma authored_rows_nonempty g a p :
  a ∈ match_accounts g →
  authored_rows g a p ≠ [] ↔
  ∃ poster, (a, poster) ∈ follows g ∧ (poster, p) ∈ authored g.
Proof.
  intros Ha. split.
  - intros H. destruct (authored_rows g a p) as [|p2 l] eqn:Hr; [done|].
    assert (Hin : p2 ∈ authored_rows g a p) by (rewrite Hr; left).
    unfold authored_rows in Hin.
    apply list_elem_of_bind in Hin as (a0 & Hin & [-> _]%elem_of_match_account_iff).
    apply list_elem_of_bind in Hin as (poster & Hin & Hf%elem_of_out).
    apply list_elem_of_bind in Hin as (p0 & Hin & Hp%elem_of_out).
    case_bool_decide; [|by apply not_elem_of_nil in Hin]. subst. eauto.
  - intros (poster & Hf & Hp) Hnil.
    assert (Hin : p ∈ authored_rows g a p); [|by rewrite Hnil in Hin; apply not_elem_of_nil in Hin].
    unfold authored_rows. apply list_elem_of_bind. exists a.
    split; [|by apply elem_of_match_account_iff].
    apply list_elem_of_bind. exists poster. split; [|by apply elem_of_out].
    apply list_elem_of_bind. exists p. split; [|by apply elem_of_out].
    rewrite bool_decide_eq_true_2 by done. left.
Qed.

Lemma count_optional {A} (l : list A) : count (optional l) = length l.
Proof.
  unfold count, collect, optional. destruct l as [|x l]; [done|].
  generalize (x :: l). intros l'. induction l'; csimpl; congruence.
Qed.

Lemma optional_ne {A} (l : list A) : optional l ≠ [].
Proof. by destruct l. Qed.

Lemma size_remove_dups (l : list string) :
  length (remove_dups l) = size (list_to_set l : gset string).
Proof.
  rewrite <- (size_list_to_set (C:=gset string)) by apply NoDup_remove_dups.
  f_equal. apply set_eq. intros x.
  by rewrite !elem_of_list_to_set, elem_of_remove_dups.
Qed.

Lemma recommend_posts_closed g a lim :
  recommend_posts g a lim =
  limit lim
    (order_by recommend_before
       (recommend_row g a <$>
          ((λ r, (r.1, count_distinct r.2)) <$> group_by (liked_rows g a)))).
Proof.
  unfold recommend_posts. fold (liked_rows g a).
  set (rows := (λ r, (r.1, count_distinct r.2)) <$> group_by (liked_rows g a)).
  assert (Hnd : NoDup rows).
  { apply (NoDup_fmap_1 fst). unfold rows. rewrite <- list_fmap_compose.
    apply NoDup_group_by_keys. }
  change (rows ≫= _) with
    (runs id (λ r : string * nat, optional (authored_rows g a r.1)) rows).
  rewrite group_by_runs by first [done | apply _].
  rewrite filter_all by (intros; apply optional_ne).
  rewrite <- !list_fmap_compose. do 2 f_equal.
  apply list_fmap_ext. intros i [p n] _. simpl.
  unfold recommend_row. simpl. by rewrite count_optional.
Qed.

Lemma recommend_before_total r1 r2 :
  recommend_before r1 r2 = false → recommend_before r2 r1 = true.
Proof.
  unfold recommend_before, Qgeb.
  rewrite <- not_true_iff_false, !Qle_bool_iff. lra.
Qed.

Lemma recommend_before_trans r1 r2 r3 :
  recommend_before r1 r2 = true → recommend_before r2 r3 = true →
  recommend_before r1 r3 = true.
Proof. unfold recommend_before, Qgeb. rewrite !Qle_bool_iff. lra. Qed.

(** Claim C8.  The rows of [recommend_posts] are sorted descending by
    score, and every row is for a post that some account followed by the
    source account likes and that the source account does not like; its
    score is the number of distinct followed accounts that like the post,
    times 1.5 when an account followed by the source authored the post and
    times 1 otherwise. *)
Theorem recommend_posts_spec g a lim :
  StronglySorted recommend_desc (recommend_posts g a lim) ∧
  ∀ r, r ∈ recommend_posts g a lim →
    ∃ likers : gset string,
      (∀ f, f ∈ likers ↔ (a, f) ∈ follows g ∧ (f, rec_post_id r) ∈ likes g) ∧
      (0 < size likers)%nat ∧
      ((a, rec_post_id r) ∉ likes g) ∧
      ((∃ poster, (a, poster) ∈ follows g ∧ (poster, rec_post_id r) ∈ authored g) →
         (recommendation_score r == (3 # 2) * of_nat (size likers))%Q) ∧
      (¬ (∃ poster, (a, poster) ∈ follows g ∧ (poster, rec_post_id r) ∈ authored g) →
         (recommendation_score r == 1 * of_nat (size likers))%Q).
Proof.
  rewrite recommend_posts_closed. split.
  { apply StronglySorted_take.
    eapply StronglySorted_mono;
      [|apply order_by_sorted;
        [apply recommend_before_total|apply recommend_before_trans]].
    intros r1 r2 H%Is_true_true. by apply Qle_bool_iff. }
  intros r Hr%elem_of_take_1%elem_of_order_by.
  apply list_elem_of_fmap in Hr as ([p n] & -> & Hr).
  apply list_elem_of_fmap in Hr as ([p' fs] & [= <- ->] & Hr).
  pose proof (group_by_nonempty _ _ _ Hr) as Hne.
  apply elem_of_group_by in Hr as [_ ->]. simpl.
  set (fs := (filter (λ r, r.1 = p) (liked_rows g a)).*2) in *.
  assert (Hfs : ∀ f, f ∈ fs ↔ (p, f) ∈ liked_rows g a).
  { intros f. unfold fs. rewrite list_elem_of_fmap. split.
    - intros ([p' f'] & -> & [Hp ?]%list_elem_of_filter). simpl in *. by subst.
    - intros H. exists (p, f). by rewrite list_elem_of_filter. }
  destruct fs as [|f0 fs'] eqn:Hfs0; [done|]. rewrite <- Hfs0 in *. clear Hne.
  assert (Hf0 : (p, f0) ∈ liked_rows g a) by (apply Hfs; rewrite Hfs0; left).
  apply elem_of_liked_rows in Hf0 as (Ha & Hf0 & Hp0 & Hl).
  exists (list_to_set fs). unfold count_distinct. rewrite size_remove_dups.
  split; [|split; [|split; [done|split]]].
  - intros f. rewrite elem_of_list_to_set, Hfs, elem_of_liked_rows. tauto.
  - assert (Hin : f0 ∈ (list_to_set fs : gset string))
      by (rewrite elem_of_list_to_set, Hfs0; left).
    destruct (size (list_to_set fs : gset string)) eqn:Hz; [|lia].
    apply size_empty_iff in Hz. rewrite Hz in Hin.
    by apply not_elem_of_empty in Hin.
  - intros Hposter%(authored_rows_nonempty g a p Ha).
    rewrite bool_decide_eq_true_2; [done|].
    destruct (authored_rows g a p); [done|simpl; lia].
  - intros Hposter. rewrite bool_decide_eq_false_2; [done|].
    intros Hlen. apply Hposter, (authored_rows_nonempty g a p Ha).
    intros Hnil. rewrite Hnil in Hlen. simpl in Hlen. lia.
Qed.

End RecommendFacts.

(** ** Ranking: the queries *)

Module RankingFacts.
Import Cypher CypherFacts Store Analytics Spec StoreFacts.

Lemma accounts_set_prop a key v g :
  accounts (set_prop a key v g) = write_at a key v <$> accounts g.
Proof. done. Qed.

Lemma name_write_at a key v acc : name (write_at a key v acc) = name acc.
Proof. unfold write_at. by case_bool_decide. Qed.

Lemma match_accounts_set_prop a key v g :
  match_accounts (set_prop a key v g) = match_accounts g.
Proof.
  unfold match_accounts. rewrite accounts_set_prop, <- list_fmap_compose.
  apply list_fmap_ext. intros i acc _. apply name_write_at.
Qed.

Lemma foldl_invariant {A B} (I : A → Prop) (f : A → B → A) (l : list B) (x : A) :
  (∀ x b, I x → I (f x b)) → I x → I (foldl f x l).
Proof. intros Hf. revert x. induction l; simpl; auto. Qed.

(** Writing to every matched account reaches every account. *)
Lemma foldl_accounts (step : Graph → string → Graph) (P : Account → Prop)
    (h : string → Account → Account) :
  (∀ g a, accounts (step g a) = h a <$> accounts g) →
  (∀ a acc, name (h a acc) = name acc) →
  (∀ a acc, name acc = a → P (h a acc)) →
  (∀ a acc, P acc → P (h a acc)) →
  ∀ g, Forall P (accounts (foldl step g (match_accounts g))).
Proof.
  intros Hstep Hname Hset Hkeep.
  assert (Hnames : ∀ l g, match_accounts (foldl step g l) = match_accounts g).
  { intros l g. apply (foldl_invariant (λ g', match_accounts g' = match_accounts g));
      [|done].
    intros g' a <-. unfold match_accounts. rewrite Hstep, <- list_fmap_compose.
    apply list_fmap_ext. intros i acc _. apply Hname. }
  assert (Hgen : ∀ (l done_ : list string) g,
    Forall (λ acc, name acc ∈ done_ → P acc) (accounts g) →
    Forall (λ acc, name acc ∈ (l ++ done_)%list → P acc)
      (accounts (foldl step g l))).
  { induction l as [|a l IH]; intros done_ g Hg; [done|]. simpl.
    eapply Forall_impl; [apply (IH (a :: done_))|].
    - rewrite Hstep, Forall_fmap. eapply Forall_impl; [exact Hg|].
      intros acc Hacc. unfold compose. simpl in *. rewrite Hname.
      intros [Heq|Hin]%elem_of_cons; [by apply Hset|by apply Hkeep, Hacc].
    - intros acc Hacc Hin. apply Hacc.
      rewrite elem_of_app, elem_of_cons.
      apply elem_of_cons in Hin as [?|[?|?]%elem_of_app]; auto. }
  intros g. specialize (Hgen (match_accounts g) [] g).
  rewrite app_nil_r in Hgen.
  assert (Hall := Hgen ltac:(by apply Forall_forall; intros ? _ ?%not_elem_of_nil)).
  rewrite Forall_forall in Hall. apply Forall_forall. intros acc Hacc.
  apply Hall; [done|]. rewrite <- (Hnames (match_accounts g) g).
  unfold match_accounts. apply list_elem_of_fmap. eauto.
Qed.

Lemma has_rank_write_other a key v q acc :
  key ≠ "pagerank" → has_rank q acc → has_rank q (write_at a key v acc).
Proof.
  unfold has_rank, write_at, write_prop. intros Hk H.
  case_bool_decide; [|done]. destruct v; simpl.
  - by rewrite lookup_insert_ne.
  - by rewrite lookup_delete_ne.
Qed.

Lemma init_query_ranked g :
  ∃ g', init_query g = Ok (g', [length (match_accounts g)]) ∧
    Forall (has_rank 1) (accounts g') ∧
    match_accounts g' = match_accounts g ∧ follows g' = follows g.
Proof.
  eexists. split; [reflexivity|]. split; [|split].
  - apply (foldl_accounts _ (has_rank 1)
      (λ a acc, write_at a "prevPagerank" (Some 0%Q) (write_at a "pagerank" (Some 1%Q) acc))).
    + intros g' a. rewrite !accounts_set_prop, <- list_fmap_compose. done.
    + intros a acc. by rewrite !name_write_at.
    + intros a acc Ha. apply has_rank_write_other; [done|].
      unfold has_rank, write_at. rewrite bool_decide_eq_true_2 by done.
      simpl. apply lookup_insert_eq.
    + intros a acc Hacc. apply has_rank_write_other; [done|].
      unfold has_rank, write_at. case_bool_decide; [|done].
      simpl. apply lookup_insert_eq.
  - apply (foldl_invariant (λ g', match_accounts g' = match_accounts g)); [|done].
    intros g' a <-. by rewrite !match_accounts_set_prop.
  - apply (foldl_invariant (λ g', follows g' = follows g)); done.
Qed.

Lemma update_prev_query_ranked q g :
  Forall (has_rank q) (accounts g) →
  ∃ g', update_prev_query g = Ok (g', []) ∧
    Forall (has_rank q) (accounts g') ∧
    match_accounts g' = match_accounts g ∧ follows g' = follows g.
Proof.
  intros Hg. eexists. split; [reflexivity|].
  apply (foldl_invariant (λ g', Forall (has_rank q) (accounts g') ∧
    match_accounts g' = match_accounts g ∧ follows g' = follows g)); [|done].
  intros g' a (Hr & <- & <-). split; [|split].
  - rewrite accounts_set_prop, Forall_fmap. eapply Forall_impl; [exact Hr|].
    intros acc Hacc. by apply has_rank_write_other.
  - by rewrite match_accounts_set_prop.
  - done.
Qed.

Lemma collect_all_none {A} (l : list (option A)) :
  Forall (λ x, x = None) l → collect l = [].
Proof. induction 1 as [|x l -> _ IH]; [done|]. exact IH. Qed.

(** Without Follows edges the follower lists are empty, UNWIND leaves no
    row, and SET is never reached. *)
Lemma iteration_query_no_follows damping g :
  follows g = [] → iteration_query damping g = Ok (g, []).
Proof.
  intros Hf. unfold iteration_query.
  assert (Hin : ∀ a, in_follows g a = []) by (intros a; unfold in_follows; by rewrite Hf).
  set (rows := match_accounts g ≫= _).
  assert (Hrows : Forall (λ r, r.2 = None) rows).
  { apply Forall_forall. intros r (a & Hr & _)%list_elem_of_bind.
    rewrite Hin in Hr. apply list_elem_of_singleton in Hr. by subst. }
  rewrite (bind_all_nil _ (unwind _)); [done|].
  intros r Hr. exfalso. unfold unwind in Hr.
  apply list_elem_of_bind in Hr as ([k fs] & Hr & Hk).
  apply list_elem_of_fmap in Hk as ([k' vs] & [= -> ->] & Hk).
  apply elem_of_group_by in Hk as [_ ->]. simpl in Hr.
  rewrite collect_all_none in Hr; [by apply not_elem_of_nil in Hr|].
  apply Forall_forall.
  intros x ([k0 v0] & -> & [_ Hx]%list_elem_of_filter)%list_elem_of_fmap.
  rewrite Forall_forall in Hrows. by apply (Hrows _ Hx).
Qed.

Lemma node_prop_ranked q g a :
  Forall (has_rank q) (accounts g) → a ∈ match_accounts g →
  node_prop g a "pagerank" = Some q.
Proof.
  intros Hr (acc & -> & Hacc)%list_elem_of_fmap. unfold node_prop.
  destruct (filter _ (accounts g)) as [|acc' l] eqn:Hfl.
  - assert (Hin : acc ∈ filter (λ acc0, name acc0 = name acc) (accounts g))
      by by apply list_elem_of_filter.
    rewrite Hfl in Hin. by apply not_elem_of_nil in Hin.
  - assert (Hin : acc' ∈ filter (λ acc0, name acc0 = name acc) (accounts g))
      by (rewrite Hfl; left).
    apply list_elem_of_filter in Hin as [_ Hin].
    rewrite Forall_forall in Hr. by apply Hr.
Qed.

Lemma result_query_ranked q g :
  Forall (has_rank q) (accounts g) →
  ∃ rows, result_query g = Ok (g, rows) ∧
    account <$> rows ≡ₚ match_accounts g ∧
    ∀ r, r ∈ rows → pagerank r = Some q.
Proof.
  intros Hr. eexists. split; [reflexivity|]. split.
  - rewrite order_by_perm, <- list_fmap_compose. by rewrite list_fmap_id.
  - intros r (a & -> & Ha)%elem_of_order_by%list_elem_of_fmap. simpl.
    by apply node_prop_ranked.
Qed.

Lemma write_at_twice a k1 v1 k2 v2 acc :
  write_at a k2 v2 (write_at a k1 v1 acc) =
  if bool_decide (name acc = a) then write_prop k2 v2 (write_prop k1 v1 acc) else acc.
Proof.
  unfold write_at. destruct (bool_decide (name acc = a)) eqn:Ha; simpl.
  - apply bool_decide_eq_true in Ha. by rewrite bool_decide_eq_true_2.
  - by rewrite Ha.
Qed.

Lemma cleanup_query_clean g :
  ∃ g', cleanup_query g = Ok (g', []) ∧ Forall no_rank_state (accounts g').
Proof.
  eexists. split; [reflexivity|].
  apply (foldl_accounts _ no_rank_state
    (λ a acc, write_at a "prevPagerank" None (write_at a "pagerank" None acc))).
  - intros g' a. rewrite !accounts_set_prop, <- list_fmap_compose. done.
  - intros a acc. by rewrite !name_write_at.
  - intros a acc Ha. rewrite write_at_twice, bool_decide_eq_true_2 by done.
    unfold no_rank_state. simpl. by rewrite lookup_delete_ne, !lookup_delete_eq.
  - intros a acc Hacc. rewrite write_at_twice. case_bool_decide; [|done].
    unfold no_rank_state. simpl. by rewrite lookup_delete_ne, !lookup_delete_eq.
Qed.

End RankingFacts.

(** ** Ranking: the protocol *)

Module RankingTheorems.
Import Cypher CypherFacts Store Analytics Spec StoreFacts RankingFacts Examples.

Lemma execute_query_ok {R} (q : Graph → result (Graph * list R)) w g' rows :
  no_faults w → q (graph w) = Ok (g', rows) →
  execute_query q w = (Ok rows, {| graph := g'; pending := []; log := log w |}).
Proof. unfold no_faults, execute_query. intros -> ->. done. Qed.

Lemma execute_query_inv {R} (q : Graph → result (Graph * list R)) w rows w' :
  execute_query q w = (Ok rows, w') →
  q (graph w) = Ok (graph w', rows).
Proof.
  unfold execute_query. intros H.
  destruct (pending w) as [|[e|] ?]; [|done|];
    destruct (q (graph w)) as [[g r]|]; by simplify_eq.
Qed.

Lemma bind_ok {A B} (m : M A) (f : A → M B) w a w' :
  m w = (Ok a, w') → bind m f w = f a w'.
Proof. unfold bind. by intros ->. Qed.

Lemma bind_raise {A B} (m : M A) (f : A → M B) w e w' :
  m w = (Raise e, w') → bind m f w = (Raise e, w').
Proof. unfold bind. by intros ->. Qed.

Lemma bind_inv {A B} (m : M A) (f : A → M B) w b w' :
  bind m f w = (Ok b, w') → ∃ a w1, m w = (Ok a, w1) ∧ f a w1 = (Ok b, w').
Proof. unfold bind. destruct (m w) as [[a|e] w1]; [eauto|done]. Qed.

Lemma rounds_no_follows damping names n : ∀ w,
  settled names w →
  ∃ w',
    for_range n
      (bind (execute_query update_prev_query) (λ _,
         bind (execute_query (iteration_query damping)) (λ _, ret tt))) w
    = (Ok tt, w') ∧ settled names w' ∧ log w' = log w.
Proof.
  induction n as [|n IH]; intros w Hw; [by exists w|].
  destruct Hw as (Hnf & Hr & Hn & Hf).
  destruct (update_prev_query_ranked 1 _ Hr) as (g1 & Hq1 & Hr1 & Hn1 & Hf1).
  destruct (IH {| graph := g1; pending := []; log := log w |}) as (w' & Hloop & Hw' & Hl).
  { repeat split; simpl; congruence. }
  exists w'. split; [|done].
  change (for_range (S n) ?body) with (bind body (λ _, for_range n body)).
  rewrite (bind_ok _ _ w tt {| graph := g1; pending := []; log := log w |});
    [exact Hloop|].
  rewrite (bind_ok _ _ w [] {| graph := g1; pending := []; log := log w |});
    [|by apply execute_query_ok].
  rewrite (bind_ok _ _ _ [] {| graph := g1; pending := []; log := log w |});
    [done|].
  apply (execute_query_ok _ {| graph := g1; pending := []; log := log w |});
    [done|].
  simpl. apply iteration_query_no_follows. congruence.
Qed.

(** Claim C1, what the code does instead.  On a graph with at least one
    account and no Follows edge, and a store that answers every round trip,
    [_custom_pagerank_implementation] returns one row per account, each with
    the initial score 1.0, whatever [iterations] and [damping] are: an
    account without followers has an empty follower list, UNWIND drops its
    row, and its pagerank is never set to [1 - damping]. *)
Theorem custom_pagerank_no_follows g iterations damping :
  accounts g ≠ [] → follows g = [] →
  ∃ rows w',
    _custom_pagerank_implementation iterations damping (calm g) = (Ok rows, w') ∧
    account <$> rows ≡ₚ match_accounts g ∧
    ∀ r, r ∈ rows → pagerank r = Some 1%Q.
Proof.
  intros Hacc Hf.
  destruct (init_query_ranked g) as (g1 & Hq1 & Hr1 & Hn1 & Hf1).
  destruct (rounds_no_follows damping (match_accounts g) iterations
    {| graph := g1; pending := []; log := [] |}) as (w2 & Hloop & (Hnf & Hr2 & Hn2 & Hf2) & _).
  { repeat split; simpl; congruence. }
  destruct (result_query_ranked 1 _ Hr2) as (rows & Hq3 & Hperm & Hrows).
  destruct (cleanup_query_clean (graph w2)) as (g4 & Hq4 & _).
  exists rows. eexists. split; [|split; [by rewrite Hperm, Hn2|done]].
  unfold _custom_pagerank_implementation.
  erewrite bind_ok; [|by apply (execute_query_ok _ (calm g))].
  destruct (length (match_accounts g)) eqn:Hlen.
  { unfold match_accounts in Hlen. rewrite length_fmap in Hlen.
    by apply nil_length_inv in Hlen. }
  simpl. erewrite bind_ok; [|exact Hloop].
  erewrite bind_ok; [|by apply execute_query_ok].
  erewrite bind_ok; [|by apply execute_query_ok]. done.
Qed.

Lemma custom_pagerank_no_follows_witness :
  ∃ rows w',
    _custom_pagerank_implementation 1 (85 # 100) (calm lonely_graph) = (Ok rows, w') ∧
    account <$> rows ≡ₚ match_accounts lonely_graph ∧
    ∀ r, r ∈ rows → pagerank r = Some 1%Q.
Proof. apply (custom_pagerank_no_follows lonely_graph 1 (85 # 100)); done. Defined.

(** One account, one iteration, damping 0.85: the score returned is 1.0,
    and [1 - damping] is 0.15. *)
Lemma custom_pagerank_lonely :
  ∃ w', _custom_pagerank_implementation 1 (85 # 100) (calm lonely_graph) =
          (Ok [{| account := "A"; pagerank := Some 1%Q |}], w').
Proof. eexists. vm_compute. reflexivity. Qed.

(** Claim C2, what the code does instead.  On the graph with accounts A, B,
    C and Follows edges B->A, C->A, C->B, one iteration with damping 0.85
    returns A with 1.425 (57/40), then C with 1.0, then B with 0.575
    (23/40): C, which nobody follows, keeps the initial score instead of
    0.15 and stands before B.  Scores are shown in lowest terms. *)
Theorem custom_pagerank_abc :
  ∃ rows w',
    _custom_pagerank_implementation 1 (85 # 100) (calm abc_graph) = (Ok rows, w') ∧
    (λ r, (account r, Qred <$> pagerank r)) <$> rows =
    [("A", Some (57 # 40)); ("C", Some 1%Q); ("B", Some (23 # 40))].
Proof. eexists _, _. split; vm_compute; reflexivity. Qed.


(** Whatever the store and its failures, when
    [_custom_pagerank_implementation] returns, no account has the pagerank
    or the prevPagerank property. *)
Lemma custom_pagerank_cleans_up iterations damping w rows w' :
  _custom_pagerank_implementation iterations damping w = (Ok rows, w') →
  Forall no_rank_state (accounts (graph w')).
Proof.
  unfold _custom_pagerank_implementation. intros H.
  apply bind_inv in H as (result & w1 & Hinit & H).
  apply execute_query_inv in Hinit.
  destruct (init_query_ranked (graph w)) as (g1 & Hq1 & _ & Hn1 & _).
  rewrite Hq1 in Hinit. injection Hinit as Hg1 <-.
  destruct (length (match_accounts (graph w))) eqn:Hlen; simpl in H.
  - unfold ret in H. injection H as _ <-.
    assert (Hnil : match_accounts (graph w1) = []).
    { rewrite <- Hg1, Hn1. by apply nil_length_inv. }
    apply fmap_nil_inv in Hnil. rewrite Hnil. constructor.
  - apply bind_inv in H as (? & w2 & _ & H).
    apply bind_inv in H as (results & w3 & _ & H).
    apply bind_inv in H as (? & w4 & Hclean & H).
    unfold ret in H. injection H as _ <-.
    apply execute_query_inv in Hclean.
    destruct (cleanup_query_clean (graph w3)) as (g4 & Hq4 & Hg4).
    rewrite Hq4 in Hclean. by injection Hclean as <-.
Qed.

(** On a store without rank state whose final read fails, the call
    raises and leaves pagerank and prevPagerank on the account. *)
Lemma custom_pagerank_failure_leaves_state :
  Forall no_rank_state (accounts (graph read_fails)) ∧
  ∃ w' acc,
    _custom_pagerank_implementation 1 (85 # 100) read_fails =
      (Raise StoreUnavailable, w') ∧
    acc ∈ accounts (graph w') ∧
    props acc !! "pagerank" = Some 1%Q ∧ props acc !! "prevPagerank" = Some 1%Q.
Proof.
  split; [by repeat constructor|].
  eexists _, _. split; [vm_compute; reflexivity|].
  split; [left|]. by vm_compute.
Qed.

(** Claim C5.  When the native attempt raises, whatever the exception,
    [calculate_pagerank] does not raise it: it logs one WARNING entry and
    one INFO entry and its outcome, value or exception, is the outcome of
    [_custom_pagerank_implementation] on the store as the failed attempt
    left it. *)
Theorem calculate_pagerank_falls_back gds iterations damping w e w1 :
  execute_query (gds iterations damping) w = (Raise e, w1) →
  calculate_pagerank gds iterations damping w =
  _custom_pagerank_implementation iterations damping
    {| graph := graph w1; pending := pending w1;
       log := (log w1 ++
               [(WARNING,
                 ("PageRank calculation using GDS library failed: " ++ str e)%string);
                (INFO, "Using custom PageRank implementation")])%list |}.
Proof.
  intros H. unfold calculate_pagerank, try_except. rewrite H.
  unfold bind at 1, logger at 1. unfold bind at 1, logger at 1. simpl.
  by rewrite <- (assoc_L (++)%list).
Qed.

Lemma calculate_pagerank_falls_back_witness :
  calculate_pagerank no_gds 1 (85 # 100) (calm abc_graph) =
  _custom_pagerank_implementation 1 (85 # 100)
    {| graph := abc_graph; pending := [];
       log := [(WARNING, "PageRank calculation using GDS library failed: QueryError");
               (INFO, "Using custom PageRank implementation")] |}.
Proof.
  apply (calculate_pagerank_falls_back no_gds 1 (85 # 100) (calm abc_graph)
           QueryError (calm abc_graph)).
  reflexivity.
Defined.

End RankingTheorems.

(** ** The manager: follows *)

Module FollowFacts.
Import Cypher CypherFacts Store Analytics Spec StoreFacts Examples Manager.
Import SimilarityTheorems.

Lemma execute_query_calm {R} (q : Graph → result (Graph * list R)) g g' rows :
  q g = Ok (g', rows) → execute_query q (calm g) = (Ok rows, calm g').
Proof. unfold execute_query, calm. simpl. by intros ->. Qed.

Lemma with_follows_id g : with_follows (follows g) g = g.
Proof. by destruct g. Qed.

Lemma with_follows_twice l l' g :
  with_follows l (with_follows l' g) = with_follows l g.
Proof. done. Qed.

Lemma with_likes_id g : with_likes (likes g) g = g.
Proof. by destruct g. Qed.

Lemma match_account_cases g a :
  wf_graph g →
  match_account g a = if bool_decide (a ∈ match_accounts g) then [a] else [].
Proof.
  intros Hwf. case_bool_decide.
  - by apply match_account_wf.
  - by apply filter_eq_notin.
Qed.

Lemma follow_query_closed g a b :
  wf_graph g →
  follow_query a b g =
  if bool_decide (can_follow g a b)
  then Ok (with_follows (merge_edge (a, b) (follows g)) g, [(a, b)])
  else Ok (g, []).
Proof.
  intros Hwf. unfold follow_query, can_follow.
  rewrite !match_account_cases by done.
  destruct (bool_decide (a ∈ match_accounts g)) eqn:Ha;
    destruct (bool_decide (b ∈ match_accounts g)) eqn:Hb;
    destruct (bool_decide (a ≠ b)) eqn:Hab; simpl; rewrite ?Hab; simpl;
    try apply bool_decide_eq_true in Ha; try apply bool_decide_eq_false in Ha;
    try apply bool_decide_eq_true in Hb; try apply bool_decide_eq_false in Hb;
    try apply bool_decide_eq_true in Hab; try apply bool_decide_eq_false in Hab;
    first [ by rewrite bool_decide_eq_true_2
          | rewrite bool_decide_eq_false_2; [done|]; by intros (?&?&?) ].
Qed.

Lemma merge_edge_elem e l : e ∈ merge_edge e l.
Proof.
  unfold merge_edge. case_bool_decide; [done|]. apply elem_of_app. right. left.
Qed.

Lemma elem_of_merge_edge e e' l : e' ∈ merge_edge e l ↔ e' = e ∨ e' ∈ l.
Proof.
  unfold merge_edge. case_bool_decide.
  - split; [by right|]. by intros [->|?].
  - rewrite elem_of_app, list_elem_of_singleton. tauto.
Qed.

Lemma merge_edge_idemp e l : merge_edge e (merge_edge e l) = merge_edge e l.
Proof.
  unfold merge_edge at 1. by rewrite bool_decide_eq_true_2 by apply merge_edge_elem.
Qed.

Lemma NoDup_merge_edge e l : NoDup l → NoDup (merge_edge e l).
Proof.
  intros Hl. unfold merge_edge. case_bool_decide; [done|].
  apply NoDup_app. split; [done|]. split; [|apply NoDup_singleton].
  intros x Hx ->%list_elem_of_singleton. done.
Qed.


Lemma wf_graph_with_follows g l :
  wf_graph g → NoDup l →
  (∀ e, e ∈ l → e.1 ∈ match_accounts g ∧ e.2 ∈ match_accounts g) →
  wf_graph (with_follows l g).
Proof.
  intros [Hn _ _ _] Hl Hends. split; simpl; [done..| |]; intros e He; by apply Hends.
Qed.

Lemma wf_graph_follow g a b :
  wf_graph g → can_follow g a b →
  wf_graph (with_follows (merge_edge (a, b) (follows g)) g).
Proof.
  intros Hwf (Ha & Hb & _). apply wf_graph_with_follows; [done| |].
  - apply NoDup_merge_edge, Hwf.
  - intros e [->|He]%elem_of_merge_edge; [done|].
    split; [by apply (wf_follows_src g Hwf)|by apply (wf_follows_dst g Hwf)].
Qed.

Lemma follow_account_closed g a b :
  wf_graph g →
  follow_account a b (calm g) =
  if bool_decide (can_follow g a b)
  then (Ok (Some (a, b)), calm (with_follows (merge_edge (a, b) (follows g)) g))
  else (Ok None, calm g).
Proof.
  intros Hwf. unfold follow_account, bind.
  pose proof (follow_query_closed g a b Hwf) as Hq.
  case_bool_decide; by rewrite (execute_query_calm _ _ _ _ Hq).
Qed.

(** Property X1.  follow_account: no row and no change when an account is missing or
    the two accounts are the same. *)
Theorem follow_account_refused g a b :
  ¬ can_follow g a b → follow_account a b (calm g) = (Ok None, calm g).
Proof.
  intros Hno. unfold follow_account, bind.
  rewrite (execute_query_calm _ g g []); [done|].
  unfold follow_query. rewrite bind_all_nil; [done|].
  intros a' [-> Ha]%list_elem_of_filter. apply bind_all_nil.
  intros b' [-> Hb]%list_elem_of_filter.
  case_bool_decide; [|done]. by destruct Hno.
Qed.

Lemma follow_account_refused_witness :
  follow_account "a" "a" (calm similar_graph) = (Ok None, calm similar_graph) ∧
  follow_account "a" "nobody" (calm similar_graph) = (Ok None, calm similar_graph).
Proof.
  split.
  - apply (follow_account_refused similar_graph "a" "a"). by intros (_ & _ & ?).
  - apply (follow_account_refused similar_graph "a" "nobody").
    intros (_ & Hb & _). revert Hb. compute_done.
Defined.

(** Property X2.  follow_account is idempotent. *)
Theorem follow_account_idempotent g a b :
  wf_graph g →
  follow_account a b (follow_account a b (calm g)).2 = follow_account a b (calm g).
Proof.
  intros Hwf. rewrite (follow_account_closed g a b Hwf).
  case_bool_decide as Hc; simpl.
  - rewrite follow_account_closed by by apply wf_graph_follow.
    rewrite bool_decide_eq_true_2 by done. simpl. by rewrite merge_edge_idemp.
  - rewrite follow_account_closed by done. by rewrite bool_decide_eq_false_2.
Qed.

Lemma follow_account_idempotent_witness :
  follow_account "o3" "x" (follow_account "o3" "x" (calm similar_graph)).2 =
  follow_account "o3" "x" (calm similar_graph).
Proof. apply (follow_account_idempotent similar_graph "o3" "x" wf_similar_graph). Defined.


(** *** unfollow_account *)

Lemma filter_ext_in {A} (P Q : A → Prop) `{∀ x, Decision (P x)} `{∀ x, Decision (Q x)}
    (l : list A) :
  (∀ x, x ∈ l → P x ↔ Q x) → filter P l = filter Q l.
Proof.
  induction l as [|x l IH]; [done|]. intros HPQ.
  rewrite !filter_cons. rewrite IH by (intros y Hy; apply HPQ; by right).
  destruct (decide (P x)) as [HP|HP], (decide (Q x)) as [HQ|HQ]; try done.
  - destruct HQ. apply HPQ; [left|done].
  - destruct HP. apply HPQ; [left|done].
Qed.

Lemma filter_eq_one {A} `{EqDecision A} (l : list A) x :
  NoDup l → filter (λ y, y = x) l = if bool_decide (x ∈ l) then [x] else [].
Proof.
  induction 1 as [|y l Hy Hnd IH]; [done|].
  rewrite filter_cons, IH. destruct (decide (y = x)) as [->|Hne].
  - rewrite bool_decide_eq_false_2 by done. by rewrite bool_decide_eq_true_2 by left.
  - case_bool_decide as Hx.
    + by rewrite bool_decide_eq_true_2 by by right.
    + rewrite bool_decide_eq_false_2; [done|]. by intros [->|?]%elem_of_cons.
Qed.

Lemma unfollow_rows g a b :
  wf_graph g →
  (a' ← match_account g a; b' ← match_account g b;
   filter (λ r, r = (a', b')) (follows g)) =
  if bool_decide ((a, b) ∈ follows g) then [(a, b)] else [].
Proof.
  intros Hwf. rewrite !match_account_cases by done.
  destruct (bool_decide (a ∈ match_accounts g)) eqn:Ha;
    [destruct (bool_decide (b ∈ match_accounts g)) eqn:Hb|]; simpl.
  - rewrite !app_nil_r. apply filter_eq_one, Hwf.
  - apply bool_decide_eq_false in Hb. rewrite bool_decide_eq_false_2; [done|].
    intros He. by apply (wf_follows_dst g Hwf) in He.
  - apply bool_decide_eq_false in Ha. rewrite bool_decide_eq_false_2; [done|].
    intros He. by apply (wf_follows_src g Hwf) in He.
Qed.

Lemma unfollow_query_closed g a b :
  wf_graph g →
  unfollow_query a b g =
  Ok (with_follows (filter (λ r, r ≠ (a, b)) (follows g)) g,
      [bool_decide ((a, b) ∈ follows g)]).
Proof.
  intros Hwf. unfold unfollow_query. rewrite unfollow_rows by done.
  case_bool_decide as He; simpl.
  - do 3 f_equal. apply filter_ext_in. intros r _.
    by rewrite list_elem_of_singleton.
  - do 3 f_equal. apply filter_ext_in. intros r Hr.
    split; [|by intros _ ?%not_elem_of_nil]. by intros _ ->.
Qed.

(** Property X3.  unfollow_account reports a deletion exactly when the relationship was
    there, removes it, and keeps every other relationship in place. *)
Theorem unfollow_account_exact g a b :
  wf_graph g →
  unfollow_account a b (calm g) =
  (Ok (bool_decide ((a, b) ∈ follows g)),
   calm (with_follows (filter (λ r, r ≠ (a, b)) (follows g)) g)).
Proof.
  intros Hwf. unfold unfollow_account, bind.
  by rewrite (execute_query_calm _ _ _ _ (unfollow_query_closed g a b Hwf)).
Qed.

Lemma unfollow_account_exact_witness :
  unfollow_account "o1" "x" (calm similar_graph) =
  (Ok (bool_decide (("o1", "x") ∈ follows similar_graph)),
   calm (with_follows (filter (λ r, r ≠ ("o1", "x")) (follows similar_graph))
           similar_graph)).
Proof. apply (unfollow_account_exact similar_graph "o1" "x" wf_similar_graph). Defined.

Lemma filter_ne_merge (e : string * string) l :
  e ∉ l → filter (λ r, r ≠ e) (merge_edge e l) = l.
Proof.
  intros He. unfold merge_edge. rewrite bool_decide_eq_false_2 by done.
  rewrite filter_app, filter_cons_False, filter_nil, app_nil_r by (by intros []).
  apply filter_all. by intros r Hr ->.
Qed.

(** Property X4.  Following and then unfollowing gives the store back, when the
    relationship was not there before. *)
Theorem follow_unfollow_round_trip g a b :
  wf_graph g → (a, b) ∉ follows g →
  unfollow_account a b (follow_account a b (calm g)).2 =
  (Ok (bool_decide (can_follow g a b)), calm g).
Proof.
  intros Hwf He. rewrite follow_account_closed by done.
  case_bool_decide as Hc; simpl; unfold unfollow_account, bind.
  - rewrite (execute_query_calm _ _ _ _
      (unfollow_query_closed _ a b (wf_graph_follow g a b Hwf Hc))). simpl.
    rewrite bool_decide_eq_true_2 by apply merge_edge_elem.
    by rewrite filter_ne_merge, with_follows_twice, with_follows_id.
  - rewrite (execute_query_calm _ _ _ _ (unfollow_query_closed g a b Hwf)). simpl.
    rewrite bool_decide_eq_false_2 by done.
    rewrite filter_all by (by intros r Hr ->). by rewrite with_follows_id.
Qed.

Lemma follow_unfollow_round_trip_witness :
  unfollow_account "o3" "x" (follow_account "o3" "x" (calm similar_graph)).2 =
  (Ok (bool_decide (can_follow similar_graph "o3" "x")), calm similar_graph).
Proof.
  apply (follow_unfollow_round_trip similar_graph "o3" "x" wf_similar_graph).
  compute_done.
Defined.

(** *** get_connected_accounts *)

Lemma get_connected_accounts_closed g a :
  wf_graph g → get_connected_accounts a (calm g) = (Ok (out_follows g a), calm g).
Proof.
  intros Hwf. unfold get_connected_accounts.
  erewrite execute_query_calm; [reflexivity|]. unfold connected_query.
  rewrite match_account_cases by done. case_bool_decide as Ha; simpl.
  - by rewrite app_nil_r.
  - destruct (out_follows g a) as [|b l] eqn:Hb; [done|]. destruct Ha.
    assert (Hin : b ∈ out_follows g a) by (rewrite Hb; left).
    apply elem_of_out_follows in Hin. by apply (wf_follows_src g Hwf) in Hin.
Qed.

(** Property X5.  After follow_account(a, b) the connected accounts of [a] are [b] and
    those it had; the connected accounts of everybody else are as before. *)
Theorem follow_then_connected g a b :
  wf_graph g → can_follow g a b →
  ∃ g',
    follow_account a b (calm g) = (Ok (Some (a, b)), calm g') ∧
    (∃ l, get_connected_accounts a (calm g') = (Ok l, calm g') ∧
          ∀ c, c ∈ l ↔ c = b ∨ (a, c) ∈ follows g) ∧
    (∀ a', a' ≠ a →
       (get_connected_accounts a' (calm g')).1 = (get_connected_accounts a' (calm g)).1).
Proof.
  intros Hwf Hc. eexists. split.
  { rewrite follow_account_closed by done. by rewrite bool_decide_eq_true_2. }
  pose proof (wf_graph_follow g a b Hwf Hc) as Hwf'. split.
  - eexists. split; [by apply get_connected_accounts_closed|].
    intros c. rewrite elem_of_out_follows. simpl.
    rewrite elem_of_merge_edge. split; [intros [[= ->]|?]; auto|intros [->|?]; auto].
  - intros a' Ha'. rewrite !get_connected_accounts_closed by done. simpl. f_equal.
    unfold out_follows, merge_edge. simpl. case_bool_decide; [done|].
    rewrite filter_app, filter_cons_False, filter_nil, app_nil_r; [done|].
    simpl. by intros <-.
Qed.

Lemma follow_then_connected_witness :
  ∃ g',
    follow_account "o3" "x" (calm similar_graph) = (Ok (Some ("o3", "x")), calm g') ∧
    (∃ l, get_connected_accounts "o3" (calm g') = (Ok l, calm g') ∧
          ∀ c, c ∈ l ↔ c = "x" ∨ ("o3", c) ∈ follows similar_graph) ∧
    (∀ a', a' ≠ "o3" →
       (get_connected_accounts a' (calm g')).1 =
       (get_connected_accounts a' (calm similar_graph)).1).
Proof.
  apply (follow_then_connected similar_graph "o3" "x" wf_similar_graph).
  repeat split; compute_done.
Defined.

End FollowFacts.

(** ** The manager: reads *)

Module ReadFacts.
Import Cypher CypherFacts Store Analytics Spec StoreFacts Examples Manager.
Import SimilarityTheorems FollowFacts.

(** *** get_graph_statistics *)

(** Property X6.  get_graph_statistics returns no row at all while nobody follows
    anybody, however many accounts there are; otherwise its one row counts
    the accounts and the Follows relationships. *)
Theorem get_graph_statistics_rows g :
  get_graph_statistics (calm g) =
  (Ok (if decide (follows g = []) then []
       else [{| node_count := length (accounts g);
                relationship_count := length (follows g) |}]),
   calm g).
Proof.
  unfold get_graph_statistics.
  erewrite execute_query_calm; [reflexivity|]. unfold statistics_query.
  rewrite bind_singleton. destruct (decide (follows g = [])) as [->|Hne]; [done|].
  rewrite group_by_single by done. simpl.
  unfold match_accounts. by rewrite length_fmap.
Qed.

(** *** get_common_connections *)

Lemma elem_of_numbered_follows g i e :
  (i, e) ∈ numbered_follows g ↔ follows g !! i = Some e.
Proof.
  unfold numbered_follows. rewrite elem_of_lookup_imap. split.
  - by intros (j & e' & [= -> ->] & ?).
  - intros ?. by exists i, e.
Qed.

Lemma NoDup_numbered_follows g : NoDup (numbered_follows g).
Proof.
  apply NoDup_alt. intros i j [k e]. unfold numbered_follows.
  rewrite !list_lookup_imap. intros Hi Hj.
  destruct (follows g !! i); destruct (follows g !! j); simplify_eq/=. done.
Qed.

Lemma numbered_follows_inj g r1 r2 :
  NoDup (follows g) → r1 ∈ numbered_follows g → r2 ∈ numbered_follows g →
  r1.2 = r2.2 → r1 = r2.
Proof.
  destruct r1 as [i e1], r2 as [j e2]. simpl.
  intros Hnd ?%elem_of_numbered_follows ?%elem_of_numbered_follows <-.
  f_equal. by eapply NoDup_lookup.
Qed.

Lemma elem_of_common_rows g a b c :
  NoDup (follows g) →
  c ∈ common_rows g a b ↔ a ≠ b ∧ (a, c) ∈ follows g ∧ (b, c) ∈ follows g.
Proof.
  intros Hnd. unfold common_rows. rewrite list_elem_of_bind. split.
  - intros ([i [a' c']] & (r2 & Hc & Hr2)%list_elem_of_bind & [Ha Hr1]%list_elem_of_filter).
    destruct r2 as [j [b' c'']]. simpl in *.
    apply list_elem_of_singleton in Hc as ->.
    apply list_elem_of_filter in Hr2 as [(Hb & Hcc & Hij) Hr2]. simpl in *. subst.
    apply elem_of_numbered_follows in Hr1, Hr2.
    split; [|split; by eapply list_elem_of_lookup_2].
    intros ->. apply Hij. by eapply NoDup_lookup.
  - intros (Hab & [i Hi]%list_elem_of_lookup & [j Hj]%list_elem_of_lookup).
    exists (i, (a, c)). split.
    + apply list_elem_of_bind. exists (j, (b, c)). split; [by left|].
      apply list_elem_of_filter. split; [|by apply elem_of_numbered_follows].
      simpl. split_and!; [done..|]. intros ->. rewrite Hi in Hj. congruence.
    + apply list_elem_of_filter. split; [done|]. by apply elem_of_numbered_follows.
Qed.

Lemma NoDup_common_rows g a b : NoDup (follows g) → NoDup (common_rows g a b).
Proof.
  intros Hnd. unfold common_rows. apply NoDup_bind.
  - intros r1 r1' c [Ha Hr1]%list_elem_of_filter [Ha' Hr1']%list_elem_of_filter.
    intros (r2 & ->%list_elem_of_singleton & _)%list_elem_of_bind.
    intros (r2' & Hc%list_elem_of_singleton & _)%list_elem_of_bind.
    apply (numbered_follows_inj g); [done..|].
    destruct r1 as [? [??]], r1' as [? [??]]. simpl in *. congruence.
  - intros r1 _. apply NoDup_bind.
    + intros r2 r2' c [(Hb & Hc & _) Hr2]%list_elem_of_filter
        [(Hb' & Hc' & _) Hr2']%list_elem_of_filter _ _.
      apply (numbered_follows_inj g); [done..|].
      destruct r2 as [? [??]], r2' as [? [??]]. simpl in *. congruence.
    + intros. apply NoDup_singleton.
    + apply NoDup_filter, NoDup_numbered_follows.
  - apply NoDup_filter, NoDup_numbered_follows.
Qed.

Lemma get_common_connections_closed g a b :
  wf_graph g →
  get_common_connections a b (calm g) = (Ok (common_rows g a b), calm g).
Proof.
  intros Hwf. unfold get_common_connections.
  erewrite execute_query_calm; [reflexivity|]. unfold common_query. do 2 f_equal.
  rewrite !match_account_cases by done.
  assert (Hsrc : ∀ x, x ∉ match_accounts g → common_rows g x b = []).
  { intros x Hx. destruct (common_rows g x b) as [|c l] eqn:Hc; [done|].
    assert (Hin : c ∈ common_rows g x b) by (rewrite Hc; left).
    apply elem_of_common_rows in Hin as (_ & Hin & _); [|apply Hwf].
    by apply (wf_follows_src g Hwf) in Hin. }
  assert (Hdst : ∀ x, x ∉ match_accounts g → common_rows g a x = []).
  { intros x Hx. destruct (common_rows g a x) as [|c l] eqn:Hc; [done|].
    assert (Hin : c ∈ common_rows g a x) by (rewrite Hc; left).
    apply elem_of_common_rows in Hin as (_ & _ & Hin); [|apply Hwf].
    by apply (wf_follows_src g Hwf) in Hin. }
  repeat case_bool_decide; simpl; rewrite ?app_nil_r; try done.
  all: symmetry; auto.
Qed.

(** Property X7.  get_common_connections returns, once each, the accounts that both
    accounts follow; asked about one account twice it returns nothing,
    since the two relationships of the pattern must differ. *)
Theorem get_common_connections_spec g a b :
  wf_graph g →
  ∃ l, get_common_connections a b (calm g) = (Ok l, calm g) ∧ NoDup l ∧
       ∀ c, c ∈ l ↔ a ≠ b ∧ (a, c) ∈ follows g ∧ (b, c) ∈ follows g.
Proof.
  intros Hwf. exists (common_rows g a b). split_and!.
  - by apply get_common_connections_closed.
  - apply NoDup_common_rows, Hwf.
  - intros c. apply elem_of_common_rows, Hwf.
Qed.

Lemma get_common_connections_spec_witness :
  ∃ l, get_common_connections "a" "o2" (calm similar_graph) = (Ok l, calm similar_graph) ∧
       NoDup l ∧
       ∀ c, c ∈ l ↔ "a" ≠ "o2" ∧ ("a", c) ∈ follows similar_graph ∧
                     ("o2", c) ∈ follows similar_graph.
Proof. apply (get_common_connections_spec similar_graph "a" "o2" wf_similar_graph). Defined.

(** *** find_similar_accounts and get_common_connections together *)

(** Property X8.  The common_follows of a row of find_similar_accounts is the number of
    rows that get_common_connections returns for the two accounts. *)
Theorem similar_rows_count_common_connections g a lim rows :
  wf_graph g → find_similar_accounts g a lim = Ok rows →
  ∀ r, r ∈ rows →
    ∃ l, get_common_connections a (similar_account r) (calm g) = (Ok l, calm g) ∧
         common_follows r = length l.
Proof.
  intros Hwf Hrows r Hr. exists (common_rows g a (similar_account r)).
  split; [by apply get_common_connections_closed|].
  destruct (decide (out_follows g a = [])) as [Hnil|Hne].
  { rewrite find_similar_accounts_nil in Hrows by done.
    injection Hrows as <-. by apply not_elem_of_nil in Hr. }
  rewrite find_similar_accounts_closed in Hrows by done. injection Hrows as <-.
  apply elem_of_take_1, elem_of_order_by in Hr.
  destruct (similar_candidates_spec g a Hwf Hne) as (_ & Hspec & _).
  destruct (Hspec r Hr) as (_ & Hra & -> & _).
  rewrite <-(size_list_to_set (C:=gset string)) by apply NoDup_common_rows, Hwf.
  f_equal. apply set_eq. intros c.
  rewrite elem_of_intersection, elem_of_list_to_set. unfold follow_set.
  rewrite !elem_of_list_to_set, !elem_of_out_follows, elem_of_common_rows by apply Hwf.
  split; [intros [??]; split_and!; [congruence|done..]|tauto].
Qed.

Lemma similar_rows_count_common_connections_witness :
  ∃ rows, find_similar_accounts similar_graph "a" 10 = Ok rows ∧
  ∃ r, r ∈ rows ∧
  ∃ l, get_common_connections "a" (similar_account r) (calm similar_graph)
         = (Ok l, calm similar_graph) ∧
       common_follows r = length l.
Proof.
  eexists. split; [vm_compute; reflexivity|].
  eexists. split; [left|].
  eapply (similar_rows_count_common_connections similar_graph "a" 10 _ wf_similar_graph);
    [vm_compute; reflexivity|left].
Defined.

End ReadFacts.

(** ** The manager: posts, likes and the constraints of the store *)

Module PostFacts.
Import Cypher CypherFacts Store Analytics Spec StoreFacts Examples Manager Scenes.
Import SimilarityTheorems RecommendFacts FollowFacts.

Lemma wf_store_check g :
  wf_graph g → NoDup (match_posts g) → NoDup (likes g) →
  Forall (λ e, e.1 ∈ match_accounts g ∧ e.2 ∈ match_posts g) (likes g) →
  Forall (λ e, e.1 ∈ match_accounts g) (authored g) →
  (authored g).*2 = match_posts g →
  wf_store g.
Proof.
  intros ??? Hl Ha ?. rewrite Forall_forall in Hl, Ha. by split.
Qed.

Lemma wf_post_graph : wf_store post_graph.
Proof. apply wf_store_check; [apply wf_graph_check|..]; compute_done. Qed.

Lemma match_post_cases g p :
  NoDup (match_posts g) →
  match_post g p = if bool_decide (p ∈ match_posts g) then [p] else [].
Proof. intros Hnd. by apply filter_eq_one. Qed.

(** *** The queries in closed form *)

Lemma like_query_closed g a p :
  wf_store g →
  like_query a p g =
  if bool_decide (a ∈ match_accounts g ∧ p ∈ match_posts g)
  then Ok (with_likes (merge_edge (a, p) (likes g)) g, [(a, p)])
  else Ok (g, []).
Proof.
  intros Hwf. unfold like_query.
  rewrite match_account_cases by apply Hwf.
  rewrite match_post_cases by apply Hwf.
  destruct (bool_decide (a ∈ match_accounts g)) eqn:Ha;
    destruct (bool_decide (p ∈ match_posts g)) eqn:Hp; simpl;
    try apply bool_decide_eq_true in Ha; try apply bool_decide_eq_false in Ha;
    try apply bool_decide_eq_true in Hp; try apply bool_decide_eq_false in Hp;
    first [ by rewrite bool_decide_eq_true_2
          | rewrite bool_decide_eq_false_2; [done|]; by intros [??] ].
Qed.

Lemma unlike_rows g a p :
  wf_store g →
  (a' ← match_account g a; p' ← match_post g p;
   filter (λ r, r = (a', p')) (likes g)) =
  if bool_decide ((a, p) ∈ likes g) then [(a, p)] else [].
Proof.
  intros Hwf. rewrite match_account_cases by apply Hwf.
  rewrite match_post_cases by apply Hwf.
  destruct (bool_decide (a ∈ match_accounts g)) eqn:Ha;
    [destruct (bool_decide (p ∈ match_posts g)) eqn:Hp|]; simpl.
  - rewrite !app_nil_r. apply filter_eq_one, Hwf.
  - apply bool_decide_eq_false in Hp. rewrite bool_decide_eq_false_2; [done|].
    intros He. by apply (wf_likes_ends g Hwf) in He as [_ ?].
  - apply bool_decide_eq_false in Ha. rewrite bool_decide_eq_false_2; [done|].
    intros He. by apply (wf_likes_ends g Hwf) in He as [? _].
Qed.

Lemma unlike_query_closed g a p :
  wf_store g →
  unlike_query a p g =
  Ok (with_likes (filter (λ r, r ≠ (a, p)) (likes g)) g,
      [bool_decide ((a, p) ∈ likes g)]).
Proof.
  intros Hwf. unfold unlike_query. rewrite unlike_rows by done.
  case_bool_decide as He; simpl.
  - do 3 f_equal. apply filter_ext_in. intros r _.
    by rewrite list_elem_of_singleton.
  - do 3 f_equal. apply filter_ext_in. intros r Hr.
    split; [|by intros _ ?%not_elem_of_nil]. by intros _ ->.
Qed.

Lemma add_post_query_closed g a id c :
  wf_graph g →
  add_post_query a id c g =
  if bool_decide (a ∈ match_accounts g) then
    if bool_decide (id ∈ match_posts g) then Raise QueryError
    else Ok (with_post a {| post_id := id; post_content := c |} g, [(a, id)])
  else Ok (g, []).
Proof.
  intros Hwf. unfold add_post_query. rewrite match_account_cases by done.
  case_bool_decide; simpl; [|done]. by case_bool_decide.
Qed.

(** *** The constraints are kept *)

Lemma wf_store_with_follows g l :
  wf_store g → wf_graph (with_follows l g) → wf_store (with_follows l g).
Proof. intros [] ?. by split. Qed.

Lemma wf_store_with_likes g l :
  wf_store g → NoDup l →
  (∀ e, e ∈ l → e.1 ∈ match_accounts g ∧ e.2 ∈ match_posts g) →
  wf_store (with_likes l g).
Proof. intros [[] ?????] ??. by split. Qed.

Lemma wf_store_add_account g n rows g' :
  wf_store g → add_account_query n g = Ok (g', rows) → wf_store g'.
Proof.
  intros Hwf. unfold add_account_query. case_bool_decide as Hn; [done|].
  intros [= <- <-]. destruct Hwf as [[Hnames Hnd Hsrc Hdst] Hp Hl Hle Ha Hau].
  assert (Hsub : ∀ x, x ∈ match_accounts g →
    x ∈ name <$> (accounts g ++ [{| name := n; props := ∅ |}])%list).
  { intros x Hx. rewrite fmap_app. apply elem_of_app. by left. }
  split; [split|..]; simpl; try done.
  - rewrite fmap_app. apply NoDup_app. split_and!; [done| |apply NoDup_singleton].
    by intros x Hx ->%list_elem_of_singleton.
  - intros e He. by apply Hsub, Hsrc.
  - intros e He. by apply Hsub, Hdst.
  - intros e He. split; [by apply Hsub, Hle|by apply Hle].
  - intros e He. by apply Hsub, Ha.
Qed.

Lemma wf_store_follow g a b rows g' :
  wf_store g → follow_query a b g = Ok (g', rows) → wf_store g'.
Proof.
  intros Hwf. rewrite follow_query_closed by apply Hwf.
  case_bool_decide as Hc; intros [= <- <-]; [|done].
  apply wf_store_with_follows; [done|]. apply wf_graph_follow; [apply Hwf|done].
Qed.

Lemma wf_store_unfollow g a b rows g' :
  wf_store g → unfollow_query a b g = Ok (g', rows) → wf_store g'.
Proof.
  intros Hwf. rewrite unfollow_query_closed by apply Hwf. intros [= <- <-].
  apply wf_store_with_follows; [done|]. apply wf_graph_with_follows; [apply Hwf| |].
  - apply NoDup_filter, Hwf.
  - intros e [_ He]%list_elem_of_filter.
    split; [by apply (wf_follows_src g), He; apply Hwf
           |by apply (wf_follows_dst g), He; apply Hwf].
Qed.

Lemma wf_store_add_post g a id c rows g' :
  wf_store g → add_post_query a id c g = Ok (g', rows) → wf_store g'.
Proof.
  intros Hwf. rewrite add_post_query_closed by apply Hwf.
  case_bool_decide as Ha; [|by intros [= <- <-]].
  case_bool_decide as Hid; [done|]. intros [= <- <-].
  destruct Hwf as [Hs Hp Hl Hle Hau Hao].
  assert (Hposts : match_posts (with_post a {| post_id := id; post_content := c |} g)
                   = (match_posts g ++ [id])%list).
  { unfold match_posts. simpl. by rewrite fmap_app. }
  split; simpl; rewrite ?Hposts; try done.
  - by destruct Hs.
  - apply NoDup_app. split_and!; [done| |apply NoDup_singleton].
    by intros x Hx ->%list_elem_of_singleton.
  - intros e He. split; [by apply Hle|]. apply elem_of_app. left. by apply Hle.
  - intros e [He|He%list_elem_of_singleton]%elem_of_app; [by apply Hau|by subst].
  - by rewrite fmap_app, Hao.
Qed.

Lemma wf_store_like g a p rows g' :
  wf_store g → like_query a p g = Ok (g', rows) → wf_store g'.
Proof.
  intros Hwf. rewrite like_query_closed by done.
  case_bool_decide as Hc; intros [= <- <-]; [|done].
  apply wf_store_with_likes; [done|apply NoDup_merge_edge, Hwf|].
  intros e [->|He]%elem_of_merge_edge; [done|]. by apply Hwf.
Qed.

Lemma wf_store_unlike g a p rows g' :
  wf_store g → unlike_query a p g = Ok (g', rows) → wf_store g'.
Proof.
  intros Hwf. rewrite unlike_query_closed by done. intros [= <- <-].
  apply wf_store_with_likes; [done|apply NoDup_filter, Hwf|].
  intros e [_ He]%list_elem_of_filter. by apply Hwf.
Qed.

Lemma execute_query_keeps {R} (P : Graph → Prop)
    (q : Graph → result (Graph * list R)) w :
  (∀ g g' rows, P g → q g = Ok (g', rows) → P g') →
  P (graph w) → P (graph (execute_query q w).2).
Proof.
  intros Hq HP. unfold execute_query.
  destruct (pending w) as [|[e|] ?]; simpl; try done;
    destruct (q (graph w)) as [[g' rows]|e] eqn:Hg; simpl; eauto.
Qed.

Lemma first_row_graph {R S} (q : Graph → result (Graph * list R))
    (h : list R → S) w :
  graph ((result <- execute_query q; ret (h result))%world w).2 =
  graph (execute_query q w).2.
Proof. unfold bind, ret. by destruct (execute_query q w) as [[?|?] ?]. Qed.

(** Property X9.  Every operation that writes keeps the constraints of the store,
    whether its round trip succeeds or fails. *)
Theorem writes_keep_constraints w :
  wf_store (graph w) →
  (∀ n, wf_store (graph (add_account n w).2)) ∧
  (∀ a b, wf_store (graph (follow_account a b w).2)) ∧
  (∀ a b, wf_store (graph (unfollow_account a b w).2)) ∧
  (∀ a c id, wf_store (graph (add_post a c id w).2)) ∧
  (∀ a p, wf_store (graph (like_post a p w).2)) ∧
  (∀ a p, wf_store (graph (unlike_post a p w).2)).
Proof.
  intros Hwf. split_and!; intros.
  - unfold add_account. rewrite first_row_graph.
    apply execute_query_keeps; [|done]. intros ???. apply wf_store_add_account.
  - unfold follow_account. rewrite first_row_graph.
    apply execute_query_keeps; [|done]. intros ???. apply wf_store_follow.
  - unfold unfollow_account. rewrite first_row_graph.
    apply execute_query_keeps; [|done]. intros ???. apply wf_store_unfollow.
  - unfold add_post. destruct id as [id|]; [|done].
    pose proof (execute_query_keeps wf_store (add_post_query a id c) w) as Hk.
    destruct (execute_query (add_post_query a id c) w) as [[?|?] ?]; simpl in *;
      (apply Hk; [|done]); intros ???; apply wf_store_add_post.
  - unfold like_post. rewrite first_row_graph.
    apply execute_query_keeps; [|done]. intros ???. apply wf_store_like.
  - unfold unlike_post. rewrite first_row_graph.
    apply execute_query_keeps; [|done]. intros ???. apply wf_store_unlike.
Qed.

Lemma writes_keep_constraints_witness :
  wf_store (graph (add_account "d" second_fails).2) ∧
  wf_store (graph (add_post "a" "hi" (Some "p3") (like_post "a" "p2" second_fails).2).2).
Proof.
  split.
  - apply (writes_keep_constraints second_fails wf_post_graph).
  - apply (writes_keep_constraints (like_post "a" "p2" second_fails).2).
    apply (writes_keep_constraints second_fails wf_post_graph).
Defined.

(** *** add_post *)

(** Property X10.  add_post without a post_id stops at the missing [uuid] module and
    never reaches the store.  With a post_id, on a store that answers: an
    unknown account gives the empty dict and no change, a post_id already
    in use is refused by the store with no change, and otherwise the post
    and its Posts relationship are added at the end. *)
Theorem add_post_outcomes g a c :
  wf_graph g →
  (∀ w, add_post a c None w = (inl (NameError "uuid"), w)) ∧
  (∀ id, add_post a c (Some id) (calm g) =
     if bool_decide (a ∈ match_accounts g) then
       if bool_decide (id ∈ match_posts g)
       then (inl (StoreError QueryError), calm g)
       else (inr (Some (a, id)),
             calm (with_post a {| post_id := id; post_content := c |} g))
     else (inr None, calm g)).
Proof.
  intros Hwf. split; [done|]. intros id. unfold add_post.
  pose proof (add_post_query_closed g a id c Hwf) as Hq.
  unfold execute_query. simpl. rewrite Hq.
  by repeat case_bool_decide.
Qed.

Lemma add_post_outcomes_witness :
  (∀ w, add_post "a" "hi" None w = (inl (NameError "uuid"), w)) ∧
  (∀ id, add_post "a" "hi" (Some id) (calm post_graph) =
     if bool_decide ("a" ∈ match_accounts post_graph) then
       if bool_decide (id ∈ match_posts post_graph)
       then (inl (StoreError QueryError), calm post_graph)
       else (inr (Some ("a", id)),
             calm (with_post "a" {| post_id := id; post_content := "hi" |} post_graph))
     else (inr None, calm post_graph)).
Proof. apply (add_post_outcomes post_graph "a" "hi"), wf_post_graph. Defined.

(** *** like_post and unlike_post *)

Lemma like_post_closed g a p :
  wf_store g →
  like_post a p (calm g) =
  if bool_decide (a ∈ match_accounts g ∧ p ∈ match_posts g)
  then (Ok (Some (a, p)), calm (with_likes (merge_edge (a, p) (likes g)) g))
  else (Ok None, calm g).
Proof.
  intros Hwf. unfold like_post, bind.
  pose proof (like_query_closed g a p Hwf) as Hq.
  case_bool_decide; by rewrite (execute_query_calm _ _ _ _ Hq).
Qed.

Lemma unlike_post_closed g a p :
  wf_store g →
  unlike_post a p (calm g) =
  (Ok (bool_decide ((a, p) ∈ likes g)),
   calm (with_likes (filter (λ r, r ≠ (a, p)) (likes g)) g)).
Proof.
  intros Hwf. unfold unlike_post, bind.
  by rewrite (execute_query_calm _ _ _ _ (unlike_query_closed g a p Hwf)).
Qed.

(** Property X11.  Liking and then unliking gives the store back, when the account did
    not like the post before; the flag returned says whether the account
    and the post exist. *)
Theorem like_unlike_round_trip g a p :
  wf_store g → (a, p) ∉ likes g →
  unlike_post a p (like_post a p (calm g)).2 =
  (Ok (bool_decide (a ∈ match_accounts g ∧ p ∈ match_posts g)), calm g).
Proof.
  intros Hwf He. rewrite like_post_closed by done.
  case_bool_decide as Hc; simpl.
  - rewrite unlike_post_closed. 2:{ eapply wf_store_like; [done|].
      rewrite like_query_closed by done. by rewrite bool_decide_eq_true_2. }
    simpl. rewrite bool_decide_eq_true_2 by apply merge_edge_elem.
    rewrite filter_ne_merge by done. by destruct g.
  - rewrite unlike_post_closed by done.
    rewrite bool_decide_eq_false_2 by done.
    rewrite filter_all by (by intros r Hr ->). by rewrite with_likes_id.
Qed.

Lemma like_unlike_round_trip_witness :
  unlike_post "a" "p2" (like_post "a" "p2" (calm post_graph)).2 =
  (Ok (bool_decide ("a" ∈ match_accounts post_graph ∧ "p2" ∈ match_posts post_graph)),
   calm post_graph).
Proof.
  apply (like_unlike_round_trip post_graph "a" "p2" wf_post_graph). compute_done.
Defined.

(** *** like_post and recommend_posts together *)

(** Property X12.  A post that like_post has just recorded for an account is not among
    the posts recommended to that account, whatever the limit. *)
Theorem liked_post_not_recommended g a p lim w :
  wf_store g → like_post a p (calm g) = (Ok (Some (a, p)), w) →
  ∀ row, row ∈ recommend_posts (graph w) a lim → rec_post_id row ≠ p.
Proof.
  intros Hwf. rewrite like_post_closed by done.
  case_bool_decide as Hc; [|done]. intros [= <-]. simpl.
  intros row. rewrite recommend_posts_closed.
  intros Hr%elem_of_take_1%elem_of_order_by.
  apply list_elem_of_fmap in Hr as ([p' n] & -> & Hr).
  apply list_elem_of_fmap in Hr as ([p'' fs] & [= <- ->] & Hr). simpl.
  pose proof (group_by_nonempty _ _ _ Hr) as Hne.
  apply elem_of_group_by in Hr as [Hk _].
  apply list_elem_of_fmap in Hk as ([p1 f] & -> & Hk). simpl.
  apply elem_of_liked_rows in Hk as (_ & _ & _ & Hnot). simpl in Hnot.
  intros ->. apply Hnot, merge_edge_elem.
Qed.

Lemma liked_post_not_recommended_witness :
  (∃ row, row ∈ recommend_posts post_graph "a" 5 ∧ rec_post_id row = "p2") ∧
  ∃ w, like_post "a" "p2" (calm post_graph) = (Ok (Some ("a", "p2")), w) ∧
       ¬ ∃ row, row ∈ recommend_posts (graph w) "a" 5 ∧ rec_post_id row = "p2".
Proof.
  split.
  - eexists. split; [vm_compute; left|reflexivity].
  - eexists. split; [vm_compute; reflexivity|].
    intros (row & Hrow & Hid). revert Hid.
    eapply (liked_post_not_recommended post_graph "a" "p2" 5 _ wf_post_graph);
      [vm_compute; reflexivity|exact Hrow].
Defined.

End PostFacts.

(** ** Ranking: what a run does to the store and to the driver *)

Module RankingRuns.
Import Cypher CypherFacts Store Analytics Spec StoreFacts Examples Manager Laws.
Import RankingFacts RankingTheorems PostFacts Scenes.

(** *** Invariants of the graph *)

Lemma keeps_ret {A} (P : Graph → Prop) (a : A) : keeps P (ret a).
Proof. by intros w. Qed.

Lemma keeps_bind {A B} (P : Graph → Prop) (m : M A) (f : A → M B) :
  keeps P m → (∀ a, keeps P (f a)) → keeps P (bind m f).
Proof.
  intros Hm Hf w HP. unfold bind. specialize (Hm w HP).
  destruct (m w) as [[a|e] w1]; simpl in *; [by apply Hf|done].
Qed.

Lemma keeps_for_range (P : Graph → Prop) n body :
  keeps P body → keeps P (for_range n body).
Proof.
  intros Hb. induction n; simpl; [apply keeps_ret|]. apply keeps_bind; auto.
Qed.

Lemma keeps_execute_query {R} (P : Graph → Prop)
    (q : Graph → result (Graph * list R)) :
  (∀ g g' rows, P g → q g = Ok (g', rows) → P g') → keeps P (execute_query q).
Proof. intros Hq w. by apply execute_query_keeps. Qed.

Lemma pagerank_key : "pagerank" ∈ rank_keys.
Proof. left. Qed.

Lemma prev_key : "prevPagerank" ∈ rank_keys.
Proof. right. left. Qed.

Lemma iteration_query_stages damping g :
  iteration_query damping g =
  Ok (foldl (set_rank damping) g (incoming_rows damping g), []).
Proof. reflexivity. Qed.

Section WritesToRankKeys.
Context (P : Graph → Prop).
Hypothesis P_set_prop : ∀ g a k v, k ∈ rank_keys → P g → P (set_prop a k v g).

Lemma init_query_keeps g g' rows : P g → init_query g = Ok (g', rows) → P g'.
Proof.
  intros HP [= <- <-]. apply foldl_invariant; [|done].
  intros g1 a ?. by apply P_set_prop, P_set_prop; [apply prev_key|apply pagerank_key|].
Qed.

Lemma update_prev_query_keeps g g' (rows : list unit) :
  P g → update_prev_query g = Ok (g', rows) → P g'.
Proof.
  intros HP [= <- <-]. apply foldl_invariant; [|done].
  intros g1 a ?. by apply P_set_prop; [apply prev_key|].
Qed.

Lemma iteration_query_keeps damping g g' (rows : list unit) :
  P g → iteration_query damping g = Ok (g', rows) → P g'.
Proof.
  rewrite iteration_query_stages. intros HP [= <- <-].
  apply foldl_invariant; [|done].
  intros g1 [[a base] inc] ?. by apply P_set_prop; [apply pagerank_key|].
Qed.

Lemma result_query_keeps g g' rows : P g → result_query g = Ok (g', rows) → P g'.
Proof. by intros HP [= <- <-]. Qed.

Lemma cleanup_query_keeps g g' (rows : list unit) :
  P g → cleanup_query g = Ok (g', rows) → P g'.
Proof.
  intros HP [= <- <-]. apply foldl_invariant; [|done].
  intros g1 a ?. by apply P_set_prop, P_set_prop; [apply prev_key|apply pagerank_key|].
Qed.

Lemma custom_pagerank_keeps iterations damping :
  keeps P (_custom_pagerank_implementation iterations damping).
Proof.
  unfold _custom_pagerank_implementation. apply keeps_bind.
  { apply keeps_execute_query, init_query_keeps. }
  intros result. destruct (_ =? _)%nat; [apply keeps_ret|].
  apply keeps_bind.
  { apply keeps_for_range, keeps_bind;
      [apply keeps_execute_query, update_prev_query_keeps|].
    intros _. apply keeps_bind; [|intros; apply keeps_ret].
    apply keeps_execute_query, iteration_query_keeps. }
  intros _. apply keeps_bind; [apply keeps_execute_query, result_query_keeps|].
  intros results. apply keeps_bind; [|intros; apply keeps_ret].
  apply keeps_execute_query, cleanup_query_keeps.
Qed.
End WritesToRankKeys.

Lemma touches_only_refl keys g : touches_only keys g g.
Proof.
  unfold touches_only. split_and!; try done.
  apply Forall_Forall2_diag, Forall_forall. done.
Qed.

Lemma touches_only_set_prop keys g0 g a k v :
  k ∈ keys → touches_only keys g0 g → touches_only keys g0 (set_prop a k v g).
Proof.
  intros Hk (?&?&?&?&Hacc). unfold touches_only, set_prop. simpl.
  split_and!; try done.
  apply Forall2_fmap_r. eapply Forall2_impl; [exact Hacc|].
  intros acc acc' [Hn Hp]. simpl. case_bool_decide; [|done].
  split; [done|]. intros k' Hk'. rewrite <- Hp by done.
  assert (k ≠ k') by (by intros ->).
  unfold write_prop. destruct v; simpl;
    [by apply lookup_insert_ne|by apply lookup_delete_ne].
Qed.

(** Property X13.  Whatever the store and whether the run returns or raises,
    _custom_pagerank_implementation leaves the accounts, their names and
    order, every other property of theirs, the posts and all
    relationships as they were: it writes the properties pagerank and
    prevPagerank and nothing else. *)
Theorem custom_pagerank_writes_rank_properties_only iterations damping w :
  touches_only rank_keys (graph w)
    (graph (_custom_pagerank_implementation iterations damping w).2).
Proof.
  apply (custom_pagerank_keeps (touches_only rank_keys (graph w))).
  - intros g a k v. apply touches_only_set_prop.
  - apply touches_only_refl.
Qed.

(** *** A run that returns *)

Lemma custom_pagerank_ok_inv iterations damping w rows w' :
  _custom_pagerank_implementation iterations damping w = (Ok rows, w') →
  ∃ w1, execute_query init_query w =
          (Ok [length (match_accounts (graph w))], w1) ∧
    ((match_accounts (graph w) = [] ∧ rows = [] ∧ w' = w1) ∨
     (match_accounts (graph w) ≠ [] ∧ ∃ w2 w3,
        for_range iterations (round damping) w1 = (Ok tt, w2) ∧
        execute_query result_query w2 = (Ok rows, w3) ∧
        execute_query cleanup_query w3 = (Ok [], w'))).
Proof.
  unfold _custom_pagerank_implementation. intros H.
  apply bind_inv in H as (result & w1 & Hinit & H).
  pose proof (execute_query_inv _ _ _ _ Hinit) as Hq. injection Hq as _ <-.
  exists w1. split; [done|].
  destruct (match_accounts (graph w)) as [|a l] eqn:Hacc; simpl in H.
  - left. unfold ret in H. by injection H as <- <-.
  - right. split; [done|].
    apply bind_inv in H as ([] & w2 & Hrounds & H).
    apply bind_inv in H as (results & w3 & Hres & H).
    apply bind_inv in H as (out & w4 & Hclean & H).
    unfold ret in H. injection H as <- <-.
    pose proof (execute_query_inv _ _ _ _ Hclean) as Hq. injection Hq as _ <-.
    by exists w2, w3.
Qed.

Lemma erased_accounts l l' :
  Forall2 (λ acc acc', name acc' = name acc ∧
             ∀ k, k ∉ rank_keys → props acc' !! k = props acc !! k) l l' →
  Forall no_rank_state l' → l' = erase_rank <$> l.
Proof.
  induction 1 as [|acc acc' l l' [Hn Hp] _ IH]; intros Hall; [done|].
  apply Forall_cons in Hall as [[H1 H2] Hall]. csimpl. f_equal; [|by apply IH].
  destruct acc' as [n' p']. unfold erase_rank. simpl in *. f_equal; [done|].
  apply map_eq. intros k.
  destruct (decide (k = "prevPagerank")) as [->|Hk1].
  { by rewrite lookup_delete_eq. }
  rewrite lookup_delete_ne by done.
  destruct (decide (k = "pagerank")) as [->|Hk2].
  { by rewrite lookup_delete_eq. }
  rewrite lookup_delete_ne by done. apply Hp.
  intros Hin. apply elem_of_cons in Hin as [?|Hin]; [done|].
  apply elem_of_cons in Hin as [?|Hin]; [done|]. by apply elem_of_nil in Hin.
Qed.

(** Property X14.  When _custom_pagerank_implementation returns, the store is the one
    it found, except that every account has lost the properties pagerank
    and prevPagerank, also those it had before the call. *)
Theorem custom_pagerank_final_graph iterations damping w rows w' :
  _custom_pagerank_implementation iterations damping w = (Ok rows, w') →
  graph w' = with_accounts (erase_rank <$> accounts (graph w)) (graph w).
Proof.
  intros H.
  pose proof (custom_pagerank_keeps (touches_only rank_keys (graph w))
    (λ g a k v, touches_only_set_prop rank_keys (graph w) g a k v)
    iterations damping w (touches_only_refl _ _)) as Ht.
  rewrite H in Ht. simpl in Ht. destruct Ht as (Hp & Hf & Hl & Ha & Hacc).
  assert (Hclean : Forall no_rank_state (accounts (graph w'))).
  { apply custom_pagerank_ok_inv in H as (w1 & Hinit & [(Hnil & _ & ->)|Hrun]).
    - apply execute_query_inv in Hinit.
      destruct (init_query_ranked (graph w)) as (g1 & Hq1 & _ & Hn1 & _).
      rewrite Hq1 in Hinit. injection Hinit as Hg1.
      assert (Hnames : match_accounts (graph w1) = []) by (by rewrite <- Hg1, Hn1).
      apply fmap_nil_inv in Hnames. rewrite Hnames. constructor.
    - destruct Hrun as (_ & w2 & w3 & _ & _ & Hclean).
      apply execute_query_inv in Hclean.
      destruct (cleanup_query_clean (graph w3)) as (g4 & Hq4 & Hg4).
      rewrite Hq4 in Hclean. by injection Hclean as <-. }
  pose proof (erased_accounts _ _ Hacc Hclean) as Herase.
  destruct (graph w'). simpl in *. unfold with_accounts. by subst.
Qed.

Lemma custom_pagerank_final_graph_witness :
  graph (_custom_pagerank_implementation 1 (85 # 100) (calm abc_graph)).2 =
  with_accounts (erase_rank <$> accounts abc_graph) abc_graph.
Proof.
  apply (custom_pagerank_final_graph 1 (85 # 100) (calm abc_graph)
    (match (_custom_pagerank_implementation 1 (85 # 100) (calm abc_graph)).1 with
     | Ok rows => rows
     | Raise _ => []
     end)).
  vm_compute. reflexivity.
Defined.

(** *** Round trips *)

Lemma trips_then n k (w w1 w2 : World) :
  pending w1 = drop n (pending w) ∧ Forall (λ f, f = None) (take n (pending w)) ∧
    log w1 = log w →
  pending w2 = drop k (pending w1) ∧ Forall (λ f, f = None) (take k (pending w1)) ∧
    log w2 = log w1 →
  pending w2 = drop (n + k) (pending w) ∧
    Forall (λ f, f = None) (take (n + k) (pending w)) ∧ log w2 = log w.
Proof.
  intros (Hp1 & Hn1 & Hl1) (Hp2 & Hn2 & Hl2). split_and!.
  - by rewrite Hp2, Hp1, drop_drop.
  - rewrite <- take_take_drop. apply Forall_app. split; [done|]. by rewrite <- Hp1.
  - congruence.
Qed.

Lemma costs_ret {A} (a : A) : costs 0 (ret a).
Proof. intros w a' w' [= <- <-]. rewrite drop_0, take_0. by split_and!. Qed.

Lemma costs_bind {A B} n k (m : M A) (f : A → M B) :
  costs n m → (∀ a, costs k (f a)) → costs (n + k) (bind m f).
Proof.
  intros Hm Hf w b w' (a & w1 & H1 & H2)%bind_inv.
  eapply trips_then; [by eapply Hm|by eapply Hf].
Qed.

Lemma costs_execute_query {R} (q : Graph → result (Graph * list R)) :
  costs 1 (execute_query q).
Proof.
  intros w rows w'. unfold execute_query.
  destruct (pending w) as [|[e|] l]; [| done |];
    destruct (q (graph w)) as [[g r]|]; intros [= <- <-]; simpl;
    split_and!; try done; repeat constructor.
Qed.

Lemma costs_for_range n k body : costs k body → costs (n * k) (for_range n body).
Proof.
  intros Hb. induction n; simpl; [apply costs_ret|]. apply costs_bind; auto.
Qed.

Lemma costs_round damping : costs 2 (round damping).
Proof.
  unfold round. apply (costs_bind 1 1); [apply costs_execute_query|]. intros _.
  apply (costs_bind 1 0); [apply costs_execute_query|]. intros _. apply costs_ret.
Qed.

(** Property X15.  A run that returns has made one round trip when there is no account
    and 2 * iterations + 3 otherwise, every one of them answered, and has
    logged nothing. *)
Theorem custom_pagerank_round_trips iterations damping w rows w' :
  _custom_pagerank_implementation iterations damping w = (Ok rows, w') →
  let n := if decide (accounts (graph w) = []) then 1%nat
           else (2 * iterations + 3)%nat in
  pending w' = drop n (pending w) ∧
  Forall (λ f, f = None) (take n (pending w)) ∧
  log w' = log w.
Proof.
  intros H n. subst n.
  apply custom_pagerank_ok_inv in H as (w1 & Hinit & [(Hnil & _ & ->)|Hrun]).
  - apply fmap_nil_inv in Hnil. rewrite decide_True by done.
    by eapply costs_execute_query.
  - destruct Hrun as (Hne & w2 & w3 & Hrounds & Hres & Hclean).
    rewrite decide_False by (intros Hnil; apply Hne; unfold match_accounts; by rewrite Hnil).
    replace (2 * iterations + 3)%nat with (1 + (iterations * 2 + (1 + 1)))%nat by lia.
    eapply trips_then; [by eapply costs_execute_query|].
    eapply trips_then; [by eapply (costs_for_range iterations 2), Hrounds; apply costs_round|].
    eapply trips_then; by eapply costs_execute_query.
Qed.

Lemma custom_pagerank_round_trips_witness :
  pending (_custom_pagerank_implementation 1 (85 # 100) six_answers).2 = [None] ∧
  log (_custom_pagerank_implementation 1 (85 # 100) six_answers).2 = [].
Proof.
  destruct (custom_pagerank_round_trips 1 (85 # 100) six_answers
    (match (_custom_pagerank_implementation 1 (85 # 100) six_answers).1 with
     | Ok rows => rows
     | Raise _ => []
     end)
    (_custom_pagerank_implementation 1 (85 # 100) six_answers).2) as (Hp & _ & Hl).
  - vm_compute. reflexivity.
  - split; [exact Hp|exact Hl].
Defined.

End RankingRuns.

(** ** Ranking: the scores on a store that answers *)

Module RankingScores.
Import Cypher CypherFacts Store Analytics Spec StoreFacts Examples Manager Laws.
Import RankingFacts RankingTheorems RankingRuns.

Lemma foldl_invariant_in {A B} (I : A → Prop) (f : A → B → A) (l : list B) (x : A) :
  (∀ x b, b ∈ l → I x → I (f x b)) → I x → I (foldl f x l).
Proof.
  revert x. induction l as [|b l IH]; intros x Hf Hx; [done|]. simpl.
  apply IH; [|apply Hf; [left|done]]. intros x' b' Hb'. apply Hf. by right.
Qed.

(** *** Which accounts the iteration writes to *)

Lemma follower_rows_followed base g k f :
  (k, f) ∈ follower_rows base g → in_follows g k.1 ≠ [].
Proof.
  unfold follower_rows, unwind.
  intros ([k' fs] & Hkf & Hr)%list_elem_of_bind. simpl in Hkf.
  apply list_elem_of_fmap in Hkf as (f' & [= -> ->] & Hf).
  apply list_elem_of_fmap in Hr as ([k1 vs] & [= -> ->] & Hg). simpl in Hf.
  apply elem_of_group_by in Hg as [_ ->].
  apply list_elem_of_omap in Hf as (o & Ho & Hof). simpl in Hof. subst o.
  apply list_elem_of_fmap in Ho as ([k2 o] & Heq & [Hk Ho]%list_elem_of_filter).
  simpl in Hk, Heq. subst k2 o.
  apply list_elem_of_bind in Ho as (a & Ho & _).
  apply list_elem_of_fmap in Ho as (o & [= -> <-] & Ho). simpl.
  intros Hnil. rewrite Hnil in Ho. simpl in Ho.
  by apply list_elem_of_singleton in Ho.
Qed.

Lemma incoming_rows_followed damping g r :
  r ∈ incoming_rows damping g → in_follows g r.1.1 ≠ [].
Proof.
  unfold incoming_rows.
  intros ([k vs] & -> & Hg)%list_elem_of_fmap. simpl.
  apply elem_of_group_by in Hg as [Hk _].
  apply list_elem_of_fmap in Hk as ([k' v] & -> & Hr). simpl.
  apply list_elem_of_fmap in Hr as ([[[a f] base] c] & [= -> ->] & Hr). simpl.
  apply list_elem_of_fmap in Hr as ([k1 os] & Heq & Hg). simpl in Heq.
  injection Heq as <- _.
  apply elem_of_group_by in Hg as [Hk _].
  apply list_elem_of_fmap in Hk as ([k2 o] & Hk2 & Hr). simpl in Hk2. subst k2.
  apply list_elem_of_bind in Hr as ([[a' base'] f'] & Hr & Hf).
  apply list_elem_of_fmap in Hr as (o' & Heq & _). simpl in Heq.
  injection Heq as -> -> -> _.
  by apply follower_rows_followed in Hf.
Qed.

(** *** The state between the queries *)

Lemma scored_write g0 a k v acc :
  k ≠ "pagerank" ∨ (is_Some v ∧ in_follows g0 a ≠ []) →
  scored g0 acc → scored g0 (write_at a k v acc).
Proof.
  intros Hk [Hs H1]. split.
  - unfold write_at. case_bool_decide; [|done]. unfold write_prop.
    destruct Hk as [Hk|[[q ->] _]]; simpl.
    + destruct v; simpl; [by rewrite lookup_insert_ne|by rewrite lookup_delete_ne].
    + destruct (decide (k = "pagerank")) as [->|Hne].
      * rewrite lookup_insert_eq. by eexists.
      * by rewrite lookup_insert_ne.
  - rewrite name_write_at. intros Hn. destruct Hk as [Hk|[_ Hf]].
    + by apply has_rank_write_other, H1.
    + unfold write_at. case_bool_decide as Ha; [|by apply H1]. by subst.
Qed.

Lemma ranking_set_prop g0 g a k v :
  k ≠ "pagerank" ∨ (is_Some v ∧ in_follows g0 a ≠ []) →
  ranking g0 g → ranking g0 (set_prop a k v g).
Proof.
  intros Hc (Hn & Hf & Hall). split_and!.
  - by rewrite match_accounts_set_prop.
  - done.
  - rewrite accounts_set_prop, Forall_fmap. eapply Forall_impl; [done|].
    intros acc. by apply scored_write.
Qed.

Lemma init_query_ranking g :
  ∃ g', init_query g = Ok (g', [length (match_accounts g)]) ∧ ranking g g'.
Proof.
  destruct (init_query_ranked g) as (g' & Hq & Hr & Hn & Hf).
  exists g'. split; [done|]. split_and!; [done..|].
  eapply Forall_impl; [done|]. intros acc Hacc. split; [by eexists|done].
Qed.

Lemma update_prev_query_ranking g0 g :
  ranking g0 g → ∃ g', update_prev_query g = Ok (g', []) ∧ ranking g0 g'.
Proof.
  intros Hr. eexists. split; [reflexivity|].
  apply foldl_invariant; [|done]. intros g1 a ?. apply ranking_set_prop; [by left|done].
Qed.

Lemma iteration_query_ranking damping g0 g :
  ranking g0 g → ∃ g', iteration_query damping g = Ok (g', []) ∧ ranking g0 g'.
Proof.
  intros Hr. eexists. split; [apply iteration_query_stages|].
  apply foldl_invariant_in; [|done].
  intros g1 [[a base] inc] Hin Hg1. apply ranking_set_prop; [|done]. right.
  split; [by eexists|]. apply incoming_rows_followed in Hin. simpl in Hin.
  destruct Hr as (_ & Hf & _). unfold in_follows in *. by rewrite <- Hf.
Qed.

Lemma round_ranking damping g0 w :
  no_faults w → ranking g0 (graph w) →
  ∃ w', round damping w = (Ok tt, w') ∧ no_faults w' ∧ ranking g0 (graph w').
Proof.
  intros Hw Hr. unfold round.
  destruct (update_prev_query_ranking g0 _ Hr) as (g1 & Hq1 & Hr1).
  rewrite (bind_ok _ _ w [] _ (execute_query_ok _ _ _ _ Hw Hq1)).
  destruct (iteration_query_ranking damping g0 _ Hr1) as (g2 & Hq2 & Hr2).
  erewrite bind_ok; [|by apply execute_query_ok]. by eexists.
Qed.

Lemma rounds_ranking damping g0 n : ∀ w,
  no_faults w → ranking g0 (graph w) →
  ∃ w', for_range n (round damping) w = (Ok tt, w') ∧ no_faults w' ∧
        ranking g0 (graph w').
Proof.
  induction n as [|n IH]; intros w Hw Hr; simpl; [by eexists|].
  destruct (round_ranking damping g0 w Hw Hr) as (w1 & Hq1 & Hw1 & Hr1).
  rewrite (bind_ok _ _ w tt w1 Hq1). by apply IH.
Qed.

(** *** The rows of the final read *)

Lemma rank_before_total r1 r2 :
  rank_before r1 r2 = false → rank_before r2 r1 = true.
Proof.
  unfold rank_before, desc_nullable, Qgeb.
  destruct (pagerank r1) as [a|], (pagerank r2) as [b|]; try done.
  intros H. apply Qle_bool_iff. apply Qlt_le_weak, Qnot_le_lt.
  intros Hle%Qle_bool_iff. congruence.
Qed.

Lemma rank_before_trans r1 r2 r3 :
  rank_before r1 r2 = true → rank_before r2 r3 = true → rank_before r1 r3 = true.
Proof.
  unfold rank_before, desc_nullable, Qgeb.
  destruct (pagerank r1) as [a|], (pagerank r2) as [b|], (pagerank r3) as [c|];
    try done.
  rewrite !Qle_bool_iff. intros ??. by apply Qle_trans with b.
Qed.

Lemma StronglySorted_mono_in {A} (R1 R2 : relation A) l :
  (∀ x y, x ∈ l → y ∈ l → R1 x y → R2 x y) →
  StronglySorted R1 l → StronglySorted R2 l.
Proof.
  intros Hm Hs. induction Hs as [|x l Hs IH Hx]; constructor.
  - apply IH. intros y z Hy Hz. apply Hm; by right.
  - rewrite Forall_forall in *. intros y Hy. apply Hm; [left|by right|by apply Hx].
Qed.

Lemma node_prop_scored g0 g a :
  Forall (scored g0) (accounts g) → a ∈ match_accounts g →
  ∃ acc, node_prop g a "pagerank" = props acc !! "pagerank" ∧
         name acc = a ∧ scored g0 acc.
Proof.
  intros Hr (acc & -> & Hacc)%list_elem_of_fmap. unfold node_prop.
  destruct (filter _ (accounts g)) as [|acc' l] eqn:Hfl.
  - assert (Hin : acc ∈ filter (λ acc0, name acc0 = name acc) (accounts g))
      by by apply list_elem_of_filter.
    rewrite Hfl in Hin. by apply not_elem_of_nil in Hin.
  - assert (Hin : acc' ∈ filter (λ acc0, name acc0 = name acc) (accounts g))
      by (rewrite Hfl; left).
    apply list_elem_of_filter in Hin as [Hn Hin].
    rewrite Forall_forall in Hr. exists acc'. split_and!; [done..|by apply Hr].
Qed.

Lemma result_query_ranking g0 g :
  ranking g0 g →
  ∃ rows, result_query g = Ok (g, rows) ∧
    account <$> rows ≡ₚ match_accounts g0 ∧
    StronglySorted rank_desc rows ∧
    ∀ r, r ∈ rows →
      is_Some (pagerank r) ∧
      (in_follows g0 (account r) = [] → pagerank r = Some 1%Q).
Proof.
  intros (Hn & Hf & Hall). eexists. split; [reflexivity|].
  assert (Hrows : ∀ r,
    r ∈ order_by rank_before
          ((λ a, {| account := a; pagerank := node_prop g a "pagerank" |})
             <$> match_accounts g) →
    is_Some (pagerank r) ∧
    (in_follows g0 (account r) = [] → pagerank r = Some 1%Q)).
  { intros r (a & -> & Ha)%elem_of_order_by%list_elem_of_fmap. simpl.
    destruct (node_prop_scored g0 g a Hall Ha) as (acc & -> & <- & Hs & H1).
    split; [done|]. intros Hnil. by apply H1. }
  split_and!; [|
    |done].
  - rewrite order_by_perm, <- list_fmap_compose, <- Hn. by rewrite list_fmap_id.
  - eapply StronglySorted_mono_in;
      [|apply order_by_sorted; [apply rank_before_total|apply rank_before_trans]].
    intros r1 r2 [[q1 H1] _]%Hrows [[q2 H2] _]%Hrows Hb%Is_true_true.
    exists q1, q2. split_and!; [done..|].
    unfold rank_before, desc_nullable, Qgeb in Hb. rewrite H1, H2 in Hb.
    by apply Qle_bool_iff.
Qed.

Section CalmRun.
Context (J : Graph → Prop) (iterations : nat) (damping : Q) (g : Graph).
Hypothesis J_init :
  ∀ g', init_query g = Ok (g', [length (match_accounts g)]) → J g'.
Hypothesis J_update : ∀ g1 g2, J g1 → update_prev_query g1 = Ok (g2, []) → J g2.
Hypothesis J_iteration :
  ∀ g1 g2, J g1 → iteration_query damping g1 = Ok (g2, []) → J g2.

Lemma rounds_calm n : ∀ w,
  no_faults w → J (graph w) →
  ∃ w', for_range n (round damping) w = (Ok tt, w') ∧ no_faults w' ∧ J (graph w').
Proof.
  induction n as [|n IH]; intros w Hw HJ; simpl; [by eexists|].
  assert (Hround : ∃ w1, round damping w = (Ok tt, w1) ∧ no_faults w1 ∧ J (graph w1)).
  { unfold round.
    erewrite bind_ok; [|by apply execute_query_ok].
    erewrite bind_ok; [|by apply execute_query_ok].
    eexists. split; [reflexivity|]. split; [done|]. simpl.
    eapply J_iteration; [|reflexivity]. eapply J_update; [exact HJ|reflexivity]. }
  destruct Hround as (w1 & Hq1 & Hw1 & HJ1).
  rewrite (bind_ok _ _ w tt w1 Hq1). by apply IH.
Qed.

Lemma calm_run :
  ∃ rows w',
    _custom_pagerank_implementation iterations damping (calm g) = (Ok rows, w') ∧
    ((match_accounts g = [] ∧ rows = []) ∨
     ∃ g3, J g3 ∧ result_query g3 = Ok (g3, rows)).
Proof.
  unfold _custom_pagerank_implementation.
  destruct (init_query_ranked g) as (g1 & Hq1 & _).
  erewrite bind_ok; [|by apply execute_query_ok].
  destruct (match_accounts g) as [|a l] eqn:Hacc; simpl.
  { eexists _, _. split; [reflexivity|]. by left. }
  rewrite <- Hacc in *. clear a l Hacc.
  edestruct (rounds_calm iterations) as (w2 & Hq2 & Hw2 & HJ2);
    [| |fold (round damping); erewrite bind_ok; [|exact Hq2]];
    [done|by apply J_init|].
  erewrite bind_ok; [|by apply execute_query_ok].
  destruct (cleanup_query_clean (graph w2)) as (g4 & Hq4 & _).
  erewrite bind_ok; [|by apply execute_query_ok].
  eexists _, _. split; [reflexivity|]. right. by exists (graph w2).
Qed.
End CalmRun.

Lemma custom_pagerank_calm g iterations damping :
  ∃ rows w',
    _custom_pagerank_implementation iterations damping (calm g) = (Ok rows, w') ∧
    account <$> rows ≡ₚ match_accounts g ∧
    StronglySorted rank_desc rows ∧
    ∀ r, r ∈ rows →
      is_Some (pagerank r) ∧
      (in_follows g (account r) = [] → pagerank r = Some 1%Q).
Proof.
  destruct (calm_run (ranking g) iterations damping g)
    as (rows & w' & Hrun & [[Hnil ->]|(g3 & HJ & Hres)]).
  - intros g' Hq. destruct (init_query_ranking g) as (g1 & Hq1 & Hr1).
    rewrite Hq1 in Hq. by injection Hq as <-.
  - intros g1 g2 HJ Hq.
    destruct (update_prev_query_ranking g g1 HJ) as (g2' & Hq' & HJ').
    rewrite Hq' in Hq. by injection Hq as <-.
  - intros g1 g2 HJ Hq.
    destruct (iteration_query_ranking damping g g1 HJ) as (g2' & Hq' & HJ').
    rewrite Hq' in Hq. by injection Hq as <-.
  - exists [], w'. split_and!; [done|by rewrite Hnil|constructor|].
    by intros r ?%not_elem_of_nil.
  - exists rows, w'. split; [done|].
    destruct (result_query_ranking g g3 HJ) as (rows' & Hres' & Hrows).
    rewrite Hres' in Hres. by injection Hres as <-.
Qed.

(** Property X17.  On a store that answers, whatever the graph, the number of iterations
    and the damping, _custom_pagerank_implementation returns one row per
    account, each with a score, the rows in descending order of score. *)
Theorem custom_pagerank_ranks_every_account g iterations damping :
  ∃ rows w',
    _custom_pagerank_implementation iterations damping (calm g) = (Ok rows, w') ∧
    account <$> rows ≡ₚ match_accounts g ∧
    (∀ r, r ∈ rows → is_Some (pagerank r)) ∧
    StronglySorted rank_desc rows.
Proof.
  destruct (custom_pagerank_calm g iterations damping)
    as (rows & w' & Hrun & Hperm & Hsort & Hrows).
  exists rows, w'. split_and!; [done..| |done]. intros r Hr. by apply Hrows.
Qed.

(** Property X18.  Whatever the graph, the number of iterations and the damping, an
    account that nobody follows is returned with the score 1.0 that the
    first query gave it: the iteration never writes to it. *)
Theorem custom_pagerank_unfollowed_score_one g iterations damping rows w' :
  _custom_pagerank_implementation iterations damping (calm g) = (Ok rows, w') →
  ∀ r, r ∈ rows → in_follows g (account r) = [] → pagerank r = Some 1%Q.
Proof.
  destruct (custom_pagerank_calm g iterations damping)
    as (rows' & w'' & Hrun & _ & _ & Hrows).
  rewrite Hrun. intros [= <- <-] r Hr. by apply Hrows.
Qed.

Lemma custom_pagerank_unfollowed_score_one_witness :
  ∃ rows r,
    (_custom_pagerank_implementation 3 (85 # 100) (calm abc_graph)).1 = Ok rows ∧
    r ∈ rows ∧ account r = "C" ∧ in_follows abc_graph "C" = [] ∧
    pagerank r = Some 1%Q.
Proof.
  eexists _, {| account := "C"; pagerank := _ |}.
  split; [vm_compute; reflexivity|].
  split; [right; left|]. split; [reflexivity|]. split; [reflexivity|].
  eapply (custom_pagerank_unfollowed_score_one abc_graph 3 (85 # 100) _
    (_custom_pagerank_implementation 3 (85 # 100) (calm abc_graph)).2).
  - vm_compute. reflexivity.
  - right. left.
  - reflexivity.
Defined.

(** *** A lower bound on the scores *)

Lemma in_range_write lo a k v acc :
  (k = "pagerank" ∧ ∃ p, v = Some p ∧ (lo <= p)%Q) ∨
  (k = "prevPagerank" ∧ ∀ q, v = Some q → (0 <= q)%Q) →
  in_range lo acc → in_range lo (write_at a k v acc).
Proof.
  intros Hk [Hp Hq]. unfold write_at. case_bool_decide; [|done].
  unfold in_range, write_prop. simpl.
  destruct Hk as [[-> (p & -> & Hlo)]|[-> Hv]].
  - split; [exists p; split; [apply lookup_insert_eq|exact Hlo]|].
    intros q. rewrite lookup_insert_ne by done. apply Hq.
  - split.
    + destruct v; [by rewrite lookup_insert_ne|by rewrite lookup_delete_ne].
    + intros q. destruct v as [q'|].
      * rewrite lookup_insert_eq. intros [= <-]. by apply Hv.
      * by rewrite lookup_delete_eq.
Qed.

Lemma node_prop_elem g a key q :
  node_prop g a key = Some q → ∃ acc, acc ∈ accounts g ∧ props acc !! key = Some q.
Proof.
  unfold node_prop. destruct (filter _ (accounts g)) as [|acc l] eqn:Hfl; [done|].
  intros Hq. exists acc. split; [|done].
  assert (Hin : acc ∈ filter (λ acc0, name acc0 = a) (accounts g))
    by (rewrite Hfl; left).
  by apply list_elem_of_filter in Hin as [_ ?].
Qed.

Lemma sum_nonneg (l : list (option Q)) :
  (∀ q, Some q ∈ l → (0 <= q)%Q) → (0 <= sum l)%Q.
Proof.
  unfold sum, collect. induction l as [|[q|] l IH]; intros Hl; simpl.
  - apply Qle_refl.
  - assert (0 <= q)%Q by (apply Hl; left).
    assert (0 <= foldr Qplus 0 (omap id l))%Q by (apply IH; intros; apply Hl; by right).
    change 0%Q with (0 + 0)%Q at 1. by apply Qplus_le_compat.
  - apply IH. intros q Hq. apply Hl. by right.
Qed.

Lemma follower_rows_base base g k f : (k, f) ∈ follower_rows base g → k.2 = base.
Proof.
  unfold follower_rows, unwind.
  intros ([k' fs] & Hkf & Hr)%list_elem_of_bind. simpl in Hkf.
  apply list_elem_of_fmap in Hkf as (f' & [= -> ->] & Hf).
  apply list_elem_of_fmap in Hr as ([k1 vs] & [= -> ->] & Hg).
  apply elem_of_group_by in Hg as [Hk _].
  apply list_elem_of_fmap in Hk as ([k2 o] & Heq & Ho). simpl in Heq. subst k2.
  apply list_elem_of_bind in Ho as (a & Ho & _).
  by apply list_elem_of_fmap in Ho as (o' & [= -> _] & _).
Qed.

Lemma incoming_rows_bounds lo damping g r :
  (0 <= lo)%Q → Forall (in_range lo) (accounts g) →
  r ∈ incoming_rows damping g → r.1.2 = (1 - damping)%Q ∧ (0 <= r.2)%Q.
Proof.
  intros Hlo Hall. unfold incoming_rows.
  intros ([k vs] & -> & Hg)%list_elem_of_fmap. simpl.
  apply elem_of_group_by in Hg as [Hk ->].
  set (rows5 := (λ r, (r.1, count r.2)) <$> group_by _).
  assert (Hrow : ∀ k' o, (k', o) ∈
      (λ '((a, f, base), outlinks_count),
         ((a, base),
          if (0 <? outlinks_count)%nat
          then (λ v, v / of_nat outlinks_count)%Q <$> node_prop g f "prevPagerank"
          else Some 0%Q)) <$> rows5 →
    k'.2 = (1 - damping)%Q ∧ ∀ q, o = Some q → (0 <= q)%Q).
  { intros k' o ([[[a f] base] c] & [= -> ->] & Hr)%list_elem_of_fmap. simpl. split.
    - apply list_elem_of_fmap in Hr as ([k1 os] & Heq & Hg). simpl in Heq.
      injection Heq as <- _.
      apply elem_of_group_by in Hg as [Hk1 _].
      apply list_elem_of_fmap in Hk1 as ([k2 o] & Hk2 & Hr). simpl in Hk2. subst k2.
      apply list_elem_of_bind in Hr as ([[a' base'] f'] & Hr & Hf).
      apply list_elem_of_fmap in Hr as (o' & Heq & _). simpl in Heq.
      injection Heq as -> -> -> _.
      by apply follower_rows_base in Hf.
    - intros q. destruct (0 <? c)%nat eqn:Hc; [|intros [= <-]; apply Qle_refl].
      destruct (node_prop g f "prevPagerank") as [v|] eqn:Hv; [|done].
      intros [= <-]. apply node_prop_elem in Hv as (acc & Hacc & Hv).
      rewrite Forall_forall in Hall. destruct (Hall acc Hacc) as [_ Hprev].
      apply Qle_shift_div_l.
      + apply of_nat_pos. by apply Nat.ltb_lt.
      + rewrite Qmult_0_l. by apply Hprev. }
  split.
  - apply list_elem_of_fmap in Hk as ([k' o] & -> & Hr). by apply Hrow in Hr as [? _].
  - apply sum_nonneg. intros q ([k' o] & Heq & [_ Hr]%list_elem_of_filter)%list_elem_of_fmap.
    simpl in Heq. subst o. apply Hrow in Hr as [_ Hq]. by apply Hq.
Qed.

Lemma in_range_set_prop lo g a k v :
  (k = "pagerank" ∧ ∃ p, v = Some p ∧ (lo <= p)%Q) ∨
  (k = "prevPagerank" ∧ ∀ q, v = Some q → (0 <= q)%Q) →
  Forall (in_range lo) (accounts g) →
  Forall (in_range lo) (accounts (set_prop a k v g)).
Proof.
  intros Hk Hall. rewrite accounts_set_prop, Forall_fmap.
  eapply Forall_impl; [done|]. intros acc. by apply in_range_write.
Qed.

Lemma custom_pagerank_calm_bounded g iterations damping :
  (0 <= damping <= 1)%Q →
  ∃ rows w',
    _custom_pagerank_implementation iterations damping (calm g) = (Ok rows, w') ∧
    ∀ r, r ∈ rows → ∃ q, pagerank r = Some q ∧ (1 - damping <= q)%Q.
Proof.
  intros [Hd0 Hd1].
  assert (Hlo : (0 <= 1 - damping)%Q) by lra.
  destruct (calm_run (λ g', Forall (in_range (1 - damping)) (accounts g'))
              iterations damping g)
    as (rows & w' & Hrun & [[Hnil ->]|(g3 & HJ & Hres)]).
  - intros g' [= <-].
    apply (foldl_accounts _ (in_range (1 - damping))
      (λ a acc, write_at a "prevPagerank" (Some 0%Q)
                  (write_at a "pagerank" (Some 1%Q) acc))).
    + intros g' a. by rewrite !accounts_set_prop, <- list_fmap_compose.
    + intros a acc. by rewrite !name_write_at.
    + intros a acc Ha. rewrite write_at_twice, bool_decide_eq_true_2 by done.
      unfold in_range. simpl. split.
      * exists 1%Q. rewrite lookup_insert_ne, lookup_insert_eq by done.
        split; [done|lra].
      * intros q. rewrite lookup_insert_eq. intros [= <-]. lra.
    + intros a acc Hacc. rewrite write_at_twice. case_bool_decide; [|done].
      unfold in_range. simpl. split.
      * exists 1%Q. rewrite lookup_insert_ne, lookup_insert_eq by done.
        split; [done|lra].
      * intros q. rewrite lookup_insert_eq. intros [= <-]. lra.
  - intros g1 g2 HJ [= <-]. apply foldl_invariant; [|done].
    intros g' a Hg'. apply in_range_set_prop; [|done]. right. split; [done|].
    intros q (acc & Hacc & Hq)%node_prop_elem.
    rewrite Forall_forall in Hg'. destruct (Hg' acc Hacc) as [(p & Hp & Hle) _].
    assert (p = q) by congruence. subst. lra.
  - intros g1 g2 HJ. rewrite iteration_query_stages. intros [= <-].
    apply foldl_invariant_in; [|done].
    intros g' [[a base] inc] Hin Hg'.
    apply (incoming_rows_bounds _ _ _ _ Hlo HJ) in Hin as [Hb Hi]. simpl in *. subst.
    apply in_range_set_prop; [|done]. left. split; [done|].
    eexists. split; [done|]. 
    assert (0 <= damping * inc)%Q by by apply Qmult_le_0_compat. lra.
  - exists [], w'. split; [done|]. by intros r ?%not_elem_of_nil.
  - exists rows, w'. split; [done|]. injection Hres as <-.
    intros r (a & -> & Ha)%elem_of_order_by%list_elem_of_fmap. simpl.
    apply list_elem_of_fmap in Ha as (acc & -> & Hacc). unfold node_prop.
    destruct (filter _ (accounts g3)) as [|acc' l] eqn:Hfl.
    + assert (Hin : acc ∈ filter (λ acc0, name acc0 = name acc) (accounts g3))
        by by apply list_elem_of_filter.
      rewrite Hfl in Hin. by apply not_elem_of_nil in Hin.
    + assert (Hin : acc' ∈ filter (λ acc0, name acc0 = name acc) (accounts g3))
        by (rewrite Hfl; left).
      apply list_elem_of_filter in Hin as [_ Hin].
      rewrite Forall_forall in HJ. by destruct (HJ acc' Hin) as [? _].
Qed.

(** Property X19.  With a damping between 0 and 1, on a store that answers, no account
    is returned with a score below 1 - damping. *)
Theorem custom_pagerank_scores_bounded_below g iterations damping rows w' :
  (0 <= damping <= 1)%Q →
  _custom_pagerank_implementation iterations damping (calm g) = (Ok rows, w') →
  ∀ r, r ∈ rows → ∃ q, pagerank r = Some q ∧ (1 - damping <= q)%Q.
Proof.
  intros Hd.
  destruct (custom_pagerank_calm_bounded g iterations damping Hd)
    as (rows' & w'' & Hrun & Hrows).
  rewrite Hrun. intros [= <- <-]. done.
Qed.

Lemma custom_pagerank_scores_bounded_below_witness :
  ∃ rows r,
    (_custom_pagerank_implementation 2 (85 # 100) (calm abc_graph)).1 = Ok rows ∧
    r ∈ rows ∧ account r = "B" ∧
    ∃ q, pagerank r = Some q ∧ (1 - (85 # 100) <= q)%Q.
Proof.
  eexists _, {| account := "B"; pagerank := _ |}.
  split; [vm_compute; reflexivity|].
  split; [right; right; left|]. split; [reflexivity|].
  eapply (custom_pagerank_scores_bounded_below abc_graph 2 (85 # 100) _
    (_custom_pagerank_implementation 2 (85 # 100) (calm abc_graph)).2).
  - split; [vm_compute; discriminate|vm_compute; discriminate].
  - vm_compute. reflexivity.
  - right. right. left.
Defined.

End RankingScores.

(** ** Ranking: a run that raises *)

Module RankingFailures.
Import Cypher CypherFacts Store Analytics Spec StoreFacts Examples Manager Laws.
Import RankingFacts RankingTheorems RankingRuns RankingScores.

Lemma execute_query_raise_inv {R} (q : Graph → result (Graph * list R)) w e w' :
  execute_query q w = (Raise e, w') →
  graph w' = graph w ∧
  (head (pending w) = Some (Some e) ∨ q (graph w) = Raise e).
Proof.
  unfold execute_query. destruct (pending w) as [|[e0|] l]; simpl.
  - destruct (q (graph w)) as [[g r]|e0]; intros H; simplify_eq; auto.
  - intros H. simplify_eq. auto.
  - destruct (q (graph w)) as [[g r]|e0]; intros H; simplify_eq; auto.
Qed.

(** *** Both properties stay on every account until the cleanup *)

Lemma rank_state_left_write a k v acc :
  is_Some v → rank_state_left acc → rank_state_left (write_at a k v acc).
Proof.
  intros [q ->] [H1 H2]. unfold write_at. case_bool_decide; [|done].
  unfold rank_state_left, write_prop. simpl.
  split; apply lookup_insert_is_Some'; auto.
Qed.

Lemma rank_state_left_set_prop names g a k v :
  is_Some v →
  match_accounts g = names ∧ Forall rank_state_left (accounts g) →
  match_accounts (set_prop a k v g) = names ∧
  Forall rank_state_left (accounts (set_prop a k v g)).
Proof.
  intros Hv [Hn Hall]. split; [by rewrite match_accounts_set_prop|].
  rewrite accounts_set_prop, Forall_fmap. eapply Forall_impl; [done|].
  intros acc. by apply rank_state_left_write.
Qed.

Lemma node_prop_left g a :
  Forall rank_state_left (accounts g) → a ∈ match_accounts g →
  is_Some (node_prop g a "pagerank").
Proof.
  intros Hr (acc & -> & Hacc)%list_elem_of_fmap. unfold node_prop.
  destruct (filter _ (accounts g)) as [|acc' l] eqn:Hfl.
  - assert (Hin : acc ∈ filter (λ acc0, name acc0 = name acc) (accounts g))
      by by apply list_elem_of_filter.
    rewrite Hfl in Hin. by apply not_elem_of_nil in Hin.
  - assert (Hin : acc' ∈ filter (λ acc0, name acc0 = name acc) (accounts g))
      by (rewrite Hfl; left).
    apply list_elem_of_filter in Hin as [_ Hin].
    rewrite Forall_forall in Hr. by destruct (Hr acc' Hin).
Qed.

Lemma init_query_left g g' rows :
  init_query g = Ok (g', rows) →
  match_accounts g' = match_accounts g ∧ Forall rank_state_left (accounts g').
Proof.
  intros Hq. destruct (init_query_ranked g) as (g1 & Hq1 & _ & Hn & _).
  rewrite Hq1 in Hq. injection Hq as <- _. split; [done|].
  injection Hq1 as <-.
  apply (foldl_accounts _ rank_state_left
    (λ a acc, write_at a "prevPagerank" (Some 0%Q)
                (write_at a "pagerank" (Some 1%Q) acc))).
  - intros g' a. by rewrite !accounts_set_prop, <- list_fmap_compose.
  - intros a acc. by rewrite !name_write_at.
  - intros a acc Ha. rewrite write_at_twice, bool_decide_eq_true_2 by done.
    unfold rank_state_left. simpl.
    split; apply lookup_insert_is_Some'; [right; apply lookup_insert_is_Some'|]; auto.
  - intros a acc Hacc.
    apply rank_state_left_write; [by eexists|].
    apply rank_state_left_write; [by eexists|done].
Qed.

Lemma update_prev_query_left names g g' (rows : list unit) :
  match_accounts g = names ∧ Forall rank_state_left (accounts g) →
  update_prev_query g = Ok (g', rows) →
  match_accounts g' = names ∧ Forall rank_state_left (accounts g').
Proof.
  intros Hg [= <- <-].
  apply (foldl_invariant_in
    (λ g1, match_accounts g1 = names ∧ Forall rank_state_left (accounts g1)));
    [|done].
  intros g1 a Ha [Hn1 Hall1]. apply rank_state_left_set_prop; [|done].
  apply node_prop_left; [done|]. destruct Hg as [Hn _]. congruence.
Qed.

Lemma iteration_query_left damping names g g' (rows : list unit) :
  match_accounts g = names ∧ Forall rank_state_left (accounts g) →
  iteration_query damping g = Ok (g', rows) →
  match_accounts g' = names ∧ Forall rank_state_left (accounts g').
Proof.
  rewrite iteration_query_stages. intros Hg [= <- <-].
  apply foldl_invariant; [|done].
  intros g1 [[a base] inc] Hg1. by apply rank_state_left_set_prop.
Qed.

Lemma round_keeps_left damping names :
  keeps (λ g, match_accounts g = names ∧ Forall rank_state_left (accounts g))
    (round damping).
Proof.
  unfold round. apply keeps_bind.
  { apply keeps_execute_query. intros g g' rows. apply update_prev_query_left. }
  intros _. apply keeps_bind; [|intros; apply keeps_ret].
  apply keeps_execute_query. intros g g' rows. apply iteration_query_left.
Qed.

(** Claim C4.  The claim does not hold of the code: cleanup is the last
    statement of [_custom_pagerank_implementation] and nothing guards it.
    For every store and every schedule of failures: when the run returns,
    no account has the pagerank or the prevPagerank property; when it
    raises, then either the first round trip failed and the graph is
    untouched, or a later one failed, and then the cleanup query did not
    run: there is an account, and every account holds both properties. *)
Theorem custom_pagerank_cleanup_outcomes iterations damping w r w' :
  _custom_pagerank_implementation iterations damping w = (r, w') →
  match r with
  | Ok _ => Forall no_rank_state (accounts (graph w'))
  | Raise e =>
      (head (pending w) = Some (Some e) ∧ graph w' = graph w) ∨
      (accounts (graph w') ≠ [] ∧
       Forall rank_state_left (accounts (graph w')))
  end.
Proof.
  intros H. destruct r as [rows|e]; [by eapply custom_pagerank_cleans_up|].
  unfold _custom_pagerank_implementation in H.
  destruct (execute_query init_query w) as [[result|e0] w1] eqn:Hinit.
  2:{ rewrite (bind_raise _ _ _ _ _ Hinit) in H. injection H as <- <-. left.
      by apply execute_query_raise_inv in Hinit as [Hg [Hh|Hq]]. }
  rewrite (bind_ok _ _ _ _ _ Hinit) in H.
  apply execute_query_inv in Hinit.
  pose proof (init_query_left _ _ _ Hinit) as Hleft.
  injection Hinit as _ <-.
  destruct (match_accounts (graph w)) as [|a l] eqn:Hacc; simpl in H; [done|].
  right. fold (round damping) in H.
  set (P := λ g, match_accounts g = a :: l ∧
                 Forall rank_state_left (accounts g)) in *.
  assert (Hend : P (graph w')).
  { pose proof (keeps_for_range P iterations (round damping)
      (round_keeps_left damping (a :: l)) w1 Hleft) as H2.
    destruct (for_range iterations (round damping) w1) as [[[]|e1] w2] eqn:HA;
      simpl in H2.
    2:{ rewrite (bind_raise _ _ _ _ _ HA) in H. by injection H as <- <-. }
    rewrite (bind_ok _ _ _ _ _ HA) in H.
    pose proof (keeps_execute_query P result_query
      (λ g g' rows HP Hq, result_query_keeps P g g' rows HP Hq) w2 H2) as H3.
    destruct (execute_query result_query w2) as [[results|e2] w3] eqn:HB;
      simpl in H3.
    2:{ rewrite (bind_raise _ _ _ _ _ HB) in H. by injection H as <- <-. }
    rewrite (bind_ok _ _ _ _ _ HB) in H.
    destruct (execute_query cleanup_query w3) as [[out|e3] w4] eqn:HC.
    { by rewrite (bind_ok _ _ _ _ _ HC) in H. }
    rewrite (bind_raise _ _ _ _ _ HC) in H. injection H as <- <-.
    apply execute_query_raise_inv in HC as [-> _]. done. }
  destruct Hend as [Hn Hall]. split; [|done].
  intros Hnil. unfold match_accounts in Hn. by rewrite Hnil in Hn.
Qed.

Lemma custom_pagerank_cleanup_outcomes_witness :
  ∃ w', _custom_pagerank_implementation 1 (85 # 100) read_fails =
          (Raise StoreUnavailable, w') ∧
        accounts (graph w') ≠ [] ∧
        Forall rank_state_left (accounts (graph w')).
Proof.
  exists (_custom_pagerank_implementation 1 (85 # 100) read_fails).2.
  assert (Hrun : _custom_pagerank_implementation 1 (85 # 100) read_fails =
                 (Raise StoreUnavailable,
                  (_custom_pagerank_implementation 1 (85 # 100) read_fails).2))
    by (vm_compute; reflexivity).
  split; [exact Hrun|].
  destruct (custom_pagerank_cleanup_outcomes 1 (85 # 100) read_fails _ _ Hrun)
    as [[Hh _]|H]; [discriminate Hh|exact H].
Defined.

End RankingFailures.

(** ** The profile parser: the loop over the operator blocks *)

Module ProfileLoop.
Import Re Profile ReFacts ProfileFacts ProfileLaws.

(** *** Numbers are not negative *)

Lemma digit_val_nonneg c : is_digit c = true → 0 ≤ digit_val c.
Proof.
  unfold is_digit, between, digit_val. intros [H _]%andb_true_iff.
  apply N.leb_le in H. lia.
Qed.

Lemma digits_val_nonneg s : ∀ acc v, 0 ≤ acc → digits_val acc s = Ok v → 0 ≤ v.
Proof.
  induction s as [|c s IH]; simpl; intros acc v Hacc.
  - by intros [= <-].
  - destruct (is_digit c) eqn:Hc; [|done]. apply IH.
    pose proof (digit_val_nonneg c Hc). lia.
Qed.

Lemma py_digits_nonneg s v : py_digits s = Ok v → 0 ≤ v.
Proof. destruct s; [done|]. by apply digits_val_nonneg. Qed.

Lemma py_int_nonneg s v : py_int s = Ok v → 0 ≤ v.
Proof.
  unfold py_int. destruct (_ <? _)%nat; [done|]. apply py_digits_nonneg.
Qed.

Lemma int_group_nonneg m i v : int_group m i = Ok v → 0 ≤ v.
Proof.
  unfold int_group, group. destruct (lookup_group i (m_caps m)); [|done].
  apply py_int_nonneg.
Qed.

Lemma py_float_nonneg s q : py_float s = Ok q → (0 <= q)%Q.
Proof.
  unfold py_float. destruct (split_dot s) as [[a b]|]; [|done].
  destruct (py_digits a) as [ip|] eqn:Ha; [|done]. simpl.
  destruct (py_digits b) as [fp|] eqn:Hb; [|done]. simpl. intros [= <-].
  apply py_digits_nonneg in Ha, Hb. rewrite Qred_correct.
  unfold Qle. simpl. 
  assert (0 ≤ 10 ^ Z.of_nat (String.length b)) by (apply Z.pow_nonneg; lia).
  nia.
Qed.

Lemma float_group_nonneg m i q : float_group m i = Ok q → (0 <= q)%Q.
Proof.
  unfold float_group, group. destruct (lookup_group i (m_caps m)); [|done].
  apply py_float_nonneg.
Qed.

Lemma name_pat_alpha s m :
  re_search name_pat s = Some m →
  ∃ g, group m 1 = Ok g ∧ all_chars is_alpha g = true.
Proof.
  intros H. found H. unfold name_pat in H.
  apply matches_group_inv in H as (cs0 & H & ->).
  apply matches_plus_chr in H as [-> (pre & -> & Hne & Hall)].
  unfold group. simpl. rewrite consumed_app. eauto.
Qed.

(** *** One block *)

Lemma foldr_max_nonneg l : 0 ≤ foldr Z.max 0 l.
Proof. induction l; simpl; lia. Qed.

Lemma foldr_max_snoc l e : 0 ≤ e → foldr Z.max 0 (l ++ [e]) = Z.max (foldr Z.max 0 l) e.
Proof. intros He. induction l as [|x l IH]; simpl; [lia|]. rewrite IH. lia. Qed.

Lemma foldr_add_snoc l e : foldr Z.add 0 (l ++ [e]) = foldr Z.add 0 l + e.
Proof. induction l as [|x l IH]; simpl; [lia|]. rewrite IH. lia. Qed.

(** A search whose group [int] converts, in a run that returns. *)
Ltac search_returned p :=
  let E := fresh "E" in
  let Hv := fresh "Hv" in
  let mm := fresh "mm" in
  destruct (re_search p _) as [mm|] eqn:E;
  [destruct (int_group mm 1) as [?|] eqn:Hv;
   [pose proof (int_group_nonneg _ _ _ Hv)|]|]; simpl; try done.

Lemma parse_block_shape st block st' :
  parse_block st block = Ok st' →
  ∃ op, (st'.2 = st.2 ++ [op])%list ∧
    same_summary st.1 st'.1 ∧
    all_chars is_alpha (op_name op) = true ∧
    0 ≤ op_db_hits op ∧ 0 ≤ op_rows op ∧ 0 ≤ op_elapsed_ms op ∧
    db_hits st'.1 = db_hits st.1 + op_db_hits op ∧
    (rows st'.1 = op_rows op ∧ block_rows block = Some (op_rows op) ∨
     rows st'.1 = rows st.1 ∧ block_rows block = None) ∧
    (elapsed_time_ms st'.1 = Z.max (elapsed_time_ms st.1) (op_elapsed_ms op) ∨
     elapsed_time_ms st'.1 = elapsed_time_ms st.1 ∧ op_elapsed_ms op = 0) ∧
    (indexes_used st'.1 = indexes_used st.1 ∨
     ∃ i, (i ∉ indexes_used st.1) ∧
          indexes_used st'.1 = (indexes_used st.1 ++ [i])%list).
Proof.
  destruct st as [m ops]. unfold parse_block, block_rows.
  destruct (re_search name_pat block) as [?|] eqn:En;
    [destruct (name_pat_alpha _ _ En) as (nm & -> & Hnm)|]; simpl;
  search_returned db_hits_pat;
  search_returned rows_pat;
  search_returned elapsed_pat;
  (destruct (re_search index_pat block) as [?|] eqn:Ei;
    [destruct (index_pat_group _ _ Ei) as [ix ->]|]; simpl);
  try case_bool_decide; simpl; intros [= <-]; simpl;
  (eexists; split; [reflexivity|]; simpl;
   split; [by repeat split|]; split_and!; try done; try lia; eauto 6).
Qed.

Lemma parse_block_totals st block st' :
  totals st → parse_block st block = Ok st' → totals st'.
Proof.
  intros [Hd He Hi Hil Hr Ho] Hb.
  apply parse_block_shape in Hb
    as (op & Hops & _ & Hname & Hh & Hrows & Hel & Hdb & Hrw & Hmax & Hix).
  split; rewrite ?Hops.
  - rewrite fmap_app. change (op_db_hits <$> [op]) with [op_db_hits op].
    rewrite foldr_add_snoc. lia.
  - rewrite fmap_app. change (op_elapsed_ms <$> [op]) with [op_elapsed_ms op].
    rewrite foldr_max_snoc by done.
    destruct Hmax as [->|[-> ->]]; [by rewrite He|].
    rewrite He. pose proof (foldr_max_nonneg (op_elapsed_ms <$> st.2)). lia.
  - destruct Hix as [->|(i & Hi' & ->)]; [done|].
    apply NoDup_app. split_and!; [done| |apply NoDup_singleton].
    by intros x Hx ->%list_elem_of_singleton.
  - rewrite length_app. simpl.
    destruct Hix as [->|(i & Hi' & ->)]; [lia|]. rewrite length_app. simpl. lia.
  - destruct Hrw as [[-> _]|[-> _]]; done.
  - apply Forall_app. split; [done|]. by apply Forall_singleton.
Qed.

Lemma parse_blocks_keeps (I : Metrics * list Operator → Prop) :
  (∀ st b st', I st → parse_block st b = Ok st' → I st') →
  ∀ blocks st st', I st → parse_blocks st blocks = Ok st' → I st'.
Proof.
  intros Hstep. induction blocks as [|b blocks IH]; intros st st' HI; simpl.
  - by intros [= <-].
  - destruct (parse_block st b) as [st1|] eqn:Hb; [|done]. simpl.
    apply IH. by eapply Hstep.
Qed.

Lemma parse_blocks_length blocks : ∀ st st',
  parse_blocks st blocks = Ok st' →
  length st'.2 = (length st.2 + length blocks)%nat.
Proof.
  induction blocks as [|b blocks IH]; intros st st'; simpl.
  - intros [= <-]. lia.
  - destruct (parse_block st b) as [st1|] eqn:Hb; [|done]. simpl.
    intros H%IH. apply parse_block_shape in Hb as (op & Hops & _).
    rewrite H, Hops, length_app. simpl. lia.
Qed.

Lemma parse_blocks_rows blocks : ∀ st st',
  parse_blocks st blocks = Ok st' →
  rows st'.1 = default (rows st.1) (last (omap block_rows blocks)).
Proof.
  induction blocks as [|b blocks IH]; intros st st'.
  - by intros [= <-].
  - change (parse_blocks st (b :: blocks))
      with (let* st1 := parse_block st b in parse_blocks st1 blocks).
    destruct (parse_block st b) as [st1|] eqn:Hb; [|done].
    intros H%IH.
    apply parse_block_shape in Hb as (op & _ & _ & _ & _ & _ & _ & _ & Hrw & _).
    rewrite H.
    change (omap block_rows (b :: blocks))
      with (match block_rows b with
            | Some v => v :: omap block_rows blocks
            | None => omap block_rows blocks
            end).
    destruct Hrw as [[Hv Hb']|[Hv Hb']]; rewrite Hv, Hb'; [|done].
    destruct (omap block_rows blocks) as [|v l] eqn:Hl; [done|].
    rewrite last_cons_cons. destruct (last (v :: l)) eqn:Hlast; [done|].
    by apply last_None in Hlast.
Qed.

(** *** The whole report *)

Lemma same_summary_trans m1 m2 m3 :
  same_summary m1 m2 → same_summary m2 m3 → same_summary m1 m3.
Proof.
  intros (?&?&?&?&?&?&?) (?&?&?&?&?&?&?). repeat split; congruence.
Qed.

Lemma parse_blocks_same blocks st st' :
  parse_blocks st blocks = Ok st' → same_summary st.1 st'.1.
Proof.
  apply (parse_blocks_keeps (λ st1, same_summary st.1 st1.1)).
  - intros st1 b st2 Hs (op & _ & Hs' & _)%parse_block_shape.
    by eapply same_summary_trans.
  - by repeat split.
Qed.

Lemma parse_profile_metrics_loop s m :
  parse_profile_metrics s = Ok m →
  ∃ m0 mb,
    parse_blocks (m0, []) (findall block_pat s) = Ok (mb, operators m) ∧
    db_hits m0 = 0 ∧ rows m0 = 0 ∧ elapsed_time_ms m0 = 0 ∧ indexes_used m0 = [] ∧
    db_hits m = db_hits mb ∧ rows m = rows mb ∧
    elapsed_time_ms m = elapsed_time_ms mb ∧ indexes_used m = indexes_used mb ∧
    0 ≤ total_db_hits m ∧ (0 <= query_time_ms m)%Q ∧
    (0 <= planning_time_ms m)%Q ∧ 0 ≤ cache_hits m ∧ 0 ≤ cache_misses m.
Proof.
  unfold parse_profile_metrics.
  destruct (re_search time_pat s) as [m0|] eqn:Et;
    [destruct (time_pat_digits _ _ Et) as (_ & q & Hq);
     pose proof (float_group_nonneg _ _ _ Hq);
     destruct (int_group m0 1) as [v|] eqn:Hv;
     [pose proof (int_group_nonneg _ _ _ Hv)|]; rewrite ?Hq|]; simpl; try done;
  (destruct (re_search planning_pat s) as [?|] eqn:Ep;
    [destruct (planning_pat_group _ _ Ep) as [pq Hpq];
     pose proof (float_group_nonneg _ _ _ Hpq); rewrite Hpq|]; simpl);
  search_step memory_pat memory_pat_group;
  (match goal with
   | |- context [parse_blocks ?st ?bs] =>
       destruct (parse_blocks st bs) as [[mb ops]|] eqn:Hloop; [|done];
       pose proof (parse_blocks_same _ _ _ Hloop) as (?&?&?&?&?&?&?)
   end); simpl in *;
  search_returned cache_hits_pat;
  search_returned cache_misses_pat;
  intros [= <-]; simpl;
  (eexists _, mb; split; [exact Hloop|]); simpl;
  split_and!; try done; try congruence; try lia;
  try (match goal with H : ?x = _ |- (0 <= ?x)%Q => rewrite H end; simpl; first [done|lra]).
Qed.

Lemma totals_initial m0 :
  db_hits m0 = 0 → rows m0 = 0 → elapsed_time_ms m0 = 0 → indexes_used m0 = [] →
  totals (m0, []).
Proof.
  intros Hd Hr He Hi. split; simpl; rewrite ?Hi; try done; try lia.
  apply NoDup_nil_2.
Qed.

Lemma parse_profile_metrics_totals s m :
  parse_profile_metrics s = Ok m →
  ∃ mb, totals (mb, operators m) ∧
    db_hits m = db_hits mb ∧ rows m = rows mb ∧
    elapsed_time_ms m = elapsed_time_ms mb ∧ indexes_used m = indexes_used mb.
Proof.
  intros (m0 & mb & Hloop & Hd & Hr & He & Hi & ? & ? & ? & ? & _)%parse_profile_metrics_loop.
  exists mb. split; [|done].
  eapply (parse_blocks_keeps totals); [apply parse_block_totals| |exact Hloop].
  by apply totals_initial.
Qed.

(** Property X20.  db_hits is the sum of the db_hits of the operators, elapsed_time_ms
    is the largest elapsed_ms among them (0 when there is none), and there
    is one operator per block of the report. *)
Theorem parsed_totals_agree profile_string m :
  parse_profile_metrics profile_string = Ok m →
  db_hits m = foldr Z.add 0 (op_db_hits <$> operators m) ∧
  elapsed_time_ms m = foldr Z.max 0 (op_elapsed_ms <$> operators m) ∧
  length (operators m) = length (findall block_pat profile_string).
Proof.
  intros H. pose proof H as (mb & [Hd He _ _ _ _] & -> & _ & -> & _)%parse_profile_metrics_totals.
  split_and!; [done..|].
  apply parse_profile_metrics_loop in H as (m0 & mb' & Hloop & _).
  by apply parse_blocks_length in Hloop.
Qed.

Lemma parsed_totals_agree_witness :
  ∃ m, parse_profile_metrics example_report = Ok m ∧
    db_hits m = foldr Z.add 0 (op_db_hits <$> operators m) ∧
    elapsed_time_ms m = foldr Z.max 0 (op_elapsed_ms <$> operators m) ∧
    length (operators m) = length (findall block_pat example_report).
Proof.
  eexists. split; [vm_compute; reflexivity|].
  apply (parsed_totals_agree example_report). vm_compute. reflexivity.
Defined.

(** Property X21.  No number in the dictionary is negative, and no number of an
    operator. *)
Theorem parsed_numbers_nonnegative profile_string m :
  parse_profile_metrics profile_string = Ok m →
  0 ≤ db_hits m ∧ 0 ≤ rows m ∧ 0 ≤ elapsed_time_ms m ∧ 0 ≤ total_db_hits m ∧
  (0 <= query_time_ms m)%Q ∧ (0 <= planning_time_ms m)%Q ∧
  0 ≤ cache_hits m ∧ 0 ≤ cache_misses m ∧
  ∀ op, op ∈ operators m →
    0 ≤ op_db_hits op ∧ 0 ≤ op_rows op ∧ 0 ≤ op_elapsed_ms op.
Proof.
  intros H. pose proof H as (mb & [Hd He _ _ Hr Ho] & -> & -> & -> & _)%parse_profile_metrics_totals.
  apply parse_profile_metrics_loop in H
    as (_ & _ & _ & _ & _ & _ & _ & _ & _ & _ & _ & ? & ? & ? & ? & ?).
  simpl in *. rewrite Forall_forall in Ho.
  assert (Hsum : ∀ l : list Operator,
    Forall (λ op, 0 ≤ op_db_hits op) l → 0 ≤ foldr Z.add 0 (op_db_hits <$> l)).
  { induction 1; csimpl; lia. }
  split_and!; try done.
  - rewrite Hd. apply Hsum, Forall_forall. intros op Hop. by apply Ho.
  - rewrite He. apply foldr_max_nonneg.
  - intros op Hop. destruct (Ho op Hop) as (_ & ? & ? & ?). done.
Qed.

Lemma parsed_numbers_nonnegative_witness :
  ∃ m, parse_profile_metrics example_report = Ok m ∧
    0 ≤ db_hits m ∧ 0 ≤ rows m ∧ 0 ≤ elapsed_time_ms m ∧ 0 ≤ total_db_hits m ∧
    (0 <= query_time_ms m)%Q ∧ (0 <= planning_time_ms m)%Q ∧
    0 ≤ cache_hits m ∧ 0 ≤ cache_misses m ∧
    ∀ op, op ∈ operators m →
      0 ≤ op_db_hits op ∧ 0 ≤ op_rows op ∧ 0 ≤ op_elapsed_ms op.
Proof.
  eexists. split; [vm_compute; reflexivity|].
  apply (parsed_numbers_nonnegative example_report). vm_compute. reflexivity.
Defined.

(** Property X22.  indexes_used has no duplicates and at most one entry per operator. *)
Theorem parsed_indexes_distinct profile_string m :
  parse_profile_metrics profile_string = Ok m →
  NoDup (indexes_used m) ∧ (length (indexes_used m) ≤ length (operators m))%nat.
Proof.
  intros (mb & [_ _ Hi Hil _ _] & _ & _ & _ & ->)%parse_profile_metrics_totals.
  done.
Qed.

Lemma parsed_indexes_distinct_witness :
  ∃ m, parse_profile_metrics example_report = Ok m ∧
    NoDup (indexes_used m) ∧ (length (indexes_used m) ≤ length (operators m))%nat.
Proof.
  eexists. split; [vm_compute; reflexivity|].
  apply (parsed_indexes_distinct example_report). vm_compute. reflexivity.
Defined.

(** Property X23.  rows is the count of the last block that carries one; blocks
    without a rows token do not reset it. *)
Theorem parsed_rows_is_last profile_string m :
  parse_profile_metrics profile_string = Ok m →
  rows m = default 0 (last (omap block_rows (findall block_pat profile_string))).
Proof.
  intros (m0 & mb & Hloop & _ & Hr & _ & _ & _ & -> & _)%parse_profile_metrics_loop.
  apply parse_blocks_rows in Hloop. simpl in Hloop. by rewrite Hloop, Hr.
Qed.

Lemma parsed_rows_is_last_witness :
  ∃ m, parse_profile_metrics example_report = Ok m ∧
    rows m = default 0 (last (omap block_rows (findall block_pat example_report))).
Proof.
  eexists. split; [vm_compute; reflexivity|].
  apply (parsed_rows_is_last example_report). vm_compute. reflexivity.
Defined.

(** *** The blocks and the operator names *)

Lemma block_pat_group s m :
  re_match block_pat s = Some m →
  ∃ g, lookup_group 1 (m_caps m) = Some g ∧ g ≠ "" ∧ all_chars not_plus g = true.
Proof.
  intros H%re_match_sound. destruct m as [rest cs]. simpl in *.
  unfold block_pat in H.
  apply matches_seq_inv in H as (s1 & cs1 & H1 & H).
  apply matches_seq_inv in H as (s2 & cs2 & H2 & H).
  apply matches_seq_inv in H as (s3 & cs3 & H3 & H4).
  apply matches_nogroups in H4; [|reflexivity]. subst cs.
  apply matches_group_inv in H3 as (cs0 & H3 & ->).
  apply matches_plus_chr in H3 as [-> (pre & -> & Hne & Hall)].
  simpl. rewrite consumed_app. eauto.
Qed.

(** Property X24.  An operator block is never empty and holds no plus sign, and the
    name of an operator consists of letters only. *)
Theorem parsed_blocks_and_names profile_string m :
  parse_profile_metrics profile_string = Ok m →
  (∀ b, b ∈ findall block_pat profile_string →
     b ≠ "" ∧ all_chars not_plus b = true) ∧
  (∀ op, op ∈ operators m → all_chars is_alpha (op_name op) = true).
Proof.
  intros H. split.
  - intros b (pre & s0 & mt & _ & Hm & ->)%findall_from_sound.
    by destruct (block_pat_group _ _ Hm) as (g & -> & ? & ?).
  - apply parse_profile_metrics_totals in H as (mb & [_ _ _ _ _ Ho] & _).
    simpl in Ho. rewrite Forall_forall in Ho. intros op Hop.
    by destruct (Ho op Hop) as (? & _).
Qed.

Lemma parsed_blocks_and_names_witness :
  ∃ m, parse_profile_metrics example_report = Ok m ∧
    (∀ b, b ∈ findall block_pat example_report →
       b ≠ "" ∧ all_chars not_plus b = true) ∧
    (∀ op, op ∈ operators m → all_chars is_alpha (op_name op) = true).
Proof.
  eexists. split; [vm_compute; reflexivity|].
  apply (parsed_blocks_and_names example_report). vm_compute. reflexivity.
Defined.

End ProfileLoop.

(** ** Similarity and recommendation under a generous limit *)

Module LimitFacts.
Import Cypher CypherFacts Store Analytics Spec StoreFacts Examples Manager Scenes.
Import SimilarityTheorems RecommendFacts PostFacts.

Lemma limit_all {A} (before : A → A → bool) (l : list A) lim :
  (length l ≤ lim)%nat → limit lim (order_by before l) = order_by before l.
Proof.
  intros Hl. apply take_ge. by rewrite (Permutation_length (order_by_perm before l)).
Qed.

Lemma similar_candidates_length g a :
  wf_graph g → out_follows g a ≠ [] →
  (length (similar_candidates g a) ≤ length (accounts g))%nat.
Proof.
  intros Hwf Hne. destruct (similar_candidates_spec g a Hwf Hne) as (Hnd & Hin & _).
  rewrite <- (length_fmap similar_account), <- (length_fmap name (accounts g)).
  apply submseteq_length, NoDup_submseteq; [done|].
  intros o (r & -> & Hr)%list_elem_of_fmap. by apply Hin.
Qed.

Lemma out_follows_account g a :
  wf_graph g → out_follows g a ≠ [] → a ∈ match_accounts g.
Proof.
  intros Hwf Hne. destruct (out_follows g a) as [|b l] eqn:Hb; [done|].
  assert (Hin : b ∈ out_follows g a) by (rewrite Hb; left).
  apply elem_of_out_follows in Hin. by apply (wf_follows_src g Hwf) in Hin.
Qed.

Lemma common_nonempty g a o :
  (0 < size (follow_set g a ∩ follow_set g o))%nat →
  out_follows g a ≠ [] ∧ out_follows g o ≠ [].
Proof.
  intros Hs. split; intros Hnil; unfold follow_set in Hs; rewrite Hnil in Hs;
    simpl in Hs.
  - rewrite intersection_empty_l_L, size_empty in Hs. lia.
  - rewrite intersection_empty_r_L, size_empty in Hs. lia.
Qed.

(** Property X25.  With a limit of at least the number of accounts,
    find_similar_accounts leaves nobody out: every other account that
    shares a followed account with the source has a row. *)
Theorem find_similar_accounts_generous_limit g a lim rows :
  wf_graph g → (length (accounts g) ≤ lim)%nat →
  find_similar_accounts g a lim = Ok rows →
  ∀ o, o ∈ match_accounts g → o ≠ a →
    (0 < size (follow_set g a ∩ follow_set g o))%nat →
    ∃ r, r ∈ rows ∧ similar_account r = o.
Proof.
  intros Hwf Hlim Hrows o Ho Hoa Hs.
  destruct (common_nonempty g a o Hs) as [Hne _].
  rewrite find_similar_accounts_closed in Hrows by done.
  rewrite limit_all in Hrows
    by (etrans; [by apply similar_candidates_length|done]).
  injection Hrows as <-.
  destruct (similar_candidates_spec g a Hwf Hne) as (_ & _ & Hall).
  destruct (Hall o Ho Hoa Hs) as (r & Hr & Hro).
  exists r. by rewrite elem_of_order_by.
Qed.

Lemma find_similar_accounts_generous_limit_witness :
  ∃ rows, find_similar_accounts similar_graph "a" 6 = Ok rows ∧
    ∃ r, r ∈ rows ∧ similar_account r = "o1".
Proof.
  eexists. split; [vm_compute; reflexivity|].
  eapply (find_similar_accounts_generous_limit similar_graph "a" 6 _ wf_similar_graph).
  - vm_compute. lia.
  - vm_compute. reflexivity.
  - compute_done.
  - done.
  - vm_compute. lia.
Defined.

(** Property X26.  Similarity is mutual in its count: with a limit of at least the
    number of accounts, when [o] is returned for [a] then [a] is returned
    for [o], with the same common_follows. *)
Theorem find_similar_accounts_mutual g a lim rows r :
  wf_graph g → (length (accounts g) ≤ lim)%nat →
  find_similar_accounts g a lim = Ok rows → r ∈ rows →
  ∃ rows' r',
    find_similar_accounts g (similar_account r) lim = Ok rows' ∧
    r' ∈ rows' ∧ similar_account r' = a ∧ common_follows r' = common_follows r.
Proof.
  intros Hwf Hlim Hrows Hr.
  destruct (decide (out_follows g a = [])) as [Hnil|Hne].
  { rewrite find_similar_accounts_nil in Hrows by done.
    injection Hrows as <-. by apply not_elem_of_nil in Hr. }
  rewrite find_similar_accounts_closed in Hrows by done. injection Hrows as <-.
  apply elem_of_take_1, elem_of_order_by in Hr.
  destruct (similar_candidates_spec g a Hwf Hne) as (_ & Hin & _).
  destruct (Hin r Hr) as (Ho & Hoa & Hc & Hpos & _).
  set (o := similar_account r) in *.
  assert (Hs : (0 < size (follow_set g o ∩ follow_set g a))%nat).
  { rewrite (comm_L (∩)). by rewrite <- Hc. }
  destruct (common_nonempty g o a Hs) as [Hneo _].
  destruct (similar_candidates_spec g o Hwf Hneo) as (_ & Hin' & Hall').
  destruct (Hall' a (out_follows_account g a Hwf Hne) (not_eq_sym Hoa) Hs)
    as (r' & Hr' & Hra).
  eexists _, r'. split; [by apply find_similar_accounts_closed|].
  rewrite limit_all by (etrans; [by apply similar_candidates_length|done]).
  split; [by rewrite elem_of_order_by|]. split; [done|].
  destruct (Hin' r' Hr') as (_ & _ & -> & _). rewrite Hra, Hc.
  by rewrite (comm_L (∩)).
Qed.

Lemma find_similar_accounts_mutual_witness :
  ∃ rows r, find_similar_accounts similar_graph "a" 6 = Ok rows ∧ r ∈ rows ∧
  ∃ rows' r',
    find_similar_accounts similar_graph (similar_account r) 6 = Ok rows' ∧
    r' ∈ rows' ∧ similar_account r' = "a" ∧ common_follows r' = common_follows r.
Proof.
  eexists _, _. split; [vm_compute; reflexivity|]. split; [left|].
  eapply (find_similar_accounts_mutual similar_graph "a" 6 _ _ wf_similar_graph).
  - vm_compute. lia.
  - vm_compute. reflexivity.
  - left.
Defined.

(** *** recommend_posts *)

Lemma recommend_ids g a :
  rec_post_id <$>
    (recommend_row g a <$>
       ((λ r, (r.1, count_distinct r.2)) <$> group_by (liked_rows g a))) =
  (group_by (liked_rows g a)).*1.
Proof.
  rewrite <- !list_fmap_compose. apply list_fmap_ext. by intros i [p fs] _.
Qed.

Lemma liked_posts_length g a :
  (length (group_by (liked_rows g a)) ≤ length (likes g))%nat.
Proof.
  rewrite <- (length_fmap fst), <- (length_fmap snd (likes g)).
  apply submseteq_length, NoDup_submseteq; [apply NoDup_group_by_keys|].
  intros p ([p' fs] & -> & Hk)%list_elem_of_fmap.
  apply elem_of_group_by in Hk as [Hk _].
  apply list_elem_of_fmap in Hk as ([p1 f] & -> & Hk).
  apply elem_of_liked_rows in Hk as (_ & _ & Hl & _).
  apply list_elem_of_fmap. by exists (f, p1).
Qed.

(** Property X27.  recommend_posts returns no post twice; and with a limit of at least
    the number of Likes relationships it leaves no candidate out: a post
    is returned exactly when an account followed by the source likes it
    and the source does not. *)
Theorem recommend_posts_generous_limit g a lim :
  NoDup (rec_post_id <$> recommend_posts g a lim) ∧
  ((length (likes g) ≤ lim)%nat →
   ∀ p, p ∈ rec_post_id <$> recommend_posts g a lim ↔
        a ∈ match_accounts g ∧ ((a, p) ∉ likes g) ∧
        ∃ f, (a, f) ∈ follows g ∧ (f, p) ∈ likes g).
Proof.
  rewrite recommend_posts_closed. split.
  - unfold limit. rewrite fmap_take. eapply sublist_NoDup; [|apply sublist_take].
    rewrite (order_by_perm recommend_before), recommend_ids.
    apply NoDup_group_by_keys.
  - intros Hlim p. rewrite limit_all.
    2:{ rewrite !length_fmap. etrans; [apply liked_posts_length|done]. }
    rewrite (order_by_perm recommend_before), recommend_ids. split.
    + intros ([p' fs] & -> & Hk)%list_elem_of_fmap.
      pose proof (group_by_nonempty _ _ _ Hk) as Hne.
      apply elem_of_group_by in Hk as [Hk _].
      apply list_elem_of_fmap in Hk as ([p1 f] & -> & Hk). simpl.
      apply elem_of_liked_rows in Hk as (? & ? & ? & ?). eauto.
    + intros (Ha & Hnot & f & Hf & Hl).
      assert (Hk : (p, f) ∈ liked_rows g a) by by apply elem_of_liked_rows.
      apply list_elem_of_fmap. eexists (p, _). split; [done|].
      apply elem_of_group_by. split; [|done].
      apply list_elem_of_fmap. by exists (p, f).
Qed.

Lemma recommend_posts_generous_limit_witness :
  NoDup (rec_post_id <$> recommend_posts post_graph "a" 3) ∧
  ("p1" ∈ rec_post_id <$> recommend_posts post_graph "a" 3 ↔
     "a" ∈ match_accounts post_graph ∧ (("a", "p1") ∉ likes post_graph) ∧
     ∃ f, ("a", f) ∈ follows post_graph ∧ (f, "p1") ∈ likes post_graph).
Proof.
  destruct (recommend_posts_generous_limit post_graph "a" 3) as [Hnd Hall].
  split; [exact Hnd|]. apply Hall. vm_compute. lia.
Defined.

End LimitFacts.
